(** * Ring all-to-all personalized exchange (alltoall_personalized.c)

    A shallow embedding of [compact_array] and [all_to_all_personalized]
    together with an asynchronous model of the ring of MPI processes that
    run it, and the properties of the exchange proved over that model.

    Conventions.
    - A C [int] is a [Z]. Signed overflow is undefined in C; every
      intermediate value of the index arithmetic lies between [0] and
      [2 * num_proc], see [index_arith_small]. Where the value of an
      expression depends on a parameter that could take it beyond
      [INT_MAX], either the definition makes the overflow an error
      ([main_populate]) or the theorem keeps the parameter in range by a
      hypothesis ([compact_array_defined]).
    - [%] on [int] is [Z.rem] (truncation towards zero), as in C.
    - An [int] array is a [list Z] addressed by a [Z]; a read or a write
      outside the array has no defined behaviour in C and is an error
      ([None]) here.
    - [MPI_Wtime] is an oracle [clock : nat -> Z]: the [n]-th call made by
      a process returns [clock n] (time in ticks, exact arithmetic).
    - [print_msg] and [print_array] only write to the console and leave
      the state of the process unchanged. *)

From Stdlib Require Import ZArith Lia List Ascii.
From stdpp Require Import base tactics option list list_numbers functions sorting strings pretty.

Local Open Scope Z_scope.

(** ** The range of [int] *)

Definition INT_MAX : Z := 2147483647.
Definition INT_MIN : Z := -2147483648.

(** ** Arrays of [int] *)

Definition rd (a : list Z) (i : Z) : option Z :=
  if 0 <=? i then a !! Z.to_nat i else None.

Definition wr (a : list Z) (i v : Z) : option (list Z) :=
  if (0 <=? i) && (i <? Z.of_nat (length a))
  then Some (<[Z.to_nat i := v]> a) else None.

(** The first [n] cells of [a], as handed to [MPI_Send]. *)
Definition read_block (a : list Z) (n : Z) : option (list Z) :=
  if (0 <=? n) && (n <=? Z.of_nat (length a))
  then Some (take (Z.to_nat n) a) else None.

(** [data] stored over the first cells of [a], as done by [MPI_Recv]. *)
Definition write_block (a data : list Z) : option (list Z) :=
  if Z.of_nat (length data) <=? Z.of_nat (length a)
  then Some (data ++ drop (length data) a) else None.

(** ** Counted loops: [for (i = lo; i < hi; i++) body] *)

Fixpoint iter_from {St : Type} (n : nat) (i : Z)
    (body : Z → St → option St) (s : St) : option St :=
  match n with
  | O => Some s
  | S n' => s' ← body i s; iter_from n' (i + 1) body s'
  end.

Definition for_range {St : Type} (lo hi : Z)
    (body : Z → St → option St) (s : St) : option St :=
  iter_from (Z.to_nat (hi - lo)) lo body s.

(** ** [compact_array] *)

Definition compact_body (i : Z) (arr : list Z) : option (list Z) :=
  v ← rd arr i; wr arr (i - 1) v.

(** The loop starts at [idx + 1], which is an [int] as long as
    [idx < INT_MAX]; [all_to_all_personalized] calls it with
    [0 <= idx < size]. *)
Definition compact_array (idx : Z) (arr : list Z) (size : Z) : option (list Z) :=
  for_range (idx + 1) size compact_body arr.

(** ** [all_to_all_personalized] *)

(** A message in transit: the tag it was sent with and its contents. *)
Record packet := Packet { tag : Z; payload : list Z }.

(** Where a process stands in the round loop: about to call [MPI_Send]
    (or to leave the loop), or blocked in [MPI_Recv]. *)
Inductive phase := AtSend | AtRecv.

(** The local variables of a process, the array [res_arr] it fills, the
    indices of [res_arr] written so far (most recent first) and the number
    of [MPI_Wtime] calls made. *)
Record proc := Proc {
  loop_i : Z;
  ph : phase;
  buf : list Z;
  res_arr : list Z;
  res_log : list Z;
  time_taken : Z;
  disp_time : Z;
  ticks : nat
}.

(** Body of the loop that creates the first message (lines 81-90). *)
Definition first_msg_body (msg_arr : list Z) (rank : Z)
    (i : Z) (b : list Z) : option (list Z) :=
  if i <? rank then v ← rd msg_arr i; wr b i v
  else if i =? rank then Some b
  else v ← rd msg_arr i; wr b (i - 1) v.

(** [int buf[num_proc - 1]]: [num_proc - 1] cells holding whatever the
    stack held. *)
Definition fresh_buf (stack : nat → Z) (num_proc : Z) : list Z :=
  stack <$> seq 0 (Z.to_nat (num_proc - 1)).

(** Lines 76-92: everything before the round loop. *)
Definition a2a_prologue (clock : nat → Z) (stack : nat → Z)
    (msg_arr res0 : list Z) (rank num_proc : Z) : option proc :=
  let t := clock 0%nat in
  b ← for_range 0 num_proc (first_msg_body msg_arr rank) (fresh_buf stack num_proc);
  v ← rd msg_arr rank;
  r ← wr res0 rank v;
  Some (Proc 1 AtSend b r [rank] t 0 1).

Definition send_to (rank num_proc : Z) : Z := Z.rem (rank + 1) num_proc.
Definition recv_from (rank num_proc : Z) : Z := Z.rem (rank + num_proc - 1) num_proc.
Definition origin (rank num_proc i : Z) : Z := Z.rem (num_proc + rank - i) num_proc.
Definition data_index (rank num_proc i : Z) : Z :=
  if origin rank num_proc i <=? rank then origin rank num_proc i else 0.

(** Lines 94-105: the loop test, [MPI_Send], and the clock readings up to
    the call of [MPI_Recv]. Yields the destination and the packet sent. *)
Definition a2a_send (clock : nat → Z) (rank num_proc : Z) (st : proc)
    : option (Z * packet * proc) :=
  match ph st with
  | AtRecv => None
  | AtSend =>
    if loop_i st <? num_proc then
      let msg_size := num_proc - loop_i st in
      data ← read_block (buf st) msg_size;
      let disp := clock (ticks st) in
      let taken := disp - time_taken st in
      let disp := clock (S (ticks st)) in
      Some (send_to rank num_proc, Packet rank data,
            Proc (loop_i st) AtRecv (buf st) (res_arr st) (res_log st)
                 taken disp (S (S (ticks st))))
    else None
  end.

(** Lines 106-122 and the loop increment: [MPI_Recv] completes with the
    packet [pk]; the value for this process is stored and removed. *)
Definition a2a_recv (clock : nat → Z) (rank num_proc : Z) (st : proc)
    (pk : packet) : option proc :=
  match ph st with
  | AtSend => None
  | AtRecv =>
    let i := loop_i st in
    let msg_size := num_proc - i in
    if Z.of_nat (length (payload pk)) <=? msg_size then
      b ← write_block (buf st) (payload pk);
      let disp := clock (ticks st) - disp_time st in
      let o := origin rank num_proc i in
      let idx := data_index rank num_proc i in
      v ← rd b idx;
      r ← wr (res_arr st) o v;
      b' ← compact_array idx b msg_size;
      Some (Proc (i + 1) AtSend b' r (o :: res_log st)
                 (time_taken st + disp) disp (S (ticks st)))
    else None
  end.

(** Line 125: the loop is over. *)
Definition a2a_return (num_proc : Z) (st : proc) : option Z :=
  match ph st with
  | AtSend => if loop_i st <? num_proc then None else Some (time_taken st)
  | AtRecv => None
  end.

Definition finished (num_proc : Z) (st : proc) : Prop :=
  ph st = AtSend ∧ num_proc ≤ loop_i st.

(** [n] rounds of one process whose receives are served from [inbox]. The
    packets sent are collected in order, each with its destination. *)
Fixpoint a2a_rounds (clock : nat → Z) (rank num_proc : Z) (n : nat)
    (st : proc) (inbox : list packet) : option (proc * list (Z * packet)) :=
  match n with
  | O => Some (st, [])
  | S n' =>
    '(dst, pk, st1) ← a2a_send clock rank num_proc st;
    match inbox with
    | [] => None
    | m :: inbox' =>
      st2 ← a2a_recv clock rank num_proc st1 m;
      '(st3, out) ← a2a_rounds clock rank num_proc n' st2 inbox';
      Some (st3, (dst, pk) :: out)
    end
  end.

(** The whole function, run in isolation against the messages its
    predecessor will send: the final process state, the value returned and
    the packets sent. *)
Definition all_to_all_personalized (clock : nat → Z) (stack : nat → Z)
    (msg_arr res0 : list Z) (rank num_proc : Z) (inbox : list packet)
    : option (proc * Z * list (Z * packet)) :=
  st0 ← a2a_prologue clock stack msg_arr res0 rank num_proc;
  '(st, out) ← a2a_rounds clock rank num_proc (Z.to_nat (num_proc - 1)) st0 inbox;
  t ← a2a_return num_proc st;
  Some (st, t, out).

(** ** The ring of processes *)

(** The network: the state of every rank, and for every ordered pair of
    ranks the queue of packets sent and not yet received (oldest first). *)
Record net := Net {
  procs : Z → proc;
  chans : Z → Z → list packet
}.

Definition chan_set (src dst : Z) (q : list packet)
    (ch : Z → Z → list packet) : Z → Z → list packet :=
  λ s d, if (s =? src) && (d =? dst) then q else ch s d.

(** [MPI_Recv] matches the oldest queued packet that carries the tag. *)
Fixpoint pick (t : Z) (q : list packet) : option (packet * list packet) :=
  match q with
  | [] => None
  | pk :: q' =>
    if tag pk =? t then Some (pk, q')
    else '(m, r) ← pick t q'; Some (m, pk :: r)
  end.

(** One step of the ring: some process gets through its [MPI_Send], or
    some process blocked in [MPI_Recv] is handed a matching packet.
    [MPI_Send] returns once the transport has taken the message, which is
    then queued for the destination; [MPI_Recv] names [recv_from] both as
    the source and as the tag it waits for. Steps of different processes
    interleave freely. The clock of rank [p] is [clock p]. *)
Inductive net_step (clock : Z → nat → Z) (N : Z) (w : net) : net → Prop :=
| step_send p dst pk st' :
    0 ≤ p < N →
    a2a_send (clock p) p N (procs w p) = Some (dst, pk, st') →
    net_step clock N w
      (Net (<[p := st']> (procs w))
           (chan_set p dst (chans w p dst ++ [pk]) (chans w)))
| step_recv p pk q st' :
    0 ≤ p < N →
    ph (procs w p) = AtRecv →
    pick (recv_from p N) (chans w (recv_from p N) p) = Some (pk, q) →
    a2a_recv (clock p) p N (procs w p) pk = Some st' →
    net_step clock N w
      (Net (<[p := st']> (procs w))
           (chan_set (recv_from p N) p q (chans w))).

Inductive net_steps (clock : Z → nat → Z) (N : Z) : net → net → Prop :=
| steps_refl w : net_steps clock N w w
| steps_snoc w1 w2 w3 :
    net_steps clock N w1 w2 → net_step clock N w2 w3 → net_steps clock N w1 w3.

(** Every rank has run its prologue on its own [msg_arr] and nothing has
    been sent yet. *)
Definition net_init (clock : Z → nat → Z) (stack : Z → nat → Z)
    (M R0 : Z → list Z) (N : Z) (w : net) : Prop :=
  (∀ p, 0 ≤ p < N →
     a2a_prologue (clock p) (stack p) (M p) (R0 p) p N = Some (procs w p)) ∧
  (∀ s d, chans w s d = []).

Definition net_reachable clock stack M R0 N (w : net) : Prop :=
  ∃ w0, net_init clock stack M R0 N w0 ∧ net_steps clock N w0 w.

Definition all_finished (N : Z) (w : net) : Prop :=
  ∀ p, 0 ≤ p < N → finished N (procs w p).

(** *** Running the ring under a given schedule *)

Inductive action := DoSend (p : Z) | DoRecv (p : Z).

Definition net_act (clock : Z → nat → Z) (N : Z) (a : action) (w : net)
    : option net :=
  match a with
  | DoSend p =>
    if (0 <=? p) && (p <? N) then
      '(dst, pk, st') ← a2a_send (clock p) p N (procs w p);
      Some (Net (<[p := st']> (procs w))
                (chan_set p dst (chans w p dst ++ [pk]) (chans w)))
    else None
  | DoRecv p =>
    if (0 <=? p) && (p <? N) then
      match ph (procs w p) with
      | AtSend => None
      | AtRecv =>
        '(pk, q) ← pick (recv_from p N) (chans w (recv_from p N) p);
        st' ← a2a_recv (clock p) p N (procs w p) pk;
        Some (Net (<[p := st']> (procs w))
                  (chan_set (recv_from p N) p q (chans w)))
      end
    else None
  end.

Fixpoint run_schedule (clock : Z → nat → Z) (N : Z) (s : list action)
    (w : net) : option net :=
  match s with
  | [] => Some w
  | a :: s' => w' ← net_act clock N a w; run_schedule clock N s' w'
  end.

(** A process that does nothing, standing for the ranks outside the ring. *)
Definition idle : proc := Proc 1 AtSend [] [] [] 0 0 0.

(** The ring when every rank has gone through its prologue. *)
Definition ring_start (clock : Z → nat → Z) (stack : Z → nat → Z)
    (M R0 : Z → list Z) (N : Z) : net :=
  Net (λ p, default idle (a2a_prologue (clock p) (stack p) (M p) (R0 p) p N))
      (λ _ _, []).

(** ** Ghost bookkeeping: whose values a buffer holds *)

(** Destinations still to be served by the buffer that left rank [o] and
    is now held by rank [h]: the ranks outside the arc [o, o+1, ..., h] of
    the ring, in increasing order. *)
Definition dests (N o h : Z) : list Z :=
  if o <=? h then seqZ 0 o ++ seqZ (h + 1) (N - h - 1)
  else seqZ (h + 1) (o - h - 1).

(** Number of hops from [a] forward to [b]. *)
Definition hops (N a b : Z) : Z := (b - a) `mod` N.

(** The rank whose buffer [p] holds at the start of round [i]. *)
Definition source_of (N p i : Z) : Z := (p - (i - 1)) `mod` N.

Definition cell (M : Z → list Z) (a b : Z) : Z := default 0 (M a !! Z.to_nat b).

(** What rank [p] is to send in round [i]. *)
Definition in_transit (M : Z → list Z) (N p i : Z) : list Z :=
  cell M (source_of N p i) <$> dests N (source_of N p i) p.

(** Rounds whose send is behind the process. *)
Definition sent_upto (st : proc) : Z :=
  match ph st with AtSend => loop_i st - 1 | AtRecv => loop_i st end.

Definition succ_rank (N p : Z) : Z := (p + 1) `mod` N.

(** What holds of a process whatever it is sent: where it is in the loop,
    the sizes of its arrays and the slots of [res_arr] written so far. *)
Record proc_wf (N p : Z) (st : proc) : Prop := {
  pw_round : 1 ≤ loop_i st ≤ N;
  pw_recv : ph st = AtRecv → loop_i st < N;
  pw_buf_len : Z.of_nat (length (buf st)) = N - 1;
  pw_res_len : Z.of_nat (length (res_arr st)) = N;
  pw_log : res_log st = reverse ((λ j, (p - j) `mod` N) <$> seqZ 0 (loop_i st))
}.

(** What holds of a process of the ring: moreover its buffer holds the
    values in transit and the slots written hold the transposed values. *)
Record proc_inv (M : Z → list Z) (N p : Z) (st : proc) : Prop := {
  pi_wf : proc_wf N p st;
  pi_buf : take (Z.to_nat (N - loop_i st)) (buf st) = in_transit M N p (loop_i st);
  pi_res : ∀ j, 0 ≤ j < loop_i st →
      res_arr st !! Z.to_nat ((p - j) `mod` N) = Some (cell M ((p - j) `mod` N) p)
}.

(** The packets of [inbox] do not exceed the counts the receives of rounds
    [i], [i + 1], ... ask for. *)
Fixpoint fits (N i : Z) (inbox : list packet) : Prop :=
  match inbox with
  | [] => True
  | pk :: rest => Z.of_nat (length (payload pk)) ≤ N - i ∧ fits N (i + 1) rest
  end.

Record net_inv (M : Z → list Z) (N : Z) (w : net) : Prop := {
  ni_proc : ∀ p, 0 ≤ p < N → proc_inv M N p (procs w p);
  ni_lag : ∀ p, 0 ≤ p < N →
      loop_i (procs w (succ_rank N p)) ≤ sent_upto (procs w p) + 1;
  ni_chan : ∀ p, 0 ≤ p < N →
      chans w p (succ_rank N p) =
        (λ j, Packet p (in_transit M N p j)) <$>
          seqZ (loop_i (procs w (succ_rank N p)))
               (sent_upto (procs w p) + 1 - loop_i (procs w (succ_rank N p)))
}.

(** The invariant of the circulating buffer: the first [N - i] cells of
    [b], the buffer of rank [p] at the start of round [i], are values of
    rank [o = source_of N p i], one for each rank more than [i - 1] hops
    ahead of [o] and for no other rank (so none for [p] itself), in
    strictly increasing order of destination. *)
Definition holds_in_transit (M : Z → list Z) (N p i : Z) (b : list Z) : Prop :=
  ∃ ds : list Z,
    take (Z.to_nat (N - i)) b = cell M (source_of N p i) <$> ds ∧
    Z.of_nat (length ds) = N - i ∧
    StronglySorted Z.lt ds ∧
    (p ∉ ds) ∧
    (∀ d, d ∈ ds ↔ 0 ≤ d < N ∧ i - 1 < hops N (source_of N p i) d).

(** Work left in the ring, in steps. *)
Definition steps_left (N : Z) (st : proc) : Z :=
  2 * (N - loop_i st) - match ph st with AtSend => 0 | AtRecv => 1 end.

Definition net_measure (N : Z) (w : net) : Z :=
  foldr Z.add 0 ((λ p, steps_left N (procs w p)) <$> seqZ 0 N).

(** ** Wall-clock model for the timing contract *)

(** Where the time of a run goes: the instant the function is entered and,
    for each round [k = 0, 1, ...], how long the send, the display of the
    sent buffer, the receive and the display of the received buffer take.
    Local computation is instantaneous. *)
Record timeline := Timeline {
  t_enter : Z;
  d_send : nat → Z;
  d_show_sent : nat → Z;
  d_recv : nat → Z;
  d_show_recv : nat → Z
}.

(** Instant at which round [k] begins. *)
Fixpoint round_start (tl : timeline) (k : nat) : Z :=
  match k with
  | O => t_enter tl
  | S k' => round_start tl k' + d_send tl k' + d_show_sent tl k'
            + d_recv tl k' + d_show_recv tl k'
  end.

(** The readings [MPI_Wtime] returns along the timeline: one on entry,
    then in each round one after the send, one before the receive and one
    after it. *)
Definition clock_of (tl : timeline) (n : nat) : Z :=
  match n with
  | O => t_enter tl
  | S m =>
    let k := (m / 3)%nat in
    let after_send := round_start tl k + d_send tl k in
    match (m mod 3)%nat with
    | 0%nat => after_send
    | 1%nat => after_send + d_show_sent tl k
    | _ => after_send + d_show_sent tl k + d_recv tl k
    end
  end.

(** Time spent inside the send and receive calls of the first [n] rounds. *)
Fixpoint comm_time (tl : timeline) (n : nat) : Z :=
  match n with
  | O => 0
  | S k => comm_time tl k + d_send tl k + d_recv tl k
  end.

(** Time from entry to the end of the last receive. *)
Definition elapsed (tl : timeline) (n : nat) : Z :=
  match n with
  | O => 0
  | S k => round_start tl (S k) - d_show_recv tl k - t_enter tl
  end.

(** ** A ring of three: the scenario of the specification *)

Definition demo_M (p : Z) : list Z :=
  if p =? 0 then [10; 20; 30]
  else if p =? 1 then [40; 50; 60]
  else [70; 80; 90].

Definition demo_R0 (p : Z) : list Z := [0; 0; 0].

(** Entry at tick 100; every send, receive and display takes one tick. *)
Definition demo_tl : timeline :=
  Timeline 100 (λ _, 1) (λ _, 1) (λ _, 1) (λ _, 1).

Definition demo_clock (p : Z) : nat → Z := clock_of demo_tl.
Definition demo_stack (p : Z) (n : nat) : Z := 0.

Definition demo_start : net :=
  ring_start demo_clock demo_stack demo_M demo_R0 3.

Definition all_send : list action := [DoSend 0; DoSend 1; DoSend 2].
Definition all_recv : list action := [DoRecv 0; DoRecv 1; DoRecv 2].

(** The ring after every rank has sent its first buffer. *)
Definition demo_sent : net :=
  default demo_start (run_schedule demo_clock 3 all_send demo_start).

(** The ring after both rounds, run in lockstep. *)
Definition demo_final : net :=
  default demo_start
    (run_schedule demo_clock 3 (all_send ++ all_recv ++ all_send ++ all_recv)
       demo_start).

(** ** A ring of four *)

(** Rank [p] addresses [10 * p + b + 1] to rank [b]. *)
Definition quad_M (p : Z) : list Z := (λ b, 10 * p + b) <$> seqZ 1 4.
Definition quad_R0 (p : Z) : list Z := [0; 0; 0; 0].

Definition quad_start : net :=
  ring_start demo_clock demo_stack quad_M quad_R0 4.

Definition quad_send : list action := [DoSend 0; DoSend 1; DoSend 2; DoSend 3].
Definition quad_recv : list action := [DoRecv 0; DoRecv 1; DoRecv 2; DoRecv 3].

(** The ring of four after every rank has sent its first buffer, and
    after every rank has gone through its first round. *)
Definition quad_sent : net :=
  default quad_start (run_schedule demo_clock 4 quad_send quad_start).

Definition quad_round : net :=
  default quad_start
    (run_schedule demo_clock 4 (quad_send ++ quad_recv) quad_start).

(** ** Console output: [print_array] and [print_msg] *)

(** The text written by [printf] is returned as a string; [%d] is the
    decimal rendering [pretty]. *)
Definition newline : string := String (Ascii.ascii_of_nat 10) "".

Definition print_array_body (arr : list Z) (i : Z) (out : string)
    : option string :=
  v ← rd arr i; Some (out +:+ pretty v +:+ ", ").

Definition print_array (arr : list Z) (arr_size : Z) : option string :=
  out ← for_range 0 arr_size (print_array_body arr) "[ ";
  Some (out +:+ "]").

(** [enum MsgType { SEND, RECEIVE }]: an [int] that is [0] or [1] when
    the callers behave. *)
Definition SEND : Z := 0.
Definition RECEIVE : Z := 1.

Definition print_msg (self_rank other_rank msg_size : Z) (msg : list Z)
    (msgType : Z) : option string :=
  if msgType =? SEND then
    a ← print_array msg msg_size;
    Some ("Process " +:+ pretty self_rank +:+ " sent " +:+ a
          +:+ " to process " +:+ pretty other_rank +:+ newline)
  else if msgType =? RECEIVE then
    a ← print_array msg msg_size;
    Some ("Process " +:+ pretty self_rank +:+ " received " +:+ a
          +:+ " from process " +:+ pretty other_rank +:+ newline)
  else Some ("Illegal state!" +:+ newline).

(** Line 102: what a process displays once its send is through. *)
Definition a2a_send_shows (rank num_proc : Z) (st : proc) : option string :=
  print_msg rank (send_to rank num_proc) (num_proc - loop_i st) (buf st) SEND.

(** Line 122: what a process displays at the end of the round in which it
    was handed [pk]. *)
Definition a2a_recv_shows (clock : nat → Z) (rank num_proc : Z) (st : proc)
    (pk : packet) : option string :=
  st' ← a2a_recv clock rank num_proc st pk;
  print_msg rank (recv_from rank num_proc) (num_proc - loop_i st) (buf st')
    RECEIVE.

(** The text [print_array] writes for the cells [l]. *)
Definition shown (l : list Z) : string :=
  "[ " +:+ foldr (λ v s, pretty v +:+ ", " +:+ s) "]" l.

(** The characters [%d] can write. *)
Definition numeric (c : Ascii.ascii) : bool :=
  match c with
  | "0" | "1" | "2" | "3" | "4" | "5" | "6" | "7" | "8" | "9" | "-" => true
  | _ => false
  end%char.

Fixpoint all_numeric (s : string) : Prop :=
  match s with
  | EmptyString => True
  | String c s' => numeric c = true ∧ all_numeric s'
  end.

(** ** [main]: the test data *)

(** [int arr[n]]: [n] cells holding whatever the stack held. *)
Definition fresh_array (stack : nat → Z) (n : Z) : list Z :=
  stack <$> seq 0 (Z.to_nat n).

(** Body of the loop of lines 145-147; [rand] is the stream of values the
    successive calls of [rand()] return. *)
Definition populate_body (rand : nat → Z) (limit : Z) (i : Z)
    (s : list Z * nat) : option (list Z * nat) :=
  arr ← wr s.1 i (Z.rem (rand s.2) limit + 1);
  Some (arr, S s.2).

(** Lines 144-147: the array of random integers of one process. The
    product [num_proc * num_proc] is an [int]: it fits up to
    [num_proc = 46340]; beyond, the multiplication overflows, which C
    leaves undefined and which is an error ([None]) here. *)
Definition main_populate (rand : nat → Z) (stack : nat → Z) (num_proc : Z)
    : option (list Z) :=
  if num_proc * num_proc <=? INT_MAX then
    let limit := num_proc * num_proc in
    fst <$> for_range 0 num_proc (populate_body rand limit)
              (fresh_array stack num_proc, 0%nat)
  else None.

(** A stream of draws for the examples: a linear congruential generator
    with values in [0 .. INT_MAX]. *)
Definition demo_rand (seed : Z) (n : nat) : Z :=
  (1103515245 * (seed + Z.of_nat n) + 12345) `mod` 2147483648.


(** ** The ring seen from one process *)

(** The packets rank [p] is handed in its first [n] rounds of the ring,
    and the packets it sends in them, each with its destination. *)
Definition ring_inbox (M : Z → list Z) (N p n : Z) : list packet :=
  (λ j, Packet (recv_from p N) (in_transit M N (recv_from p N) j)) <$> seqZ 1 n.

Definition ring_outbox (M : Z → list Z) (N p n : Z) : list (Z * packet) :=
  (λ j, (succ_rank N p, Packet p (in_transit M N p j))) <$> seqZ 1 n.

(** The rounds of rank [p] up to its state in [w] are a run of
    [a2a_rounds] from its state in [w0] on the packets of the ring. *)
Definition follows_function (clock : Z → nat → Z) (M : Z → list Z) (N : Z)
    (w0 w : net) : Prop :=
  ∀ p, 0 ≤ p < N →
    ∃ s, a2a_rounds (clock p) p N (Z.to_nat (loop_i (procs w p) - 1))
           (procs w0 p) (ring_inbox M N p (loop_i (procs w p) - 1))
         = Some (s, ring_outbox M N p (loop_i (procs w p) - 1)) ∧
      match ph (procs w p) with
      | AtSend => procs w p = s
      | AtRecv => ∃ d pk, a2a_send (clock p) p N s = Some (d, pk, procs w p)
      end.

(** Number of cells in the packets of [out]. *)
Definition cells_sent (out : list (Z * packet)) : Z :=
  foldr (λ x acc, Z.of_nat (length (payload x.2)) + acc) 0 out.

(** ** Counting the messages of a run *)

(** A run of the ring with its numbers of completed sends and receives. *)
Inductive net_run (clock : Z → nat → Z) (N : Z) : nat → nat → net → net → Prop :=
| run_refl w : net_run clock N 0 0 w w
| run_send s r w1 w2 p dst pk st' :
    net_run clock N s r w1 w2 →
    0 ≤ p < N →
    a2a_send (clock p) p N (procs w2 p) = Some (dst, pk, st') →
    net_run clock N (S s) r w1
      (Net (<[p := st']> (procs w2))
           (chan_set p dst (chans w2 p dst ++ [pk]) (chans w2)))
| run_recv s r w1 w2 p pk q st' :
    net_run clock N s r w1 w2 →
    0 ≤ p < N →
    ph (procs w2 p) = AtRecv →
    pick (recv_from p N) (chans w2 (recv_from p N) p) = Some (pk, q) →
    a2a_recv (clock p) p N (procs w2 p) pk = Some st' →
    net_run clock N s (S r) w1
      (Net (<[p := st']> (procs w2))
           (chan_set (recv_from p N) p q (chans w2))).

Fixpoint sends_in (s : list action) : nat :=
  match s with
  | [] => 0
  | DoSend _ :: s' => S (sends_in s')
  | DoRecv _ :: s' => sends_in s'
  end.

Fixpoint recvs_in (s : list action) : nat :=
  match s with
  | [] => 0
  | DoSend _ :: s' => recvs_in s'
  | DoRecv _ :: s' => S (recvs_in s')
  end.

(** Only the edges of the ring carry packets. *)
Definition ring_only (N : Z) (w : net) : Prop :=
  ∀ s d, ¬ (0 ≤ s < N ∧ d = succ_rank N s) → chans w s d = [].

Definition sends_left (N : Z) (st : proc) : Z := N - 1 - sent_upto st.
Definition recvs_left (N : Z) (st : proc) : Z := N - loop_i st.

Definition net_sum (g : proc → Z) (N : Z) (w : net) : Z :=
  foldr Z.add 0 ((λ p, g (procs w p)) <$> seqZ 0 N).

(** The packets of [inbox] are exactly as long as the receives of rounds
    [i], [i + 1], ... ask for. *)
Fixpoint full (N i : Z) (inbox : list packet) : Prop :=
  match inbox with
  | [] => True
  | pk :: rest => Z.of_nat (length (payload pk)) = N - i ∧ full N (i + 1) rest
  end.

(** ** Arrays *)

Lemma rd_nat (a : list Z) (k : nat) : rd a (Z.of_nat k) = a !! k.
Proof.
  unfold rd. destruct (Z.leb_spec 0 (Z.of_nat k)); [|lia].
  by rewrite Nat2Z.id.
Qed.

Lemma rd_inside (a : list Z) (i : Z) :
  0 ≤ i < Z.of_nat (length a) → ∃ v, rd a i = Some v ∧ a !! Z.to_nat i = Some v.
Proof.
  intros Hi. unfold rd. destruct (Z.leb_spec 0 i); [|lia].
  destruct (lookup_lt_is_Some_2 a (Z.to_nat i)) as [v Hv]; [lia|]. eauto.
Qed.

Lemma wr_nat (a : list Z) (k : nat) (v : Z) :
  (k < length a)%nat → wr a (Z.of_nat k) v = Some (<[k := v]> a).
Proof.
  intros Hk. unfold wr.
  destruct (Z.leb_spec 0 (Z.of_nat k)); [|lia].
  destruct (Z.ltb_spec (Z.of_nat k) (Z.of_nat (length a))); [|lia].
  simpl. by rewrite Nat2Z.id.
Qed.

Lemma wr_inside (a : list Z) (i v : Z) :
  0 ≤ i < Z.of_nat (length a) → wr a i v = Some (<[Z.to_nat i := v]> a).
Proof.
  intros Hi. rewrite <- (Z2Nat.id i) at 1 by lia. apply wr_nat. lia.
Qed.

Lemma wr_length (a a' : list Z) (i v : Z) :
  wr a i v = Some a' → length a' = length a.
Proof.
  unfold wr. case_match; [|done]. intros [= <-]. apply length_insert.
Qed.

Lemma read_block_inside (a : list Z) (n : Z) :
  0 ≤ n ≤ Z.of_nat (length a) → read_block a n = Some (take (Z.to_nat n) a).
Proof.
  intros Hn. unfold read_block.
  destruct (Z.leb_spec 0 n); [|lia].
  destruct (Z.leb_spec n (Z.of_nat (length a))); [|lia]. done.
Qed.

Lemma write_block_inside (a data : list Z) :
  (length data ≤ length a)%nat →
  write_block a data = Some (data ++ drop (length data) a).
Proof.
  intros Hn. unfold write_block.
  destruct (Z.leb_spec (Z.of_nat (length data)) (Z.of_nat (length a))); [done|lia].
Qed.

(** ** Counted loops *)

Lemma iter_from_S {St} (n : nat) (i : Z) (body : Z → St → option St) (s : St) :
  iter_from (S n) i body s = body i s ≫= iter_from n (i + 1) body.
Proof. reflexivity. Qed.

Lemma iter_from_add {St} (n m : nat) (i : Z) (body : Z → St → option St) (s : St) :
  iter_from (n + m) i body s =
  iter_from n i body s ≫= iter_from m (i + Z.of_nat n) body.
Proof.
  revert i s. induction n as [|n IH]; intros i s; simpl.
  - by rewrite Z.add_0_r.
  - destruct (body i s) as [s'|]; simpl; [|done].
    rewrite IH. do 2 f_equal. lia.
Qed.

Lemma iter_from_ext {St} (n : nat) (i : Z) (f g : Z → St → option St) (s : St) :
  (∀ j t, i ≤ j < i + Z.of_nat n → f j t = g j t) →
  iter_from n i f s = iter_from n i g s.
Proof.
  revert i s. induction n as [|n IH]; intros i s Hfg; simpl; [done|].
  rewrite Hfg by lia. destruct (g i s) as [s'|]; simpl; [|done].
  apply IH. intros j t Hj. apply Hfg. lia.
Qed.

(** ** Compaction *)

Lemma compact_body_nat (k : nat) (a : list Z) (v : Z) :
  a !! S k = Some v →
  compact_body (Z.of_nat (S k)) a = Some (<[k := v]> a).
Proof.
  intros Hv. unfold compact_body. rewrite rd_nat, Hv. simpl.
  replace (Z.of_nat (S k) - 1) with (Z.of_nat k) by lia.
  apply wr_nat. apply lookup_lt_Some in Hv. lia.
Qed.

(** Shape of the array after the compaction loop has run [n] times from
    index [S k]. *)
Lemma compact_loop_shape (n k : nat) (a : list Z) :
  (S k + n ≤ length a)%nat →
  iter_from n (Z.of_nat (S k)) compact_body a =
  Some (take k a ++ take n (drop (S k) a) ++ drop (k + n) a).
Proof.
  revert k a. induction n as [|n IH]; intros k a Hlen.
  - simpl. rewrite Nat.add_0_r, take_drop. done.
  - rewrite iter_from_S.
    destruct (lookup_lt_is_Some_2 a (S k)) as [v Hv]; [lia|].
    rewrite (compact_body_nat k a v Hv). cbn [mbind option_bind].
    replace (Z.of_nat (S k) + 1) with (Z.of_nat (S (S k))) by lia.
    rewrite IH by (rewrite length_insert; lia).
    f_equal.
    rewrite (take_S_r (<[k:=v]> a) k v) by (apply list_lookup_insert_eq; lia).
    rewrite take_insert_ge by lia.
    rewrite !drop_insert_lt by lia.
    rewrite <- app_assoc. f_equal. simpl.
    rewrite (drop_S a v (S k) Hv). simpl.
    do 3 f_equal. lia.
Qed.

Lemma compact_array_shape (idx size : Z) (arr : list Z) :
  0 ≤ idx < size → size ≤ Z.of_nat (length arr) →
  compact_array idx arr size =
  Some (take (Z.to_nat idx) arr
        ++ take (Z.to_nat (size - idx - 1)) (drop (S (Z.to_nat idx)) arr)
        ++ drop (Z.to_nat (size - 1)) arr).
Proof.
  intros Hidx Hsize. unfold compact_array, for_range.
  replace (idx + 1) with (Z.of_nat (S (Z.to_nat idx))) by lia.
  rewrite compact_loop_shape by lia.
  do 3 f_equal; [f_equal; lia|f_equal; lia].
Qed.

Lemma compact_array_length (idx size : Z) (arr arr' : list Z) :
  0 ≤ idx < size → size ≤ Z.of_nat (length arr) →
  compact_array idx arr size = Some arr' → length arr' = length arr.
Proof.
  intros Hidx Hsize. rewrite compact_array_shape by done. intros [= <-].
  rewrite !length_app, !length_take, !length_drop. lia.
Qed.

(** The valid part after compaction is the valid part before it with the
    element at [idx] removed. *)
Lemma compact_array_delete (idx size : Z) (arr arr' : list Z) :
  0 ≤ idx < size → size ≤ Z.of_nat (length arr) →
  compact_array idx arr size = Some arr' →
  take (Z.to_nat (size - 1)) arr' =
  delete (Z.to_nat idx) (take (Z.to_nat size) arr).
Proof.
  intros Hidx Hsize. rewrite compact_array_shape by done. intros [= <-].
  rewrite delete_take_drop, take_take.
  replace (Z.to_nat idx `min` Z.to_nat size)%nat with (Z.to_nat idx) by lia.
  rewrite app_assoc, take_app_length'.
  - f_equal. rewrite take_drop_commute. do 2 f_equal. lia.
  - rewrite length_app, !length_take, !length_drop. lia.
Qed.

(** ** The first message *)

Lemma copy_loop_shape (n k off : nat) (src b : list Z) :
  (off ≤ k)%nat → (k + n ≤ length src)%nat → (k - off + n ≤ length b)%nat →
  iter_from n (Z.of_nat k)
    (λ i b, v ← rd src i; wr b (i - Z.of_nat off) v) b =
  Some (take (k - off) b ++ take n (drop k src) ++ drop (k - off + n) b).
Proof.
  revert k b. induction n as [|n IH]; intros k b Hoff Hsrc Hb.
  - simpl. rewrite Nat.add_0_r, take_drop. done.
  - rewrite iter_from_S. rewrite rd_nat.
    destruct (lookup_lt_is_Some_2 src k) as [v Hv]; [lia|].
    rewrite Hv. cbn [mbind option_bind].
    replace (Z.of_nat k - Z.of_nat off) with (Z.of_nat (k - off)) by lia.
    rewrite wr_nat by lia. cbn [mbind option_bind].
    replace (Z.of_nat k + 1) with (Z.of_nat (S k)) by lia.
    rewrite IH by (rewrite ?length_insert; lia).
    f_equal.
    replace (S k - off)%nat with (S (k - off)) by lia.
    rewrite (take_S_r (<[(k - off)%nat:=v]> b) (k - off) v)
      by (apply list_lookup_insert_eq; lia).
    rewrite take_insert_ge by lia.
    rewrite !drop_insert_lt by lia.
    rewrite <- app_assoc. f_equal. simpl.
    rewrite (drop_S src v k Hv). simpl.
    do 3 f_equal. lia.
Qed.

Lemma fresh_buf_length (stack : nat → Z) (N : Z) :
  length (fresh_buf stack N) = Z.to_nat (N - 1).
Proof. unfold fresh_buf. by rewrite length_fmap, length_seq. Qed.

Lemma first_msg_body_self (msg_arr b : list Z) (rank : Z) :
  first_msg_body msg_arr rank rank b = Some b.
Proof.
  unfold first_msg_body. rewrite Z.ltb_irrefl, Z.eqb_refl. done.
Qed.

(** The loop of lines 81-90 leaves in [buf] the vector [msg_arr] without
    its entry at [rank], whatever [buf] held before. *)
Lemma first_msg_shape (b0 msg_arr : list Z) (rank N : Z) :
  0 ≤ rank < N → Z.of_nat (length msg_arr) = N →
  Z.of_nat (length b0) = N - 1 →
  for_range 0 N (first_msg_body msg_arr rank) b0 =
  Some (delete (Z.to_nat rank) msg_arr).
Proof.
  intros Hr Hmsg Hb0. unfold for_range.
  set (r := Z.to_nat rank). set (m := Z.to_nat (N - 1 - rank)).
  replace (Z.to_nat (N - 0)) with (r + S m)%nat by lia.
  rewrite iter_from_add.
  rewrite (iter_from_ext r 0 _ (λ i b, v ← rd msg_arr i; wr b (i - Z.of_nat 0) v)).
  2:{ intros j t Hj. unfold first_msg_body.
      destruct (Z.ltb_spec j rank); [|lia]. by rewrite Z.sub_0_r. }
  rewrite (copy_loop_shape r 0 0) by lia.
  cbn [mbind option_bind]. rewrite iter_from_S.
  replace (0 + Z.of_nat r) with rank by lia.
  rewrite first_msg_body_self. cbn [mbind option_bind].
  rewrite (iter_from_ext m _ _ (λ i b, v ← rd msg_arr i; wr b (i - Z.of_nat 1) v)).
  2:{ intros j t Hj. unfold first_msg_body.
      destruct (Z.ltb_spec j rank); [lia|].
      destruct (Z.eqb_spec j rank); [lia|]. done. }
  replace (rank + 1) with (Z.of_nat (S r)) by lia.
  simpl take at 1. rewrite drop_0. simpl.
  assert (Hl1 : length (take r msg_arr ++ drop r b0) = (r + m)%nat).
  { rewrite length_app, length_take, length_drop. lia. }
  rewrite (copy_loop_shape m (S r) 1) by lia.
  f_equal. rewrite delete_take_drop.
  replace (S r - 1)%nat with r by lia.
  rewrite take_app_length' by (rewrite length_take; lia).
  f_equal.
  rewrite (drop_ge _ (r + m)) by lia.
  rewrite app_nil_r. apply take_ge. rewrite length_drop. lia.
Qed.

(** ** Arithmetic on the ring *)

Lemma mod_cases (N x : Z) :
  0 < N → - N ≤ x < 2 * N →
  x `mod` N = if x <? 0 then x + N else if x <? N then x else x - N.
Proof.
  intros HN Hx. symmetry.
  destruct (Z.ltb_spec x 0); [|destruct (Z.ltb_spec x N)].
  - apply (Z.mod_unique x N (-1)); lia.
  - apply (Z.mod_unique x N 0); lia.
  - apply (Z.mod_unique x N 1); lia.
Qed.

Lemma rem_cases (N x : Z) :
  0 < N → 0 ≤ x < 2 * N →
  Z.rem x N = if x <? N then x else x - N.
Proof.
  intros HN Hx. rewrite Z.rem_mod_nonneg by lia.
  rewrite mod_cases by lia. destruct (Z.ltb_spec x 0); [lia|done].
Qed.

(** Unfolds the rank arithmetic into linear case distinctions. *)
Ltac ring_cases :=
  unfold data_index, origin, send_to, recv_from, succ_rank, source_of, hops in *;
  repeat match goal with
  | H : context [?x <? ?y] |- _ => destruct (Z.ltb_spec x y); cbv iota in *
  | |- context [?x <? ?y] => destruct (Z.ltb_spec x y); cbv iota in *
  | H : context [?x <=? ?y] |- _ => destruct (Z.leb_spec x y); cbv iota in *
  | |- context [?x <=? ?y] => destruct (Z.leb_spec x y); cbv iota in *
  | H : context [Z.rem ?x ?n] |- _ => rewrite (rem_cases n x) in H by lia
  | |- context [Z.rem ?x ?n] => rewrite (rem_cases n x) by lia
  | H : context [?x `mod` ?n] |- _ => rewrite (mod_cases n x) in H by lia
  | |- context [?x `mod` ?n] => rewrite (mod_cases n x) by lia
  end.

Lemma send_to_succ (N p : Z) : 0 ≤ p < N → send_to p N = succ_rank N p.
Proof. intros. ring_cases; lia. Qed.

Lemma recv_from_succ (N p : Z) :
  0 ≤ p < N → succ_rank N (recv_from p N) = p ∧ 0 ≤ recv_from p N < N.
Proof. intros. ring_cases; lia. Qed.

Lemma succ_rank_range (N p : Z) : 0 ≤ p < N → 0 ≤ succ_rank N p < N.
Proof. intros. ring_cases; lia. Qed.

Lemma recv_from_of_succ (N p : Z) :
  0 ≤ p < N → recv_from (succ_rank N p) N = p.
Proof. intros. ring_cases; lia. Qed.

Lemma origin_range (N p i : Z) :
  0 ≤ p < N → 1 ≤ i < N → 0 ≤ origin p N i < N ∧ origin p N i ≠ p.
Proof. intros. ring_cases; lia. Qed.

Lemma origin_mod (N p i : Z) :
  0 ≤ p < N → 1 ≤ i < N → origin p N i = (p - i) `mod` N.
Proof. intros. ring_cases; lia. Qed.

Lemma origin_source (N p i : Z) :
  0 ≤ p < N → 1 ≤ i < N →
  origin p N i = source_of N (recv_from p N) i ∧
  origin p N i = source_of N p (i + 1).
Proof. intros. ring_cases; lia. Qed.

Lemma data_index_range (N p i : Z) :
  0 ≤ p < N → 1 ≤ i < N → 0 ≤ data_index p N i < N - i.
Proof. intros. ring_cases; lia. Qed.

(** No signed overflow: the operands of [%] stay below [2 * num_proc]. *)
Lemma index_arith_small (N p i : Z) :
  0 ≤ p < N → 1 ≤ i < N →
  0 < p + 1 < 2 * N ∧ 0 ≤ p + N - 1 < 2 * N ∧ 0 < N + p - i < 2 * N.
Proof. lia. Qed.

(** ** Destinations of a circulating buffer *)

Lemma dests_length (N o h : Z) :
  0 ≤ o < N → 0 ≤ h < N →
  Z.of_nat (length (dests N o h)) = N - 1 - hops N o h.
Proof.
  intros Ho Hh. unfold dests.
  destruct (Z.leb_spec o h); rewrite ?length_app, !length_seqZ; ring_cases; lia.
Qed.

Lemma elem_of_dests (N o h d : Z) :
  0 ≤ o < N → 0 ≤ h < N →
  d ∈ dests N o h ↔ 0 ≤ d < N ∧ hops N o h < hops N o d.
Proof.
  intros Ho Hh. unfold dests.
  destruct (Z.leb_spec o h); rewrite ?elem_of_app, !elem_of_seqZ;
    (split; [intros Hd; split; [lia|]|intros [Hd Hlt]]); ring_cases; lia.
Qed.

Lemma seqZ_sorted (m n : Z) : StronglySorted Z.lt (seqZ m n).
Proof.
  destruct (Z.le_gt_cases n 0) as [Hn|Hn].
  { rewrite seqZ_nil by done. constructor. }
  rewrite <- (Z2Nat.id n) by lia. generalize (Z.to_nat n) as k. clear.
  intros k. revert m. induction k as [|k IH]; intros m.
  - rewrite seqZ_nil by done. constructor.
  - rewrite seqZ_cons by lia. constructor.
    + replace (Z.pred (Z.of_nat (S k))) with (Z.of_nat k) by lia. apply IH.
    + apply Forall_seqZ. lia.
Qed.

Lemma dests_sorted (N o h : Z) : StronglySorted Z.lt (dests N o h).
Proof.
  unfold dests. destruct (Z.leb_spec o h); [|apply seqZ_sorted].
  apply StronglySorted_app; split_and!; try apply seqZ_sorted.
  intros x1 x2. rewrite !elem_of_seqZ. lia.
Qed.

(** The buffer [p] receives in round [i] holds the value for [p] at
    [data_index]; taking it out leaves the buffer [p] is to forward. *)
Lemma dests_extract (N p i : Z) :
  0 ≤ p < N → 1 ≤ i < N →
  dests N (origin p N i) (recv_from p N) !! Z.to_nat (data_index p N i) = Some p ∧
  delete (Z.to_nat (data_index p N i)) (dests N (origin p N i) (recv_from p N))
    = dests N (origin p N i) p.
Proof.
  intros Hp Hi.
  pose proof (origin_range N p i Hp Hi) as [Ho Hne].
  pose proof (recv_from_succ N p Hp) as [_ Hh].
  set (o := origin p N i) in *.
  assert (Hrf : recv_from p N = if p =? 0 then N - 1 else p - 1).
  { destruct (Z.eqb_spec p 0); ring_cases; lia. }
  assert (Hidx : data_index p N i = if o <=? p then o else 0) by done.
  rewrite Hidx, Hrf. clear Hidx Hrf Hh. clearbody o.
  unfold dests.
  destruct (Z.eqb_spec p 0) as [->|Hp0].
  - destruct (Z.leb_spec o 0); [lia|]. destruct (Z.leb_spec o (N - 1)); [|lia].
    replace (N - (N - 1) - 1) with 0 by lia.
    rewrite (seqZ_nil _ 0), app_nil_r by lia.
    rewrite (seqZ_cons 0 o) by lia. simpl. split; [done|].
    f_equal; lia.
  - destruct (Z.leb_spec o p), (Z.leb_spec o (p - 1)); try lia.
    + replace (Z.to_nat o) with (length (seqZ 0 o)) by (rewrite length_seqZ; lia).
      rewrite (seqZ_cons (p - 1 + 1)) by lia.
      split.
      * rewrite lookup_app_r by lia. rewrite Nat.sub_diag. simpl. f_equal. lia.
      * rewrite delete_middle. do 2 f_equal; lia.
    + rewrite (seqZ_cons (p - 1 + 1)) by lia. simpl. split; [f_equal; lia|].
      f_equal; lia.
Qed.

Lemma dests_self (N p : Z) :
  dests N p p = seqZ 0 p ++ seqZ (p + 1) (N - p - 1).
Proof. unfold dests. by rewrite Z.leb_refl. Qed.

Lemma dests_last (N o h : Z) :
  0 ≤ o < N → 0 ≤ h < N → hops N o h = N - 1 → dests N o h = [].
Proof.
  intros Ho Hh Hhops. apply nil_length_inv.
  pose proof (dests_length N o h Ho Hh). lia.
Qed.

(** ** One process *)

Lemma a2a_prologue_shape clock stack (msg_arr res0 : list Z) (rank N : Z) :
  0 ≤ rank < N → Z.of_nat (length msg_arr) = N → Z.of_nat (length res0) = N →
  ∃ v, msg_arr !! Z.to_nat rank = Some v ∧
    a2a_prologue clock stack msg_arr res0 rank N =
    Some (Proc 1 AtSend (delete (Z.to_nat rank) msg_arr)
               (<[Z.to_nat rank := v]> res0) [rank] (clock 0%nat) 0 1).
Proof.
  intros Hr Hmsg Hres. unfold a2a_prologue.
  rewrite first_msg_shape by (rewrite ?fresh_buf_length; lia).
  destruct (rd_inside msg_arr rank) as (v & Hrd & Hv); [lia|].
  exists v. split; [done|].
  cbn [mbind option_bind]. rewrite Hrd. cbn [mbind option_bind].
  rewrite wr_inside by lia. done.
Qed.

Lemma a2a_send_shape clock (rank N : Z) (st : proc) :
  ph st = AtSend → 1 ≤ loop_i st < N →
  Z.of_nat (length (buf st)) = N - 1 →
  a2a_send clock rank N st =
  Some (send_to rank N,
        Packet rank (take (Z.to_nat (N - loop_i st)) (buf st)),
        Proc (loop_i st) AtRecv (buf st) (res_arr st) (res_log st)
             (clock (ticks st) - time_taken st) (clock (S (ticks st)))
             (S (S (ticks st)))).
Proof.
  intros Hph Hi Hlen. unfold a2a_send. rewrite Hph.
  destruct (Z.ltb_spec (loop_i st) N); [|lia].
  rewrite read_block_inside by lia. done.
Qed.

Lemma a2a_send_inv clock (rank N : Z) (st st' : proc) dst pk :
  a2a_send clock rank N st = Some (dst, pk, st') →
  ph st = AtSend ∧ loop_i st < N ∧ ph st' = AtRecv ∧ loop_i st' = loop_i st ∧
  buf st' = buf st ∧ res_arr st' = res_arr st ∧ res_log st' = res_log st ∧
  dst = send_to rank N ∧ tag pk = rank.
Proof.
  unfold a2a_send. destruct (ph st); [|done].
  destruct (Z.ltb_spec (loop_i st) N); [|done].
  destruct (read_block _ _); [|done]. simpl. intros [= <- <- <-]. done.
Qed.

(** A process blocked in [MPI_Recv] accepts any packet that fits the
    count it asked for. *)
Lemma a2a_recv_shape clock (rank N : Z) (st : proc) (pk : packet) :
  ph st = AtRecv → 0 ≤ rank < N → 1 ≤ loop_i st < N →
  Z.of_nat (length (buf st)) = N - 1 → Z.of_nat (length (res_arr st)) = N →
  Z.of_nat (length (payload pk)) ≤ N - loop_i st →
  let b := payload pk ++ drop (length (payload pk)) (buf st) in
  let idx := data_index rank N (loop_i st) in
  let o := origin rank N (loop_i st) in
  ∃ v b', b !! Z.to_nat idx = Some v ∧
    compact_array idx b (N - loop_i st) = Some b' ∧
    a2a_recv clock rank N st pk =
    Some (Proc (loop_i st + 1) AtSend b' (<[Z.to_nat o := v]> (res_arr st))
               (o :: res_log st)
               (time_taken st + (clock (ticks st) - disp_time st))
               (clock (ticks st) - disp_time st) (S (ticks st))).
Proof.
  intros Hph Hr Hi Hbuf Hres Hpk b idx o.
  pose proof (data_index_range N rank (loop_i st) Hr Hi) as Hidx.
  pose proof (origin_range N rank (loop_i st) Hr Hi) as [Ho _].
  assert (Hb : length b = length (buf st)).
  { unfold b. rewrite length_app, length_drop. lia. }
  destruct (rd_inside b idx) as (v & Hrd & Hv); [fold idx in Hidx; lia|].
  assert (is_Some (compact_array idx b (N - loop_i st))) as [b' Hb'].
  { rewrite compact_array_shape by (fold idx in Hidx; lia). done. }
  exists v, b'. split_and!; [done..|].
  unfold a2a_recv. rewrite Hph.
  destruct (Z.leb_spec (Z.of_nat (length (payload pk))) (N - loop_i st)); [|lia].
  rewrite write_block_inside by lia. cbn [mbind option_bind].
  fold b idx o. rewrite Hrd. cbn [mbind option_bind].
  rewrite wr_inside by (fold o in Ho; lia). cbn [mbind option_bind].
  rewrite Hb'. done.
Qed.

Lemma a2a_recv_inv clock (rank N : Z) (st st' : proc) (pk : packet) :
  a2a_recv clock rank N st pk = Some st' →
  ph st = AtRecv ∧ ph st' = AtSend ∧ loop_i st' = loop_i st + 1 ∧
  res_log st' = origin rank N (loop_i st) :: res_log st ∧
  Z.of_nat (length (payload pk)) ≤ N - loop_i st.
Proof.
  unfold a2a_recv. destruct (ph st); [done|].
  destruct (Z.leb_spec (Z.of_nat (length (payload pk))) (N - loop_i st)); [|done].
  destruct (write_block _ _); [|done]. cbn [mbind option_bind].
  destruct (rd _ _); [|done]. cbn [mbind option_bind].
  destruct (wr _ _ _); [|done]. cbn [mbind option_bind].
  destruct (compact_array _ _ _); [|done]. cbn [mbind option_bind].
  intros [= <-]. done.
Qed.

(** ** Well-formedness of a process is kept by its steps *)

Lemma proc_wf_prologue clock stack (msg_arr res0 : list Z) (rank N : Z) (st : proc) :
  0 ≤ rank < N → Z.of_nat (length msg_arr) = N → Z.of_nat (length res0) = N →
  a2a_prologue clock stack msg_arr res0 rank N = Some st →
  proc_wf N rank st ∧ loop_i st = 1 ∧ ph st = AtSend.
Proof.
  intros Hr Hmsg Hres Hst.
  destruct (a2a_prologue_shape clock stack msg_arr res0 rank N)
    as (v & Hv & Heq); [done..|].
  rewrite Heq in Hst. injection Hst as <-.
  split; [|done]. split; cbn [loop_i ph buf res_arr res_log].
  - lia.
  - done.
  - rewrite length_delete by (by rewrite Hv). lia.
  - rewrite length_insert. lia.
  - rewrite (seqZ_cons 0 1), seqZ_nil by lia. cbn [fmap list_fmap].
    rewrite reverse_singleton. f_equal. ring_cases; lia.
Qed.

Lemma proc_wf_send clock (rank N : Z) (st st' : proc) dst pk :
  proc_wf N rank st →
  a2a_send clock rank N st = Some (dst, pk, st') → proc_wf N rank st'.
Proof.
  intros [H1 H2 H3 H4 H5] Hsend.
  destruct (a2a_send_inv _ _ _ _ _ _ _ Hsend)
    as (Hph & Hi & Hph' & Hi' & Hb & Hr & Hl & _).
  split; rewrite ?Hi', ?Hb, ?Hr, ?Hl; done.
Qed.

Lemma proc_wf_recv clock (rank N : Z) (st st' : proc) (pk : packet) :
  0 ≤ rank < N → proc_wf N rank st →
  a2a_recv clock rank N st pk = Some st' → proc_wf N rank st'.
Proof.
  intros Hr [H1 H2 H3 H4 H5] Hrecv.
  destruct (a2a_recv_inv _ _ _ _ _ _ Hrecv) as (Hph & Hph' & Hi' & Hl & Hfit).
  specialize (H2 Hph). assert (Hi : 1 ≤ loop_i st < N) by lia.
  destruct (a2a_recv_shape clock rank N st pk) as (v & b' & Hv & Hb' & Heq);
    [done..|].
  rewrite Heq in Hrecv. injection Hrecv as <-.
  pose proof (data_index_range N rank (loop_i st) Hr Hi) as Hidx.
  pose proof (origin_range N rank (loop_i st) Hr Hi) as [Ho Hop].
  set (b := _ ++ _) in Hb'.
  assert (Hblen : length b = length (buf st)).
  { unfold b. rewrite length_app, length_drop. lia. }
  assert (Hsize : N - loop_i st ≤ Z.of_nat (length b)) by lia.
  pose proof (compact_array_length _ _ _ _ Hidx Hsize Hb') as Hlen'.
  split; cbn [loop_i ph buf res_arr res_log].
  - lia.
  - done.
  - lia.
  - rewrite length_insert. lia.
  - rewrite H5.
    replace (loop_i st + 1) with (Z.of_nat (S (Z.to_nat (loop_i st)))) by lia.
    rewrite seqZ_S, fmap_snoc, reverse_snoc.
    rewrite Z2Nat.id by lia. f_equal. rewrite origin_mod by done. f_equal; lia.
Qed.

(** ** Values in transit *)

Lemma origin_fresh (N p i j : Z) :
  0 ≤ p < N → 1 ≤ i < N → 0 ≤ j < i →
  Z.to_nat (origin p N i) ≠ Z.to_nat ((p - j) `mod` N).
Proof. intros. ring_cases; lia. Qed.

Lemma fmap_cell_seqZ (l : list Z) (a n : Z) :
  0 ≤ a → 0 ≤ n → a + n ≤ Z.of_nat (length l) →
  (λ d, default 0 (l !! Z.to_nat d)) <$> seqZ a n =
  take (Z.to_nat n) (drop (Z.to_nat a) l).
Proof.
  intros Ha Hn Hlen. apply list_eq. intros k.
  rewrite list_lookup_fmap.
  destruct (decide (Z.of_nat k < n)) as [Hk|Hk].
  - rewrite lookup_seqZ_lt by done. rewrite lookup_take_lt by lia.
    rewrite lookup_drop. simpl.
    replace (Z.to_nat (a + Z.of_nat k)) with (Z.to_nat a + k)%nat by lia.
    destruct (lookup_lt_is_Some_2 l (Z.to_nat a + k)) as [v ->]; [lia|done].
  - rewrite lookup_seqZ_ge by lia. rewrite lookup_take_ge by lia. done.
Qed.

Section transit.
Variable M : Z → list Z.
Variable N : Z.
Hypothesis M_len : ∀ p, 0 ≤ p < N → Z.of_nat (length (M p)) = N.

Lemma in_transit_first (p : Z) :
  0 ≤ p < N → in_transit M N p 1 = delete (Z.to_nat p) (M p).
Proof.
  intros Hp. unfold in_transit.
  replace (source_of N p 1) with p by (ring_cases; lia).
  rewrite dests_self, fmap_app. unfold cell.
  specialize (M_len p Hp).
  rewrite !fmap_cell_seqZ by lia.
  rewrite delete_take_drop, drop_0. f_equal.
  replace (Z.to_nat (p + 1)) with (S (Z.to_nat p)) by lia.
  apply take_ge. rewrite length_drop. lia.
Qed.

Lemma in_transit_length (p i : Z) :
  0 ≤ p < N → 1 ≤ i ≤ N →
  Z.of_nat (length (in_transit M N p i)) = N - i.
Proof.
  intros Hp Hi. unfold in_transit. rewrite length_fmap.
  rewrite dests_length by (ring_cases; lia). ring_cases; lia.
Qed.

Lemma in_transit_extract (p i : Z) :
  0 ≤ p < N → 1 ≤ i < N →
  in_transit M N (recv_from p N) i !! Z.to_nat (data_index p N i)
    = Some (cell M (origin p N i) p) ∧
  delete (Z.to_nat (data_index p N i)) (in_transit M N (recv_from p N) i)
    = in_transit M N p (i + 1).
Proof.
  intros Hp Hi. unfold in_transit.
  destruct (origin_source N p i Hp Hi) as [<- <-].
  destruct (dests_extract N p i Hp Hi) as [Hlk Hdel].
  rewrite list_lookup_fmap, Hlk, <- list_fmap_delete, Hdel. done.
Qed.

(** The prologue establishes the invariant of a process. *)
Lemma proc_inv_prologue clock stack (res0 : list Z) (p : Z) (st : proc) :
  0 ≤ p < N → Z.of_nat (length res0) = N →
  a2a_prologue clock stack (M p) res0 p N = Some st →
  proc_inv M N p st ∧ loop_i st = 1 ∧ ph st = AtSend.
Proof.
  intros Hp Hres Hst.
  destruct (proc_wf_prologue clock stack (M p) res0 p N st) as (Hwf & Hi & Hph);
    [done|by apply M_len|done..|].
  destruct (a2a_prologue_shape clock stack (M p) res0 p N) as (v & Hv & Heq);
    [done|by apply M_len|done|].
  rewrite Heq in Hst. injection Hst as <-.
  pose proof (M_len p Hp) as Hlen.
  split; [|done]. split; [done|..]; cbn [loop_i ph buf res_arr res_log].
  - rewrite in_transit_first by done. apply take_ge.
    rewrite length_delete by (by rewrite Hv). lia.
  - intros j Hj. replace j with 0 by lia.
    replace ((p - 0) `mod` N) with p by (ring_cases; lia).
    rewrite list_lookup_insert_eq by lia. unfold cell. by rewrite Hv.
Qed.

Lemma proc_inv_send clock (p : Z) (st st' : proc) dst pk :
  0 ≤ p < N → proc_inv M N p st →
  a2a_send clock p N st = Some (dst, pk, st') →
  proc_inv M N p st' ∧ dst = succ_rank N p ∧
  pk = Packet p (in_transit M N p (loop_i st)).
Proof.
  intros Hp [Hwf Hbuf Hres] Hsend.
  pose proof (proc_wf_send _ _ _ _ _ _ _ Hwf Hsend) as Hwf'.
  destruct (a2a_send_inv _ _ _ _ _ _ _ Hsend)
    as (Hph & Hi & Hph' & Hi' & Hb & Hr & Hl & -> & _).
  destruct Hwf as [H1 H2 H3 H4 H5].
  rewrite a2a_send_shape in Hsend by (done || lia).
  injection Hsend as <- <-.
  split; [|split; [by apply send_to_succ|by rewrite Hbuf]].
  split; cbn [loop_i ph buf res_arr res_log]; done.
Qed.

Lemma proc_inv_recv clock (p : Z) (st : proc) (t : Z) :
  0 ≤ p < N → proc_inv M N p st → ph st = AtRecv →
  ∃ st', a2a_recv clock p N st
           (Packet t (in_transit M N (recv_from p N) (loop_i st))) = Some st' ∧
    proc_inv M N p st' ∧ loop_i st' = loop_i st + 1 ∧ ph st' = AtSend.
Proof.
  intros Hp [Hwf H5 H6] Hph.
  pose proof Hwf as [H1 H2 H3 H4 H7]. specialize (H2 Hph).
  assert (Hi : 1 ≤ loop_i st < N) by lia.
  pose proof (recv_from_succ N p Hp) as [_ Hh].
  pose proof (in_transit_length (recv_from p N) (loop_i st) Hh ltac:(lia)) as Hlen.
  destruct (in_transit_extract p (loop_i st) Hp Hi) as [Hlk Hdel].
  pose proof (data_index_range N p (loop_i st) Hp Hi) as Hidx.
  pose proof (origin_range N p (loop_i st) Hp Hi) as [Ho Hop].
  destruct (a2a_recv_shape clock p N st
              (Packet t (in_transit M N (recv_from p N) (loop_i st))))
    as (v & b' & Hv & Hb' & Heq); [done|done|done|done|done|simpl; lia|].
  pose proof (proc_wf_recv _ _ _ _ _ _ Hp Hwf Heq) as Hwf'.
  simpl in Hv, Hb'.
  rewrite lookup_app_l in Hv by lia. rewrite Hlk in Hv. injection Hv as <-.
  eexists. split; [exact Heq|]. split; [|done].
  set (b := _ ++ _) in Hb'.
  assert (Hblen : length b = length (buf st)).
  { unfold b. rewrite length_app, length_drop. lia. }
  assert (Hsize : N - loop_i st ≤ Z.of_nat (length b)) by lia.
  pose proof (compact_array_delete _ _ _ _ Hidx Hsize Hb') as Hdel'.
  split; [done|..]; cbn [loop_i ph buf res_arr res_log].
  - replace (N - (loop_i st + 1)) with (N - loop_i st - 1) by lia.
    rewrite Hdel'. unfold b. rewrite take_app_length' by lia. done.
  - intros j Hj. destruct (decide (j = loop_i st)) as [->|Hne].
    + rewrite <- origin_mod by done. apply list_lookup_insert_eq. lia.
    + rewrite list_lookup_insert_ne; [apply H6; lia|].
      apply origin_fresh; lia.
Qed.
End transit.

(** ** The ring *)

Lemma chan_set_eq src dst q ch : chan_set src dst q ch src dst = q.
Proof. unfold chan_set. by rewrite !Z.eqb_refl. Qed.

Lemma chan_set_ne src dst q ch s d :
  s ≠ src ∨ d ≠ dst → chan_set src dst q ch s d = ch s d.
Proof.
  intros Hne. unfold chan_set.
  destruct (Z.eqb_spec s src), (Z.eqb_spec d dst); simpl; try done. lia.
Qed.

Lemma pick_head (t : Z) (pk : packet) (q : list packet) :
  tag pk = t → pick t (pk :: q) = Some (pk, q).
Proof. intros <-. simpl. by rewrite Z.eqb_refl. Qed.

Lemma succ_rank_inj (N x y : Z) :
  0 ≤ x < N → 0 ≤ y < N → succ_rank N x = succ_rank N y → x = y.
Proof.
  intros Hx Hy Heq.
  rewrite <- (recv_from_of_succ N x Hx), <- (recv_from_of_succ N y Hy).
  by rewrite Heq.
Qed.

Lemma succ_rank_ne (N p : Z) : 2 ≤ N → 0 ≤ p < N → succ_rank N p ≠ p.
Proof. intros. ring_cases; lia. Qed.

Lemma net_steps_trans clock N w1 w2 w3 :
  net_steps clock N w1 w2 → net_steps clock N w2 w3 → net_steps clock N w1 w3.
Proof.
  intros H12 H23. induction H23 as [|w2 w3 w4 _ IH Hstep]; [done|].
  eapply steps_snoc; [apply IH, H12|exact Hstep].
Qed.

Lemma net_steps_one clock N w1 w2 :
  net_step clock N w1 w2 → net_steps clock N w1 w2.
Proof. intros. eapply steps_snoc; [apply steps_refl|done]. Qed.

Section ring.
Variable clock : Z → nat → Z.
Variable stack : Z → nat → Z.
Variables M R0 : Z → list Z.
Variable N : Z.
Hypothesis M_len : ∀ p, 0 ≤ p < N → Z.of_nat (length (M p)) = N.
Hypothesis R0_len : ∀ p, 0 ≤ p < N → Z.of_nat (length (R0 p)) = N.

Lemma net_inv_init w : net_init clock stack M R0 N w → net_inv M N w.
Proof.
  intros [Hprocs Hchans].
  assert (Hp : ∀ p, 0 ≤ p < N →
    proc_inv M N p (procs w p) ∧ loop_i (procs w p) = 1 ∧ ph (procs w p) = AtSend).
  { intros p Hp.
    apply (proc_inv_prologue M N M_len (clock p) (stack p) (R0 p));
      [done|by apply R0_len|by apply Hprocs]. }
  split.
  - intros p Hr. apply Hp, Hr.
  - intros p Hr. destruct (Hp p Hr) as (_ & Hi & Hph).
    destruct (Hp _ (succ_rank_range N p Hr)) as (_ & Hi' & _).
    unfold sent_upto. rewrite Hph, Hi, Hi'. lia.
  - intros p Hr. destruct (Hp p Hr) as (_ & Hi & Hph).
    destruct (Hp _ (succ_rank_range N p Hr)) as (_ & Hi' & _).
    unfold sent_upto. rewrite Hph, Hi, Hi', Hchans.
    by rewrite seqZ_nil by lia.
Qed.

(** What is queued from a rank to its successor are the buffers of the
    rounds that rank has sent and its successor not yet received. *)
Lemma net_inv_send w p dst pk st' :
  net_inv M N w → 0 ≤ p < N →
  a2a_send (clock p) p N (procs w p) = Some (dst, pk, st') →
  net_inv M N
    (Net (<[p := st']> (procs w))
         (chan_set p dst (chans w p dst ++ [pk]) (chans w))).
Proof.
  intros [Hproc Hlag Hchan] Hp Hsend.
  destruct (proc_inv_send M N _ _ _ _ _ _ Hp (Hproc p Hp) Hsend)
    as (Hinv' & -> & ->).
  destruct (a2a_send_inv _ _ _ _ _ _ _ Hsend)
    as (Hph & Hi & Hph' & Hi' & _).
  assert (Hloop : ∀ x, loop_i ((<[p := st']> (procs w)) x) = loop_i (procs w x)).
  { intros x. destruct (decide (x = p)) as [->|Hne].
    - by rewrite fn_lookup_insert.
    - by rewrite fn_lookup_insert_ne. }
  assert (Hsent : sent_upto st' = sent_upto (procs w p) + 1).
  { unfold sent_upto. rewrite Hph, Hph'. lia. }
  split; cbn [procs chans].
  - intros x Hx. destruct (decide (x = p)) as [->|Hne].
    + by rewrite fn_lookup_insert.
    + rewrite fn_lookup_insert_ne by done. by apply Hproc.
  - intros x Hx. rewrite Hloop. specialize (Hlag x Hx).
    destruct (decide (x = p)) as [->|Hne].
    + rewrite fn_lookup_insert. lia.
    + by rewrite fn_lookup_insert_ne.
  - intros x Hx. rewrite Hloop.
    destruct (decide (x = p)) as [->|Hne].
    + rewrite fn_lookup_insert, chan_set_eq, Hchan, Hsent by done.
      specialize (Hlag p Hp).
      set (a := loop_i (procs w (succ_rank N p))) in *.
      replace (sent_upto (procs w p) + 1 + 1 - a)
        with ((sent_upto (procs w p) + 1 - a) + 1) by lia.
      rewrite seqZ_app, fmap_app by lia. f_equal.
      rewrite (seqZ_cons _ 1), seqZ_nil by lia. cbn [fmap list_fmap].
      do 3 f_equal. unfold sent_upto. rewrite Hph. lia.
    + rewrite fn_lookup_insert_ne by done.
      rewrite chan_set_ne by (left; done). by apply Hchan.
Qed.

(** The packet a blocked process is handed is the buffer its predecessor
    sent in the same round. *)
Lemma recv_head w p pk q :
  net_inv M N w → 0 ≤ p < N → ph (procs w p) = AtRecv →
  pick (recv_from p N) (chans w (recv_from p N) p) = Some (pk, q) →
  pk = Packet (recv_from p N)
         (in_transit M N (recv_from p N) (loop_i (procs w p))) ∧
  q = (λ j, Packet (recv_from p N) (in_transit M N (recv_from p N) j)) <$>
        seqZ (loop_i (procs w p) + 1)
             (sent_upto (procs w (recv_from p N)) - loop_i (procs w p)) ∧
  loop_i (procs w p) ≤ sent_upto (procs w (recv_from p N)).
Proof.
  intros [Hproc Hlag Hchan] Hp Hph Hpick.
  destruct (recv_from_succ N p Hp) as [Hsucc Hh].
  set (h := recv_from p N) in *.
  pose proof (Hchan h Hh) as Hq. rewrite Hsucc in Hq. rewrite Hq in Hpick.
  set (i := loop_i (procs w p)) in *.
  assert (Hnonempty : i ≤ sent_upto (procs w h)).
  { destruct (decide (i ≤ sent_upto (procs w h))); [done|].
    rewrite seqZ_nil in Hpick by lia. done. }
  rewrite seqZ_cons in Hpick by lia. cbn [fmap list_fmap] in Hpick.
  rewrite pick_head in Hpick by done. injection Hpick as <- <-.
  split_and!; [done| |done]. do 2 f_equal; lia.
Qed.

Lemma net_inv_recv w p pk q st' :
  net_inv M N w → 0 ≤ p < N → ph (procs w p) = AtRecv →
  pick (recv_from p N) (chans w (recv_from p N) p) = Some (pk, q) →
  a2a_recv (clock p) p N (procs w p) pk = Some st' →
  net_inv M N
    (Net (<[p := st']> (procs w))
         (chan_set (recv_from p N) p q (chans w))).
Proof.
  intros Hnet Hp Hph Hpick Hrecv.
  destruct (recv_head w p pk q Hnet Hp Hph Hpick) as (-> & -> & Hnonempty).
  destruct Hnet as [Hproc Hlag Hchan].
  destruct (recv_from_succ N p Hp) as [Hsucc Hh].
  set (h := recv_from p N) in *.
  pose proof (Hproc p Hp) as Hinv.
  pose proof (pi_wf _ _ _ _ Hinv) as [H1 H2 _ _ _]. specialize (H2 Hph).
  assert (HN : 2 ≤ N) by lia.
  assert (Hhp : h ≠ p).
  { intros Heq. apply (succ_rank_ne N h HN Hh). congruence. }
  set (i := loop_i (procs w p)) in *.
  destruct (proc_inv_recv M N (clock p) p (procs w p) h Hp Hinv Hph)
    as (st'' & Hrecv' & Hinv' & Hi' & Hph').
  fold h i in Hrecv'. rewrite Hrecv' in Hrecv. injection Hrecv as ->.
  assert (Hsent : sent_upto st' = sent_upto (procs w p)).
  { unfold sent_upto. rewrite Hph, Hph'. fold i. lia. }
  assert (Hpred : ∀ x, 0 ≤ x < N → x ≠ h → succ_rank N x ≠ p).
  { intros x Hx Hne Heq. apply Hne.
    apply (succ_rank_inj N); [done..|congruence]. }
  split; cbn [procs chans].
  - intros x Hx. destruct (decide (x = p)) as [->|Hne].
    + by rewrite fn_lookup_insert.
    + rewrite fn_lookup_insert_ne by done. by apply Hproc.
  - intros x Hx. destruct (decide (x = h)) as [->|Hne].
    + rewrite Hsucc, fn_lookup_insert, fn_lookup_insert_ne by done. lia.
    + rewrite (fn_lookup_insert_ne _ _ (succ_rank N x)) by (apply not_eq_sym; auto).
      specialize (Hlag x Hx).
      destruct (decide (x = p)) as [->|Hnp].
      * rewrite fn_lookup_insert. lia.
      * by rewrite fn_lookup_insert_ne.
  - intros x Hx. destruct (decide (x = h)) as [->|Hne].
    + rewrite Hsucc, chan_set_eq, fn_lookup_insert, fn_lookup_insert_ne by done.
      rewrite Hi'. fold i. f_equal. f_equal; lia.
    + rewrite chan_set_ne by (left; done).
      rewrite (fn_lookup_insert_ne _ _ (succ_rank N x)) by (apply not_eq_sym; auto).
      rewrite Hchan by done.
      destruct (decide (x = p)) as [->|Hnp].
      * by rewrite fn_lookup_insert, Hsent.
      * by rewrite fn_lookup_insert_ne.
Qed.

Lemma net_inv_step w w' :
  net_inv M N w → net_step clock N w w' → net_inv M N w'.
Proof.
  intros Hinv [p dst pk st' Hp Hsend|p pk q st' Hp Hph Hpick Hrecv].
  - by eapply net_inv_send.
  - by eapply net_inv_recv.
Qed.

Lemma net_inv_steps w w' :
  net_inv M N w → net_steps clock N w w' → net_inv M N w'.
Proof.
  intros Hinv Hsteps. induction Hsteps as [|w1 w2 w3 _ IH Hstep]; [done|].
  eapply net_inv_step; [apply IH, Hinv|exact Hstep].
Qed.

Lemma net_inv_reachable w :
  net_reachable clock stack M R0 N w → net_inv M N w.
Proof.
  intros (w0 & Hinit & Hsteps).
  eapply net_inv_steps; [by apply net_inv_init|done].
Qed.
End ring.

(** ** Progress and termination of the ring *)

Lemma least_round (f : Z → Z) (n : nat) :
  (0 < n)%nat →
  ∃ p, 0 ≤ p < Z.of_nat n ∧ ∀ q, 0 ≤ q < Z.of_nat n → f p ≤ f q.
Proof.
  induction n as [|n IH]; [lia|]. intros _.
  destruct n as [|n].
  - exists 0. split; [lia|]. intros q Hq. replace q with 0 by lia. done.
  - destruct IH as (p & Hp & Hmin); [lia|].
    destruct (Z.le_gt_cases (f p) (f (Z.of_nat (S n)))) as [Hle|Hgt].
    + exists p. split; [lia|]. intros q Hq.
      destruct (decide (q = Z.of_nat (S n))) as [->|Hne]; [done|].
      apply Hmin. lia.
    + exists (Z.of_nat (S n)). split; [lia|]. intros q Hq.
      destruct (decide (q = Z.of_nat (S n))) as [->|Hne]; [done|].
      specialize (Hmin q). lia.
Qed.

Lemma sum_fresh (g g' : Z → Z) (l : list Z) (p : Z) :
  p ∉ l → (∀ x, x ≠ p → g' x = g x) →
  foldr Z.add 0 (g' <$> l) = foldr Z.add 0 (g <$> l).
Proof.
  intros Hp Hg. induction l as [|x l IH]; [done|].
  apply not_elem_of_cons in Hp as [Hne Hp]. cbn [fmap list_fmap foldr].
  rewrite IH by done. rewrite Hg by done. done.
Qed.

Lemma sum_update (g g' : Z → Z) (l : list Z) (p : Z) :
  NoDup l → p ∈ l → (∀ x, x ≠ p → g' x = g x) →
  foldr Z.add 0 (g' <$> l) = foldr Z.add 0 (g <$> l) - g p + g' p.
Proof.
  intros Hnd Hp Hg. induction l as [|x l IH]; [by apply elem_of_nil in Hp|].
  apply NoDup_cons in Hnd as [Hx Hnd]. cbn [fmap list_fmap foldr].
  destruct (decide (x = p)) as [->|Hne].
  - rewrite (sum_fresh g g' l p) by done. lia.
  - apply elem_of_cons in Hp as [Heq|Hp]; [congruence|].
    rewrite IH by done. rewrite Hg by done. lia.
Qed.

Lemma sum_nonneg (g : Z → Z) (l : list Z) :
  (∀ x, x ∈ l → 0 ≤ g x) → 0 ≤ foldr Z.add 0 (g <$> l).
Proof.
  intros Hg. induction l as [|x l IH]; [done|]. cbn [fmap list_fmap foldr].
  assert (0 ≤ g x) by (apply Hg; left).
  assert (0 ≤ foldr Z.add 0 (g <$> l)); [|lia].
  apply IH. intros y Hy. apply Hg. by right.
Qed.

Section progress.
Variable clock : Z → nat → Z.
Variable M : Z → list Z.
Variable N : Z.

Lemma send_enabled w p :
  net_inv M N w → 0 ≤ p < N →
  ph (procs w p) = AtSend → loop_i (procs w p) < N →
  ∃ w', net_step clock N w w'.
Proof.
  intros Hinv Hp Hph Hi.
  pose proof (pi_wf _ _ _ _ (ni_proc _ _ _ Hinv p Hp)) as [H1 _ H3 _ _].
  eexists. eapply (step_send clock N w p); [done|].
  apply a2a_send_shape; [done|lia|done].
Qed.

Lemma recv_enabled w p :
  net_inv M N w → 0 ≤ p < N → ph (procs w p) = AtRecv →
  loop_i (procs w p) ≤ sent_upto (procs w (recv_from p N)) →
  ∃ w', net_step clock N w w'.
Proof.
  intros Hinv Hp Hph Hle.
  destruct (recv_from_succ N p Hp) as [Hsucc Hh].
  pose proof (ni_chan _ _ _ Hinv _ Hh) as Hq. rewrite Hsucc in Hq.
  rewrite seqZ_cons in Hq by lia. cbn [fmap list_fmap] in Hq.
  destruct (proc_inv_recv M N (clock p) p (procs w p) (recv_from p N) Hp
              (ni_proc _ _ _ Hinv p Hp) Hph) as (st' & Hrecv & _).
  eexists. eapply (step_recv clock N w p); [done|done| |exact Hrecv].
  rewrite Hq. by apply pick_head.
Qed.

(** A ring that has not finished can always move: it never deadlocks. *)
Lemma net_progress w :
  1 ≤ N → net_inv M N w →
  all_finished N w ∨ ∃ w', net_step clock N w w'.
Proof.
  intros HN Hinv.
  destruct (least_round (λ p, loop_i (procs w p)) (Z.to_nat N))
    as (p & Hp & Hmin); [lia|].
  rewrite Z2Nat.id in Hp, Hmin by lia. cbn beta in Hmin.
  pose proof (pi_wf _ _ _ _ (ni_proc _ _ _ Hinv p Hp)) as [H1 H2 _ _ _].
  destruct (ph (procs w p)) eqn:Hph.
  - destruct (decide (loop_i (procs w p) < N)) as [Hlt|Hge].
    + right. by apply (send_enabled w p).
    + left. intros q Hq.
      pose proof (pi_wf _ _ _ _ (ni_proc _ _ _ Hinv q Hq)) as [G1 G2 _ _ _].
      specialize (Hmin q Hq). split; [|lia].
      destruct (ph (procs w q)); [done|]. specialize (G2 eq_refl). lia.
  - right. specialize (H2 eq_refl).
    destruct (recv_from_succ N p Hp) as [_ Hh].
    set (h := recv_from p N) in *.
    pose proof (pi_wf _ _ _ _ (ni_proc _ _ _ Hinv h Hh)) as [G1 G2 _ _ _].
    specialize (Hmin h Hh).
    destruct (ph (procs w h)) eqn:Hphh.
    + destruct (decide (loop_i (procs w h) < N)) as [Hlt|Hge].
      * by apply (send_enabled w h).
      * apply (recv_enabled w p); [done..|].
        fold h. unfold sent_upto. rewrite Hphh. lia.
    + apply (recv_enabled w p); [done..|].
      fold h. unfold sent_upto. rewrite Hphh. lia.
Qed.

Lemma steps_left_nonneg p st : proc_wf N p st → 0 ≤ steps_left N st.
Proof.
  intros [H1 H2 _ _ _]. unfold steps_left.
  destruct (ph st); [lia|]. specialize (H2 eq_refl). lia.
Qed.

Lemma net_measure_nonneg w : net_inv M N w → 0 ≤ net_measure N w.
Proof.
  intros Hinv. unfold net_measure.
  apply (sum_nonneg (λ p, steps_left N (procs w p))).
  intros p Hp%elem_of_seqZ.
  eapply steps_left_nonneg, pi_wf, (ni_proc _ _ _ Hinv). lia.
Qed.

Lemma measure_insert w p st' ch :
  0 ≤ p < N → steps_left N st' = steps_left N (procs w p) - 1 →
  net_measure N (Net (<[p := st']> (procs w)) ch) = net_measure N w - 1.
Proof.
  intros Hp Hst. unfold net_measure. cbn [procs].
  rewrite (sum_update (λ q, steps_left N (procs w q))
                      (λ q, steps_left N ((<[p := st']> (procs w)) q))
                      (seqZ 0 N) p).
  - cbn beta. rewrite fn_lookup_insert. lia.
  - apply NoDup_seqZ.
  - apply elem_of_seqZ. lia.
  - intros x Hx. cbn beta. by rewrite fn_lookup_insert_ne.
Qed.

(** Every step of the ring uses up one unit of the work left. *)
Lemma net_step_measure w w' :
  net_step clock N w w' → net_measure N w' = net_measure N w - 1.
Proof.
  intros [p dst pk st' Hp Hsend|p pk q st' Hp Hph Hpick Hrecv].
  - apply measure_insert; [done|].
    destruct (a2a_send_inv _ _ _ _ _ _ _ Hsend) as (Hph & _ & Hph' & Hi' & _).
    unfold steps_left. rewrite Hph, Hph', Hi'. lia.
  - apply measure_insert; [done|].
    destruct (a2a_recv_inv _ _ _ _ _ _ Hrecv) as (_ & Hph' & Hi' & _).
    unfold steps_left. rewrite Hph, Hph', Hi'. lia.
Qed.

(** Hence no run is longer than the work left when it starts. *)
Lemma net_steps_measure w w' :
  net_steps clock N w w' → net_measure N w' ≤ net_measure N w.
Proof.
  intros Hsteps. induction Hsteps as [|w1 w2 w3 _ IH Hstep]; [lia|].
  rewrite (net_step_measure _ _ Hstep). lia.
Qed.

(** From any state of the ring that satisfies the invariant the run can
    be carried to the end. *)
Lemma net_completes w :
  1 ≤ N → net_inv M N w →
  ∃ wf, net_steps clock N w wf ∧ all_finished N wf.
Proof.
  intros HN Hinv.
  remember (Z.to_nat (net_measure N w)) as n eqn:Hn.
  revert w Hinv Hn. induction n as [|n IH]; intros w Hinv Hn.
  - destruct (net_progress w HN Hinv) as [Hfin|[w' Hstep]].
    + exists w. split; [apply steps_refl|done].
    + pose proof (net_step_measure _ _ Hstep) as Hm.
      pose proof (net_measure_nonneg w' (net_inv_step clock M N w w' Hinv Hstep)).
      pose proof (net_measure_nonneg w Hinv). lia.
  - destruct (net_progress w HN Hinv) as [Hfin|[w' Hstep]].
    + exists w. split; [apply steps_refl|done].
    + pose proof (net_step_measure _ _ Hstep) as Hm.
      destruct (IH w') as (wf & Hsteps & Hfin).
      * exact (net_inv_step clock M N w w' Hinv Hstep).
      * lia.
      * exists wf. split; [|done].
        eapply net_steps_trans; [by apply net_steps_one|done].
Qed.
End progress.

(** ** Schedules are runs of the ring *)

Lemma net_act_step clock N a w w' :
  net_act clock N a w = Some w' → net_step clock N w w'.
Proof.
  unfold net_act. destruct a as [p|p].
  - destruct (Z.leb_spec 0 p), (Z.ltb_spec p N); try done. simpl.
    destruct (a2a_send _ _ _ _) as [[[dst pk] st']|] eqn:Hsend; [|done].
    simpl. intros [= <-]. by apply (step_send clock N w p dst pk st').
  - destruct (Z.leb_spec 0 p), (Z.ltb_spec p N); try done. simpl.
    destruct (ph (procs w p)) eqn:Hph; [done|].
    destruct (pick _ _) as [[pk q]|] eqn:Hpick; [|done]. simpl.
    destruct (a2a_recv _ _ _ _ _) as [st'|] eqn:Hrecv; [|done].
    simpl. intros [= <-]. by apply (step_recv clock N w p pk q st').
Qed.

Lemma run_schedule_steps clock N s w w' :
  run_schedule clock N s w = Some w' → net_steps clock N w w'.
Proof.
  revert w. induction s as [|a s IH]; intros w; simpl.
  - intros [= <-]. apply steps_refl.
  - destruct (net_act clock N a w) as [w1|] eqn:Hact; [|done]. simpl.
    intros Hrun. eapply net_steps_trans; [|by apply IH].
    apply net_steps_one. by apply (net_act_step clock N a).
Qed.

Lemma net_init_ring_start clock stack M R0 N :
  (∀ p, 0 ≤ p < N → Z.of_nat (length (M p)) = N) →
  (∀ p, 0 ≤ p < N → Z.of_nat (length (R0 p)) = N) →
  net_init clock stack M R0 N (ring_start clock stack M R0 N).
Proof.
  intros HM HR. split; [|done]. intros p Hp. cbn [ring_start procs].
  destruct (a2a_prologue_shape (clock p) (stack p) (M p) (R0 p) p N)
    as (v & _ & ->); auto.
Qed.

(** ** The slots of [res_arr] a process writes *)

Lemma log_entry_range (N p j : Z) :
  0 ≤ p < N → 0 ≤ j < N → 0 ≤ (p - j) `mod` N < N.
Proof. intros. ring_cases; lia. Qed.

Lemma log_entry_inj (N p j k : Z) :
  0 ≤ p < N → 0 ≤ j < N → 0 ≤ k < N →
  (p - j) `mod` N = (p - k) `mod` N → j = k.
Proof. intros ? ? ? Heq. ring_cases; lia. Qed.

Lemma log_entry_inv (N p k : Z) :
  0 ≤ p < N → 0 ≤ k < N →
  0 ≤ (p - k) `mod` N < N ∧ (p - (p - k) `mod` N) `mod` N = k.
Proof. intros. ring_cases; lia. Qed.

Lemma log_entry_self (N p j : Z) :
  0 ≤ p < N → 0 ≤ j < N → (p - j) `mod` N = p → j = 0.
Proof. intros ? ? Heq. ring_cases; lia. Qed.

Lemma written_once (N p i : Z) :
  0 ≤ p < N → 0 ≤ i ≤ N →
  NoDup (reverse ((λ j, (p - j) `mod` N) <$> seqZ 0 i)).
Proof.
  intros Hp Hi. rewrite reverse_Permutation.
  apply NoDup_fmap_2_strong; [|apply NoDup_seqZ].
  intros j k Hj%elem_of_seqZ Hk%elem_of_seqZ. apply log_entry_inj; lia.
Qed.

Lemma written_all (N p k : Z) :
  0 ≤ p < N →
  k ∈ reverse ((λ j, (p - j) `mod` N) <$> seqZ 0 N) ↔ 0 ≤ k < N.
Proof.
  intros Hp. rewrite elem_of_reverse, list_elem_of_fmap. split.
  - intros (j & -> & Hj%elem_of_seqZ). apply log_entry_range; lia.
  - intros Hk. destruct (log_entry_inv N p k Hp Hk) as [Hr Heq].
    exists ((p - k) `mod` N). split; [done|]. apply elem_of_seqZ. lia.
Qed.

(** After the prologue the log is the self-delivery followed by writes to
    other slots only. *)
Lemma log_split (N p i : Z) :
  0 ≤ p < N → 1 ≤ i ≤ N →
  ∃ later, (reverse ((λ j, (p - j) `mod` N) <$> seqZ 0 i) = later ++ [p]) ∧
    (p ∉ later) ∧ Z.of_nat (length later) = i - 1.
Proof.
  intros Hp Hi. exists (reverse ((λ j, (p - j) `mod` N) <$> seqZ 1 (i - 1))).
  split_and!.
  - rewrite (seqZ_cons 0 i) by lia. cbn [fmap list_fmap].
    rewrite reverse_cons.
    replace (Z.succ 0) with 1 by lia. replace (Z.pred i) with (i - 1) by lia.
    do 2 f_equal. ring_cases; lia.
  - rewrite elem_of_reverse, list_elem_of_fmap.
    intros (j & Heq & Hj%elem_of_seqZ).
    symmetry in Heq. apply log_entry_self in Heq; lia.
  - rewrite length_reverse, length_fmap, length_seqZ. lia.
Qed.

(** ** Rounds of one process *)

Lemma a2a_recv_res clock (rank N : Z) (st st' : proc) (pk : packet) :
  0 ≤ rank < N → proc_wf N rank st →
  a2a_recv clock rank N st pk = Some st' →
  ∀ k, k ≠ origin rank N (loop_i st) → rd (res_arr st') k = rd (res_arr st) k.
Proof.
  intros Hr Hwf Hrecv k Hk. pose proof Hwf as [H1 H2 H3 H4 H5].
  destruct (a2a_recv_inv _ _ _ _ _ _ Hrecv) as (Hph & Hph' & Hi' & Hl & Hfit).
  specialize (H2 Hph). assert (Hi : 1 ≤ loop_i st < N) by lia.
  destruct (a2a_recv_shape clock rank N st pk) as (v & b' & Hv & Hb' & Heq);
    [done..|].
  rewrite Heq in Hrecv. injection Hrecv as <-. cbn [res_arr].
  pose proof (origin_range N rank (loop_i st) Hr Hi) as [Ho _].
  unfold rd. destruct (Z.leb_spec 0 k); [|done].
  apply list_lookup_insert_ne. lia.
Qed.

Lemma a2a_rounds_sound clock (rank N : Z) (n : nat) (st st' : proc) inbox out :
  0 ≤ rank < N → proc_wf N rank st →
  a2a_rounds clock rank N n st inbox = Some (st', out) →
  proc_wf N rank st' ∧ loop_i st' = loop_i st + Z.of_nat n ∧
  ph st' = ph st ∧ rd (res_arr st') rank = rd (res_arr st) rank.
Proof.
  intros Hr. revert st inbox out.
  induction n as [|n IH]; intros st inbox out Hwf; cbn [a2a_rounds].
  - intros [= <- <-]. split_and!; [done|lia|done..].
  - destruct (a2a_send _ _ _ _) as [[[dst pk] st1]|] eqn:Hsend; [|done].
    cbn [mbind option_bind]. destruct inbox as [|m inbox]; [done|].
    destruct (a2a_recv _ _ _ _ _) as [st2|] eqn:Hrecv; [|done].
    cbn [mbind option_bind].
    destruct (a2a_rounds _ _ _ _ _ _) as [[st3 out3]|] eqn:Hrounds; [|done].
    cbn [mbind option_bind]. intros [= <- <-].
    pose proof (proc_wf_send _ _ _ _ _ _ _ Hwf Hsend) as Hwf1.
    pose proof (proc_wf_recv _ _ _ _ _ _ Hr Hwf1 Hrecv) as Hwf2.
    destruct (a2a_send_inv _ _ _ _ _ _ _ Hsend)
      as (Hph & Hi & Hph1 & Hi1 & _ & Hres1 & _).
    destruct (a2a_recv_inv _ _ _ _ _ _ Hrecv) as (_ & Hph2 & Hi2 & _).
    destruct (IH _ _ _ Hwf2 Hrounds) as (Hwf3 & Hi3 & Hph3 & Hres3).
    split_and!; [done|lia|congruence|].
    rewrite Hres3, <- Hres1.
    apply (a2a_recv_res _ _ _ _ _ _ Hr Hwf1 Hrecv).
    pose proof Hwf1 as [G1 G2 _ _ _]. specialize (G2 Hph1).
    apply not_eq_sym, origin_range; lia.
Qed.

(** A process fed packets that fit gets through its rounds. *)
Lemma a2a_rounds_total clock (rank N : Z) (n : nat) (st : proc) inbox :
  0 ≤ rank < N → proc_wf N rank st → ph st = AtSend →
  loop_i st + Z.of_nat n ≤ N → length inbox = n → fits N (loop_i st) inbox →
  ∃ st' out, a2a_rounds clock rank N n st inbox = Some (st', out).
Proof.
  intros Hr. revert st inbox.
  induction n as [|n IH]; intros st inbox Hwf Hph Hn Hlen Hfit; cbn [a2a_rounds].
  - eauto.
  - pose proof Hwf as [H1 H2 H3 H4 H5].
    pose proof (a2a_send_shape clock rank N st Hph ltac:(lia) H3) as Hsend.
    rewrite Hsend. cbn [mbind option_bind].
    destruct inbox as [|m inbox]; [done|]. destruct Hfit as [Hm Hfit].
    pose proof (proc_wf_send _ _ _ _ _ _ _ Hwf Hsend) as Hwf1.
    match type of Hsend with _ = Some (_, _, ?s) => set (st1 := s) in * end.
    pose proof Hwf1 as [G1 G2 G3 G4 G5].
    assert (Hph1 : ph st1 = AtRecv) by done.
    assert (Hi1 : 1 ≤ loop_i st1 < N) by (unfold st1; simpl; lia).
    assert (Hm1 : Z.of_nat (length (payload m)) ≤ N - loop_i st1)
      by (unfold st1; simpl; lia).
    destruct (a2a_recv_shape clock rank N st1 m Hph1 Hr Hi1 G3 G4 Hm1)
      as (v & b' & _ & _ & Hrecv).
    rewrite Hrecv. cbn [mbind option_bind].
    pose proof (proc_wf_recv _ _ _ _ _ _ Hr Hwf1 Hrecv) as Hwf2.
    destruct (IH _ inbox Hwf2) as (st3 & out & Hrounds);
      [done|unfold st1; simpl; lia|simpl in Hlen; lia|done|].
    rewrite Hrounds. cbn [mbind option_bind]. eauto.
Qed.

(** ** The scenario of the specification, run *)

Lemma demo_lengths (p : Z) :
  0 ≤ p < 3 → Z.of_nat (length (demo_M p)) = 3 ∧ Z.of_nat (length (demo_R0 p)) = 3.
Proof.
  intros Hp. assert (p = 0 ∨ p = 1 ∨ p = 2) as [-> | [-> | ->] ] by lia; done.
Qed.

Lemma demo_start_init :
  net_init demo_clock demo_stack demo_M demo_R0 3 demo_start.
Proof. apply net_init_ring_start; intros p Hp; by apply demo_lengths. Qed.

Lemma demo_sent_reachable :
  net_reachable demo_clock demo_stack demo_M demo_R0 3 demo_sent.
Proof.
  exists demo_start. split; [apply demo_start_init|].
  apply (run_schedule_steps _ _ all_send). reflexivity.
Qed.

Example demo_final_res :
  res_arr (procs demo_final 0) = [10; 40; 70] ∧
  res_arr (procs demo_final 1) = [20; 50; 80] ∧
  res_arr (procs demo_final 2) = [30; 60; 90].
Proof. by vm_compute. Qed.

Example single_process_run :
  (λ r, res_arr r.1.1) <$>
    all_to_all_personalized (λ _, 0) (λ _, 0) [5] [0] 0 1 [] = Some [5].
Proof. reflexivity. Qed.

(** ** Properties of the exchange *)

Lemma transpose_index (N a b : Z) :
  0 ≤ a < N → 0 ≤ b < N →
  0 ≤ (b - a) `mod` N < N ∧ (b - (b - a) `mod` N) `mod` N = a.
Proof. intros. ring_cases; lia. Qed.

Lemma source_of_facts (N p i : Z) :
  0 ≤ p < N → 1 ≤ i ≤ N →
  0 ≤ source_of N p i < N ∧ hops N (source_of N p i) p = i - 1.
Proof. intros. ring_cases; lia. Qed.


Lemma rd_cell (M : Z → list Z) (N a b : Z) :
  Z.of_nat (length (M a)) = N → 0 ≤ b < N → rd (M a) b = Some (cell M a b).
Proof.
  intros Hlen Hb. destruct (rd_inside (M a) b) as (v & Hrd & Hv); [lia|].
  unfold cell. by rewrite Hrd, Hv.
Qed.

Lemma finished_round (M : Z → list Z) (N p : Z) (st : proc) :
  proc_inv M N p st → finished N st → loop_i st = N.
Proof. intros [[H1 _ _ _ _] _ _] [_ Hge]. lia. Qed.

(** C1. Global transpose: once every process of the ring has run
    [all_to_all_personalized] to the end, over channels that keep the
    order of the packets, process [b] holds at [res_arr[a]] what process
    [a] held at [msg_arr[b]]; and whatever the interleaving so far, the
    run can be carried to that end. *)
Theorem global_transpose clock stack (M R0 : Z → list Z) (N : Z) (w0 : net) :
  1 ≤ N →
  (∀ p, 0 ≤ p < N → Z.of_nat (length (M p)) = N) →
  (∀ p, 0 ≤ p < N → Z.of_nat (length (R0 p)) = N) →
  net_init clock stack M R0 N w0 →
  (∀ w, net_steps clock N w0 w →
     ∃ wf, net_steps clock N w wf ∧ all_finished N wf) ∧
  (∀ wf, net_steps clock N w0 wf → all_finished N wf →
     ∀ a b, 0 ≤ a < N → 0 ≤ b < N →
       ∃ v, rd (M a) b = Some v ∧ rd (res_arr (procs wf b)) a = Some v).
Proof.
  intros HN HM HR Hinit.
  pose proof (net_inv_init clock stack M R0 N HM HR w0 Hinit) as Hinv0.
  split.
  - intros w Hsteps. apply (net_completes clock M N w HN).
    by apply (net_inv_steps clock M N w0 w).
  - intros wf Hsteps Hfin a b Ha Hb.
    pose proof (net_inv_steps clock M N w0 wf Hinv0 Hsteps) as Hinv.
    pose proof (ni_proc _ _ _ Hinv b Hb) as Hproc.
    pose proof (finished_round M N b _ Hproc (Hfin b Hb)) as Hi.
    destruct (transpose_index N a b Ha Hb) as [Hj Heq].
    pose proof (pi_res _ _ _ _ Hproc ((b - a) `mod` N)) as Hres.
    rewrite Heq, Hi in Hres. specialize (Hres Hj).
    exists (cell M a b). split; [apply (rd_cell M N); auto|].
    unfold rd. destruct (Z.leb_spec 0 a); [done|lia].
Qed.

Lemma global_transpose_witness :
  (∀ w, net_steps demo_clock 3 demo_start w →
     ∃ wf, net_steps demo_clock 3 w wf ∧ all_finished 3 wf) ∧
  (∀ wf, net_steps demo_clock 3 demo_start wf → all_finished 3 wf →
     ∀ a b, 0 ≤ a < 3 → 0 ≤ b < 3 →
       ∃ v, rd (demo_M a) b = Some v ∧ rd (res_arr (procs wf b)) a = Some v).
Proof.
  apply (global_transpose demo_clock demo_stack demo_M demo_R0 3 demo_start).
  - lia.
  - intros p Hp. assert (p = 0 ∨ p = 1 ∨ p = 2) as [-> | [-> | ->] ] by lia; reflexivity.
  - intros p Hp. reflexivity.
  - apply net_init_ring_start.
    + intros p Hp. assert (p = 0 ∨ p = 1 ∨ p = 2) as [-> | [-> | ->] ] by lia; reflexivity.
    + intros p Hp. reflexivity.
Defined.

(** ** The invariant of the circulating buffer *)

Lemma in_transit_holds (M : Z → list Z) (N p i : Z) (b : list Z) :
  0 ≤ p < N → 1 ≤ i ≤ N →
  take (Z.to_nat (N - i)) b = in_transit M N p i →
  holds_in_transit M N p i b.
Proof.
  intros Hp Hi Hbuf.
  destruct (source_of_facts N p i Hp Hi) as [Ho Hhops].
  exists (dests N (source_of N p i) p). split_and!.
  - exact Hbuf.
  - rewrite dests_length by done. lia.
  - apply dests_sorted.
  - rewrite elem_of_dests by done. lia.
  - intros d. rewrite elem_of_dests by done. by rewrite Hhops.
Qed.

Lemma sorted_NoDup (l : list Z) : StronglySorted Z.lt l → NoDup l.
Proof.
  induction 1 as [|x l _ IH Hx]; constructor; [|done].
  rewrite Forall_forall in Hx. intros Hin. specialize (Hx x Hin). lia.
Qed.

(** The invariant fixes the valid cells of the buffer. *)
Lemma holds_in_transit_inv (M : Z → list Z) (N p i : Z) (b : list Z) :
  0 ≤ p < N → 1 ≤ i ≤ N →
  holds_in_transit M N p i b →
  take (Z.to_nat (N - i)) b = in_transit M N p i.
Proof.
  intros Hp Hi (ds & Hbuf & _ & Hsorted & _ & Hmem).
  destruct (source_of_facts N p i Hp Hi) as [Ho Hhops].
  rewrite Hbuf. unfold in_transit. f_equal.
  apply (StronglySorted_unique_strong Z.lt); [lia|done|apply dests_sorted|].
  apply NoDup_Permutation; [by apply sorted_NoDup|apply sorted_NoDup, dests_sorted|].
  intros d. rewrite Hmem, elem_of_dests by done. by rewrite Hhops.
Qed.

(** A process goes through the rounds one by one: a run that takes it to
    round [i] has taken it to the start of every round before. *)
Lemma rounds_visited clock (N : Z) (w0 w : net) (p : Z) :
  net_steps clock N w0 w → ph (procs w0 p) = AtSend →
  ∀ i, loop_i (procs w0 p) ≤ i ≤ loop_i (procs w p) →
    ∃ w', net_steps clock N w0 w' ∧
      ph (procs w' p) = AtSend ∧ loop_i (procs w' p) = i.
Proof.
  intros Hsteps Hph0.
  induction Hsteps as [|w1 w2 w3 Hsteps IH Hstep]; intros i Hi.
  - exists w. split; [apply steps_refl|]. split; [done|lia].
  - destruct Hstep as [x dst pk st' Hx Hsend|x pk q st' Hx Hph Hpick Hrecv];
      cbn [procs] in *.
    + destruct (decide (p = x)) as [->|Hne].
      * rewrite fn_lookup_insert in Hi.
        destruct (a2a_send_inv _ _ _ _ _ _ _ Hsend) as (_ & _ & _ & Hi' & _).
        apply (IH Hph0); lia.
      * rewrite fn_lookup_insert_ne in Hi by done. apply (IH Hph0); lia.
    + destruct (decide (p = x)) as [->|Hne].
      * rewrite fn_lookup_insert in Hi.
        destruct (a2a_recv_inv _ _ _ _ _ _ Hrecv) as (_ & Hph' & Hi' & _).
        destruct (decide (i = loop_i st')) as [->|Hlt].
        -- eexists. split.
           ++ eapply steps_snoc; [exact Hsteps|].
              exact (step_recv clock N w2 x pk q st' Hx Hph Hpick Hrecv).
           ++ cbn [procs]. by rewrite fn_lookup_insert.
        -- apply (IH Hph0); lia.
      * rewrite fn_lookup_insert_ne in Hi by done. apply (IH Hph0); lia.
Qed.

(** C2. Circulating-buffer invariant. At the start of round [i] the first
    [N - i] cells of the buffer of rank [p] hold values that left rank
    [source_of N p i], one for each rank still more than [i - 1] hops ahead
    of that rank (so none for the holder), in strictly increasing order of
    destination ([holds_in_transit]). The prologue establishes it for
    round 1; it holds whenever a process of the ring stands at the start
    of a round; the send leaves the buffer alone and sends its [N - i]
    valid cells; the receive of round [i] takes the [N - i] cells the
    predecessor held at the start of its round [i], extracts the one at
    [data_index], compacts, and leaves the process at the start of round
    [i + 1] with the invariant again, in the ring and also for any process
    state handed a packet that meets the invariant of the predecessor; and
    every rank does get to the start of every round [1 .. N-1]. *)
Theorem buffer_invariant clock stack (M R0 : Z → list Z) (N : Z) (w0 : net) :
  2 ≤ N →
  (∀ p, 0 ≤ p < N → Z.of_nat (length (M p)) = N) →
  (∀ p, 0 ≤ p < N → Z.of_nat (length (R0 p)) = N) →
  net_init clock stack M R0 N w0 →
  (∀ p, 0 ≤ p < N →
     ph (procs w0 p) = AtSend ∧ loop_i (procs w0 p) = 1 ∧
     holds_in_transit M N p 1 (buf (procs w0 p))) ∧
  (∀ w p, net_steps clock N w0 w → 0 ≤ p < N →
     ph (procs w p) = AtSend → loop_i (procs w p) ≤ N - 1 →
     holds_in_transit M N p (loop_i (procs w p)) (buf (procs w p))) ∧
  (∀ w p, net_steps clock N w0 w → 0 ≤ p < N →
     ph (procs w p) = AtSend → loop_i (procs w p) ≤ N - 1 →
     ∃ dst pk st',
       a2a_send (clock p) p N (procs w p) = Some (dst, pk, st') ∧
       ph st' = AtRecv ∧ loop_i st' = loop_i (procs w p) ∧
       buf st' = buf (procs w p) ∧
       payload pk = take (Z.to_nat (N - loop_i (procs w p))) (buf (procs w p))) ∧
  (∀ w p pk q, net_steps clock N w0 w → 0 ≤ p < N →
     ph (procs w p) = AtRecv →
     pick (recv_from p N) (chans w (recv_from p N) p) = Some (pk, q) →
     ∃ st', a2a_recv (clock p) p N (procs w p) pk = Some st' ∧
       ph st' = AtSend ∧ loop_i st' = loop_i (procs w p) + 1 ∧
       Z.of_nat (length (payload pk)) = N - loop_i (procs w p) ∧
       holds_in_transit M N (recv_from p N) (loop_i (procs w p)) (payload pk) ∧
       take (Z.to_nat (N - loop_i st')) (buf st')
         = delete (Z.to_nat (data_index p N (loop_i (procs w p)))) (payload pk) ∧
       holds_in_transit M N p (loop_i st') (buf st')) ∧
  (∀ p st pk, 0 ≤ p < N → proc_wf N p st → ph st = AtRecv →
     Z.of_nat (length (payload pk)) = N - loop_i st →
     holds_in_transit M N (recv_from p N) (loop_i st) (payload pk) →
     ∃ st', a2a_recv (clock p) p N st pk = Some st' ∧
       ph st' = AtSend ∧ loop_i st' = loop_i st + 1 ∧
       take (Z.to_nat (N - loop_i st')) (buf st')
         = delete (Z.to_nat (data_index p N (loop_i st))) (payload pk) ∧
       holds_in_transit M N p (loop_i st') (buf st')) ∧
  (∀ p i, 0 ≤ p < N → 1 ≤ i ≤ N - 1 →
     ∃ w, net_steps clock N w0 w ∧
       ph (procs w p) = AtSend ∧ loop_i (procs w p) = i ∧
       holds_in_transit M N p i (buf (procs w p))).
Proof.
  intros HN HM HR Hinit.
  pose proof (net_inv_init clock stack M R0 N HM HR w0 Hinit) as Hinv0.
  assert (Hstart : ∀ p, 0 ≤ p < N →
            ph (procs w0 p) = AtSend ∧ loop_i (procs w0 p) = 1).
  { intros p Hp.
    destruct (proc_inv_prologue M N HM (clock p) (stack p) (R0 p) p (procs w0 p))
      as (_ & Hi & Hph); [done|by apply HR|by apply Hinit|done]. }
  assert (Hat : ∀ w p, net_steps clock N w0 w → 0 ≤ p < N →
            ph (procs w p) = AtSend → loop_i (procs w p) ≤ N →
            holds_in_transit M N p (loop_i (procs w p)) (buf (procs w p))).
  { intros w p Hsteps Hp Hph Hi.
    pose proof (net_inv_steps clock M N w0 w Hinv0 Hsteps) as Hinv.
    pose proof (ni_proc _ _ _ Hinv p Hp) as [[H1 _ _ _ _] Hbuf _].
    apply in_transit_holds; [done|lia|done]. }
  split_and!.
  - intros p Hp. destruct (Hstart p Hp) as [Hph Hi]. split_and!; [done..|].
    rewrite <- Hi. apply Hat; [apply steps_refl|done|done|lia].
  - intros w p Hsteps Hp Hph Hi. apply Hat; [done..|lia].
  - intros w p Hsteps Hp Hph Hi.
    pose proof (net_inv_steps clock M N w0 w Hinv0 Hsteps) as Hinv.
    pose proof (ni_proc _ _ _ Hinv p Hp) as [[H1 _ H3 _ _] _ _].
    rewrite a2a_send_shape by (done || lia).
    eexists _, _, _. split; [done|]. done.
  - intros w p pk q Hsteps Hp Hph Hpick.
    pose proof (net_inv_steps clock M N w0 w Hinv0 Hsteps) as Hinv.
    destruct (recv_head M N w p pk q Hinv Hp Hph Hpick) as (-> & _ & _).
    pose proof (ni_proc _ _ _ Hinv p Hp) as Hproc.
    pose proof (pi_wf _ _ _ _ Hproc) as [H1 H2 _ _ _]. specialize (H2 Hph).
    assert (Hi : 1 ≤ loop_i (procs w p) < N) by lia.
    destruct (recv_from_succ N p Hp) as [_ Hh].
    destruct (proc_inv_recv M N (clock p) p (procs w p) (recv_from p N)
                Hp Hproc Hph) as (st' & Hrecv & Hinv' & Hi' & Hph').
    pose proof (in_transit_length M N (recv_from p N) (loop_i (procs w p))
                  Hh ltac:(lia)) as Hlen.
    destruct (in_transit_extract M N p (loop_i (procs w p)) Hp Hi) as [_ Hdel].
    destruct Hinv' as [_ Hbuf' _].
    exists st'. cbn [payload]. split_and!; [done..| | |].
    + apply in_transit_holds; [done|lia|]. apply take_ge. lia.
    + rewrite Hbuf', Hi'. done.
    + apply in_transit_holds; [done|lia|done].
  - intros p st pk Hp Hwf Hph Hlen Hpk.
    pose proof Hwf as [H1 H2 H3 H4 _]. specialize (H2 Hph).
    assert (Hi : 1 ≤ loop_i st < N) by lia.
    destruct (recv_from_succ N p Hp) as [_ Hh].
    apply holds_in_transit_inv in Hpk; [|done|lia].
    rewrite take_ge in Hpk by lia.
    destruct (in_transit_extract M N p (loop_i st) Hp Hi) as [_ Hdel].
    pose proof (data_index_range N p (loop_i st) Hp Hi) as Hidx.
    destruct (a2a_recv_shape (clock p) p N st pk Hph Hp Hi H3 H4 ltac:(lia))
      as (v & b' & _ & Hb' & Hrecv).
    eexists. split; [exact Hrecv|]. cbn [ph loop_i buf].
    set (b := payload pk ++ _) in Hb'.
    assert (Hblen : length b = length (buf st)).
    { unfold b. rewrite length_app, length_drop. lia. }
    assert (Hsz : N - loop_i st ≤ Z.of_nat (length b)) by lia.
    pose proof (compact_array_delete _ _ _ _ Hidx Hsz Hb') as Hdel'.
    unfold b in Hdel'. rewrite take_app_length' in Hdel' by lia.
    replace (N - (loop_i st + 1)) with (N - loop_i st - 1) by lia.
    split_and!; [done..|].
    apply in_transit_holds; [done|lia|].
    replace (N - (loop_i st + 1)) with (N - loop_i st - 1) by lia.
    by rewrite Hdel', Hpk.
  - intros p i Hp Hi.
    destruct (net_completes clock M N w0 ltac:(lia) Hinv0) as (wf & Hsteps & Hfin).
    destruct (Hstart p Hp) as [Hph0 Hi0].
    destruct (Hfin p Hp) as [_ HiN].
    destruct (rounds_visited clock N w0 wf p Hsteps Hph0 i) as (w & Hw & Hph & Hiw);
      [lia|].
    exists w. split_and!; [done..|].
    rewrite <- Hiw. apply Hat; [done..|lia].
Qed.

Lemma buffer_invariant_witness :
  holds_in_transit quad_M 4 0 1 (buf (procs quad_start 0)) ∧
  holds_in_transit quad_M 4 0 2 (buf (procs quad_round 0)) ∧
  (∃ st', a2a_recv (demo_clock 0) 0 4 (procs quad_sent 0) (Packet 3 [31; 32; 33])
            = Some st' ∧
     ph st' = AtSend ∧ loop_i st' = loop_i (procs quad_sent 0) + 1 ∧
     Z.of_nat (length (payload (Packet 3 [31; 32; 33])))
       = 4 - loop_i (procs quad_sent 0) ∧
     holds_in_transit quad_M 4 (recv_from 0 4) (loop_i (procs quad_sent 0))
       (payload (Packet 3 [31; 32; 33])) ∧
     take (Z.to_nat (4 - loop_i st')) (buf st')
       = delete (Z.to_nat (data_index 0 4 (loop_i (procs quad_sent 0))))
           (payload (Packet 3 [31; 32; 33])) ∧
     holds_in_transit quad_M 4 0 (loop_i st') (buf st')) ∧
  (∃ st', a2a_recv (demo_clock 1) 1 4 (procs quad_sent 1) (Packet 0 [2; 3; 4])
            = Some st' ∧
     ph st' = AtSend ∧ loop_i st' = loop_i (procs quad_sent 1) + 1 ∧
     take (Z.to_nat (4 - loop_i st')) (buf st')
       = delete (Z.to_nat (data_index 1 4 (loop_i (procs quad_sent 1))))
           (payload (Packet 0 [2; 3; 4])) ∧
     holds_in_transit quad_M 4 1 (loop_i st') (buf st')) ∧
  (∃ w, net_steps demo_clock 4 quad_start w ∧
     ph (procs w 2) = AtSend ∧ loop_i (procs w 2) = 3 ∧
     holds_in_transit quad_M 4 2 3 (buf (procs w 2))).
Proof.
  destruct (buffer_invariant demo_clock demo_stack quad_M quad_R0 4 quad_start)
    as (Hinit & Hat & _ & Hrecv & Hlocal & Hreach).
  - lia.
  - intros p Hp. reflexivity.
  - intros p Hp. reflexivity.
  - apply net_init_ring_start; intros p Hp; reflexivity.
  - split_and!.
    + apply (Hinit 0). lia.
    + apply (Hat quad_round 0).
      * apply (run_schedule_steps _ _ (quad_send ++ quad_recv)). reflexivity.
      * lia.
      * reflexivity.
      * vm_compute. discriminate.
    + apply (Hrecv quad_sent 0 (Packet 3 [31; 32; 33]) []).
      * apply (run_schedule_steps _ _ quad_send). reflexivity.
      * lia.
      * reflexivity.
      * reflexivity.
    + apply (Hlocal 1 (procs quad_sent 1) (Packet 0 [2; 3; 4])).
      * lia.
      * split.
        -- vm_compute. split; discriminate.
        -- intros _. reflexivity.
        -- reflexivity.
        -- reflexivity.
        -- reflexivity.
      * reflexivity.
      * reflexivity.
      * apply (Hinit 0). lia.
    + apply (Hreach 2 3); lia.
Defined.



Lemma delete_insert_same (l : list Z) (k : nat) (x : Z) :
  delete k (<[k := x]> l) = delete k l.
Proof.
  rewrite !delete_take_drop, take_insert_ge, drop_insert_lt by lia. done.
Qed.

Lemma rd_delete_lt (l : list Z) (r k : Z) :
  0 ≤ k < r → rd (delete (Z.to_nat r) l) k = rd l k.
Proof.
  intros Hk. unfold rd. destruct (Z.leb_spec 0 k); [|lia].
  apply list_lookup_delete_lt. lia.
Qed.

Lemma rd_delete_ge (l : list Z) (r k : Z) :
  0 ≤ r < k → rd (delete (Z.to_nat r) l) (k - 1) = rd l k.
Proof.
  intros Hk. unfold rd.
  destruct (Z.leb_spec 0 k), (Z.leb_spec 0 (k - 1)); try lia.
  rewrite list_lookup_delete_ge by lia. f_equal. lia.
Qed.

(** C4. Initial buffer: the prologue builds a buffer of [N - 1] cells
    with [buf[k] = msg_arr[k]] for [k < rank] and [buf[k-1] = msg_arr[k]]
    for [k > rank]; the buffer does not depend on [msg_arr[rank]]. *)
Theorem initial_buffer clock stack (msg_arr res0 : list Z) (rank N : Z) :
  0 ≤ rank < N →
  Z.of_nat (length msg_arr) = N → Z.of_nat (length res0) = N →
  ∃ st0, a2a_prologue clock stack msg_arr res0 rank N = Some st0 ∧
    Z.of_nat (length (buf st0)) = N - 1 ∧
    (∀ k, 0 ≤ k < rank → rd (buf st0) k = rd msg_arr k) ∧
    (∀ k, rank < k < N → rd (buf st0) (k - 1) = rd msg_arr k) ∧
    (∀ x, ∃ st1,
       a2a_prologue clock stack (<[Z.to_nat rank := x]> msg_arr) res0 rank N
         = Some st1 ∧ buf st1 = buf st0).
Proof.
  intros Hr Hmsg Hres.
  destruct (a2a_prologue_shape clock stack msg_arr res0 rank N)
    as (v & Hv & Heq); [done..|].
  eexists. split; [exact Heq|]. cbn [buf]. split_and!.
  - rewrite length_delete by (by rewrite Hv). lia.
  - intros k Hk. by apply rd_delete_lt.
  - intros k Hk. apply rd_delete_ge. lia.
  - intros x.
    destruct (a2a_prologue_shape clock stack (<[Z.to_nat rank := x]> msg_arr)
                res0 rank N) as (v' & Hv' & Heq');
      [done|by rewrite length_insert|done|].
    eexists. split; [exact Heq'|]. cbn [buf]. apply delete_insert_same.
Qed.

Lemma initial_buffer_witness :
  ∃ st0, a2a_prologue (λ _, 0) (λ _, 7) [40; 50; 60] [0; 0; 0] 1 3 = Some st0 ∧
    Z.of_nat (length (buf st0)) = 3 - 1 ∧
    (∀ k, 0 ≤ k < 1 → rd (buf st0) k = rd [40; 50; 60] k) ∧
    (∀ k, 1 < k < 3 → rd (buf st0) (k - 1) = rd [40; 50; 60] k) ∧
    (∀ x, ∃ st1,
       a2a_prologue (λ _, 0) (λ _, 7) (<[Z.to_nat 1 := x]> [40; 50; 60])
         [0; 0; 0] 1 3 = Some st1 ∧ buf st1 = buf st0).
Proof.
  apply (initial_buffer (λ _, 0) (λ _, 7) [40; 50; 60] [0; 0; 0] 1 3).
  - lia.
  - reflexivity.
  - reflexivity.
Defined.

(** ** The writes of a run, round by round *)

(** [m + n] rounds are [m] rounds followed by [n] rounds on the packets
    left. *)
Lemma a2a_rounds_add clock (rank N : Z) (m n : nat) (st : proc)
    (inbox : list packet) :
  a2a_rounds clock rank N (m + n) st inbox =
  '(s, o1) ← a2a_rounds clock rank N m st inbox;
  '(st', o2) ← a2a_rounds clock rank N n s (drop m inbox);
  Some (st', o1 ++ o2).
Proof.
  revert st inbox. induction m as [|m IH]; intros st inbox.
  - cbn [a2a_rounds Nat.add mbind option_bind]. rewrite drop_0.
    by destruct (a2a_rounds clock rank N n st inbox) as [[s o]|].
  - change (S m + n)%nat with (S (m + n)). cbn [a2a_rounds].
    destruct (a2a_send clock rank N st) as [[[dst pk] st1]|]; [|done].
    cbn [mbind option_bind]. destruct inbox as [|x inbox]; [done|].
    destruct (a2a_recv clock rank N st1 x) as [st2|]; [|done].
    cbn [mbind option_bind drop]. rewrite IH.
    destruct (a2a_rounds clock rank N m st2 inbox) as [[s o1]|]; [|done].
    cbn [mbind option_bind].
    by destruct (a2a_rounds clock rank N n s (drop m inbox)) as [[s' o2]|].
Qed.

(** Rounds [i .. i + n - 1] leave alone every slot of [res_arr] that is
    not the [origin] of one of them. *)
Lemma a2a_rounds_frame clock (rank N : Z) (n : nat) (st st' : proc) inbox out
    (k : Z) :
  0 ≤ rank < N → proc_wf N rank st →
  a2a_rounds clock rank N n st inbox = Some (st', out) →
  (∀ i, loop_i st ≤ i < loop_i st + Z.of_nat n → k ≠ origin rank N i) →
  rd (res_arr st') k = rd (res_arr st) k.
Proof.
  intros Hr. revert st inbox out.
  induction n as [|n IH]; intros st inbox out Hwf; cbn [a2a_rounds].
  - by intros [= <- <-] _.
  - destruct (a2a_send _ _ _ _) as [[[dst pk] st1]|] eqn:Hsend; [|done].
    cbn [mbind option_bind]. destruct inbox as [|m inbox]; [done|].
    destruct (a2a_recv _ _ _ _ _) as [st2|] eqn:Hrecv; [|done].
    cbn [mbind option_bind].
    destruct (a2a_rounds _ _ _ _ _ _) as [[st3 out3]|] eqn:Hrounds; [|done].
    cbn [mbind option_bind]. intros [= <- <-] Hk.
    pose proof (proc_wf_send _ _ _ _ _ _ _ Hwf Hsend) as Hwf1.
    pose proof (proc_wf_recv _ _ _ _ _ _ Hr Hwf1 Hrecv) as Hwf2.
    destruct (a2a_send_inv _ _ _ _ _ _ _ Hsend)
      as (_ & _ & _ & Hi1 & _ & Hres1 & _).
    destruct (a2a_recv_inv _ _ _ _ _ _ Hrecv) as (_ & _ & Hi2 & _).
    rewrite (IH _ _ _ Hwf2 Hrounds) by (intros i Hi; apply Hk; lia).
    rewrite <- Hres1.
    apply (a2a_recv_res _ _ _ _ _ _ Hr Hwf1 Hrecv).
    rewrite Hi1. apply Hk. lia.
Qed.

Lemma origin_unlogged (N p j : Z) :
  0 ≤ p < N → 1 ≤ j < N →
  origin p N j ∉ reverse ((λ i, (p - i) `mod` N) <$> seqZ 0 j).
Proof.
  intros Hp Hj. rewrite elem_of_reverse, list_elem_of_fmap.
  intros (i & Heq & Hi%elem_of_seqZ).
  rewrite origin_mod in Heq by done.
  apply log_entry_inj in Heq; lia.
Qed.

Lemma origin_inj (N p i j : Z) :
  0 ≤ p < N → 1 ≤ i < N → 1 ≤ j < N →
  origin p N i = origin p N j → i = j.
Proof.
  intros Hp Hi Hj. rewrite !origin_mod by done.
  apply log_entry_inj; lia.
Qed.

(** C5. Completeness: a process fed the [N - 1] packets of its rounds
    goes through all of them and has then made [N] writes to [res_arr],
    one to each of the slots [0 .. N-1]. The writes are the ones logged:
    the prologue writes [msg_arr[rank]] to slot [rank] and nothing else;
    round [j] writes one slot, [origin rank N j], which no earlier write
    touched, storing the cell of the buffer at [data_index] (the cell of
    the packet just received, when the packet reaches that far), and
    changes no other slot; no later round writes that slot, so the value
    is still there at the end. The state at the start of round [j] is the
    one reached by running [j - 1] rounds, the state at its end the one
    reached by running [j]. *)
Theorem completeness clock stack (msg_arr res0 : list Z) (rank N : Z)
    (inbox : list packet) :
  0 ≤ rank < N →
  Z.of_nat (length msg_arr) = N → Z.of_nat (length res0) = N →
  Z.of_nat (length inbox) = N - 1 → fits N 1 inbox →
  ∃ st0 st t out,
    a2a_prologue clock stack msg_arr res0 rank N = Some st0 ∧
    all_to_all_personalized clock stack msg_arr res0 rank N inbox
      = Some (st, t, out) ∧
    loop_i st = N ∧
    Z.of_nat (length (res_log st)) = N ∧
    NoDup (res_log st) ∧
    (∀ k, k ∈ res_log st ↔ 0 ≤ k < N) ∧
    Z.of_nat (length (res_arr st)) = N ∧
    res_log st0 = [rank] ∧
    (∃ v, rd msg_arr rank = Some v ∧
       res_arr st0 = <[Z.to_nat rank := v]> res0 ∧
       rd (res_arr st) rank = Some v) ∧
    (∀ j, 1 ≤ j ≤ N - 1 →
       ∃ s s' o1 o2 pk v,
         a2a_rounds clock rank N (Z.to_nat (j - 1)) st0 inbox = Some (s, o1) ∧
         a2a_rounds clock rank N (Z.to_nat j) st0 inbox = Some (s', o2) ∧
         inbox !! Z.to_nat (j - 1) = Some pk ∧
         (origin rank N j ∉ res_log s) ∧
         res_log s' = origin rank N j :: res_log s ∧
         res_arr s' = <[Z.to_nat (origin rank N j) := v]> (res_arr s) ∧
         (data_index rank N j < Z.of_nat (length (payload pk)) →
            rd (payload pk) (data_index rank N j) = Some v) ∧
         rd (res_arr st) (origin rank N j) = Some v).
Proof.
  intros Hr Hmsg Hres Hin Hfit. unfold all_to_all_personalized.
  destruct (a2a_prologue_shape clock stack msg_arr res0 rank N)
    as (v0 & Hv0 & Heq); [done..|].
  destruct (proc_wf_prologue _ _ _ _ _ _ _ Hr Hmsg Hres Heq) as (Hwf & Hi & Hph).
  rewrite Heq. cbn [mbind option_bind].
  set (st0 := Proc _ _ _ _ _ _ _ _) in *.
  destruct (a2a_rounds_total clock rank N (Z.to_nat (N - 1)) st0 inbox)
    as (st & out & Hrounds); [done|done|done|lia|lia|by rewrite Hi|].
  destruct (a2a_rounds_sound _ _ _ _ _ _ _ _ Hr Hwf Hrounds)
    as (Hwf' & Hi' & Hph' & Hself).
  rewrite Hrounds. cbn [mbind option_bind].
  assert (HiN : loop_i st = N) by lia.
  unfold a2a_return. rewrite Hph', Hph.
  destruct (Z.ltb_spec (loop_i st) N); [lia|]. cbn [mbind option_bind].
  exists st0, st, (time_taken st), out.
  split_and!; [done|done|done| | | |by apply (pw_res_len _ _ _ Hwf')|done| |].
  - rewrite (pw_log _ _ _ Hwf'), HiN.
    rewrite length_reverse, length_fmap, length_seqZ. lia.
  - rewrite (pw_log _ _ _ Hwf'), HiN. apply written_once; lia.
  - intros k. rewrite (pw_log _ _ _ Hwf'), HiN. by apply written_all.
  - exists v0. split_and!.
    + unfold rd. destruct (Z.leb_spec 0 rank); [done|lia].
    + done.
    + rewrite Hself. cbn [st0 res_arr]. unfold rd.
      destruct (Z.leb_spec 0 rank); [|lia].
      apply list_lookup_insert_eq. lia.
  - intros j Hj.
    (* the run is [j - 1] rounds, round [j], and the rounds left *)
    replace (Z.to_nat (N - 1))
      with (Z.to_nat (j - 1) + (1 + Z.to_nat (N - 1 - j)))%nat in Hrounds by lia.
    rewrite a2a_rounds_add in Hrounds.
    destruct (a2a_rounds clock rank N (Z.to_nat (j - 1)) st0 inbox)
      as [[s o1]|] eqn:Hbefore; [|done].
    cbn [mbind option_bind] in Hrounds.
    rewrite a2a_rounds_add in Hrounds.
    destruct (a2a_rounds clock rank N 1 s (drop (Z.to_nat (j - 1)) inbox))
      as [[s' o']|] eqn:Hround; [|done].
    cbn [mbind option_bind] in Hrounds.
    destruct (a2a_rounds clock rank N (Z.to_nat (N - 1 - j)) s'
                (drop 1 (drop (Z.to_nat (j - 1)) inbox)))
      as [[s'' o'']|] eqn:Hafter; [|done].
    cbn [mbind option_bind] in Hrounds. injection Hrounds as -> _.
    assert (Hupto : a2a_rounds clock rank N (Z.to_nat j) st0 inbox
                    = Some (s', o1 ++ o')).
    { replace (Z.to_nat j) with (Z.to_nat (j - 1) + 1)%nat by lia.
      rewrite a2a_rounds_add, Hbefore. cbn [mbind option_bind].
      by rewrite Hround. }
    destruct (a2a_rounds_sound _ _ _ _ _ _ _ _ Hr Hwf Hbefore)
      as (Hwfs & His & Hphs & _).
    assert (Hjs : loop_i s = j) by lia.
    (* round [j] *)
    cbn [a2a_rounds] in Hround.
    destruct (a2a_send clock rank N s) as [[[dst pk0] s1]|] eqn:Hsend; [|done].
    cbn [mbind option_bind] in Hround.
    destruct (drop (Z.to_nat (j - 1)) inbox) as [|pk rest] eqn:Hdrop; [done|].
    destruct (a2a_recv clock rank N s1 pk) as [s2|] eqn:Hrecv; [|done].
    cbn [mbind option_bind] in Hround. injection Hround as <- <-.
    assert (Hpk : inbox !! Z.to_nat (j - 1) = Some pk).
    { rewrite <- (Nat.add_0_r (Z.to_nat (j - 1))), <- lookup_drop, Hdrop. done. }
    pose proof (proc_wf_send _ _ _ _ _ _ _ Hwfs Hsend) as Hwf1.
    destruct (a2a_send_inv _ _ _ _ _ _ _ Hsend)
      as (_ & _ & Hph1 & Hi1 & _ & Hres1 & Hlog1 & _).
    destruct (a2a_recv_inv _ _ _ _ _ _ Hrecv) as (_ & _ & _ & _ & Hfits).
    pose proof Hwf1 as [_ _ G3 G4 _].
    assert (Hj1 : loop_i s1 = j) by lia.
    destruct (a2a_recv_shape clock rank N s1 pk Hph1 Hr ltac:(lia) G3 G4 Hfits)
      as (v & b' & Hv & _ & Hshape).
    rewrite Hj1 in Hv, Hshape.
    pose proof (proc_wf_recv _ _ _ _ _ _ Hr Hwf1 Hshape) as Hwf2.
    rewrite Hshape in Hrecv. injection Hrecv as <-.
    pose proof (origin_range N rank j Hr ltac:(lia)) as [Ho _].
    pose proof (data_index_range N rank j Hr ltac:(lia)) as Hidx.
    eexists s, _, o1, _, pk, v. split; [done|]. split; [exact Hupto|].
    cbn [res_log res_arr]. split_and!; [done| | | | |].
    + rewrite (pw_log _ _ _ Hwfs), Hjs. apply origin_unlogged; [done|lia].
    + by rewrite Hlog1.
    + by rewrite Hres1.
    + intros Hlong. unfold rd. destruct (Z.leb_spec 0 (data_index rank N j)); [|lia].
      rewrite lookup_app_l in Hv by lia. done.
    + rewrite (a2a_rounds_frame _ _ _ _ _ _ _ _ _ Hr Hwf2 Hafter).
      * cbn [res_arr]. unfold rd. destruct (Z.leb_spec 0 (origin rank N j)); [|lia].
        apply list_lookup_insert_eq. lia.
      * cbn [loop_i]. intros i Hi2 Heq2.
        apply origin_inj in Heq2; [lia|done|lia|lia].
Qed.

Lemma completeness_witness :
  ∃ st0 st t out,
    a2a_prologue (λ _, 0) (λ _, 7) [10; 20; 30] [0; 0; 0] 0 3 = Some st0 ∧
    all_to_all_personalized (λ _, 0) (λ _, 7) [10; 20; 30] [0; 0; 0] 0 3
      [Packet 2 [70; 80]; Packet 2 [40]] = Some (st, t, out) ∧
    loop_i st = 3 ∧
    Z.of_nat (length (res_log st)) = 3 ∧
    NoDup (res_log st) ∧
    (∀ k, k ∈ res_log st ↔ 0 ≤ k < 3) ∧
    Z.of_nat (length (res_arr st)) = 3 ∧
    res_log st0 = [0] ∧
    (∃ v, rd [10; 20; 30] 0 = Some v ∧
       res_arr st0 = <[Z.to_nat 0 := v]> [0; 0; 0] ∧
       rd (res_arr st) 0 = Some v) ∧
    (∀ j, 1 ≤ j ≤ 3 - 1 →
       ∃ s s' o1 o2 pk v,
         a2a_rounds (λ _, 0) 0 3 (Z.to_nat (j - 1)) st0
           [Packet 2 [70; 80]; Packet 2 [40]] = Some (s, o1) ∧
         a2a_rounds (λ _, 0) 0 3 (Z.to_nat j) st0
           [Packet 2 [70; 80]; Packet 2 [40]] = Some (s', o2) ∧
         [Packet 2 [70; 80]; Packet 2 [40]] !! Z.to_nat (j - 1) = Some pk ∧
         (origin 0 3 j ∉ res_log s) ∧
         res_log s' = origin 0 3 j :: res_log s ∧
         res_arr s' = <[Z.to_nat (origin 0 3 j) := v]> (res_arr s) ∧
         (data_index 0 3 j < Z.of_nat (length (payload pk)) →
            rd (payload pk) (data_index 0 3 j) = Some v) ∧
         rd (res_arr st) (origin 0 3 j) = Some v).
Proof.
  apply (completeness (λ _, 0) (λ _, 7) [10; 20; 30] [0; 0; 0] 0 3
           [Packet 2 [70; 80]; Packet 2 [40]]).
  - lia.
  - reflexivity.
  - reflexivity.
  - reflexivity.
  - simpl. lia.
Defined.

(** The run of the witness: the three writes, in order, and the result. *)
Example three_writes_example :
  (λ r, (res_log r.1.1, res_arr r.1.1)) <$>
    all_to_all_personalized (λ _, 0) (λ _, 7) [10; 20; 30] [0; 0; 0] 0 3
      [Packet 2 [70; 80]; Packet 2 [40]]
  = Some ([1; 2; 0], [10; 40; 70]).
Proof. reflexivity. Qed.

(** C6. The extraction index stays in bounds: in every round
    [data_index], that is [origin] if [origin <= rank] and [0] otherwise
    with [origin = (N + rank - i) mod N], lies inside the [N - i] cells
    just received; the read at [data_index] and the compaction touch those
    cells only, and a receive that is handed a packet that fits cannot
    fail. *)
Theorem index_in_bounds (rank N i : Z) :
  0 ≤ rank < N → 1 ≤ i ≤ N - 1 →
  data_index rank N i =
    (if (N + rank - i) `mod` N <=? rank then (N + rank - i) `mod` N else 0) ∧
  0 ≤ data_index rank N i < N - i ∧
  (∀ received : list Z, Z.of_nat (length received) = N - i →
     is_Some (rd received (data_index rank N i)) ∧
     is_Some (compact_array (data_index rank N i) received (N - i))) ∧
  (∀ clock (st : proc) (pk : packet),
     proc_wf N rank st → ph st = AtRecv → loop_i st = i →
     Z.of_nat (length (payload pk)) ≤ N - i →
     is_Some (a2a_recv clock rank N st pk)).
Proof.
  intros Hr Hi.
  pose proof (data_index_range N rank i Hr ltac:(lia)) as Hidx.
  split_and!; try lia.
  - unfold data_index, origin. by rewrite Z.rem_mod_nonneg by lia.
  - intros received Hlen. split.
    + destruct (rd_inside received (data_index rank N i)) as (v & -> & _);
        [lia|done].
    + rewrite compact_array_shape by lia. done.
  - intros clock st pk Hwf Hph Hloop Hlen. pose proof Hwf as [H1 H2 H3 H4 H5].
    destruct (a2a_recv_shape clock rank N st pk) as (v & b' & _ & _ & ->);
      [done|done|lia|done|done|lia|done].
Qed.

Lemma index_in_bounds_witness :
  data_index 2 3 1 =
    (if (3 + 2 - 1) `mod` 3 <=? 2 then (3 + 2 - 1) `mod` 3 else 0) ∧
  0 ≤ data_index 2 3 1 < 3 - 1 ∧
  (∀ received : list Z, Z.of_nat (length received) = 3 - 1 →
     is_Some (rd received (data_index 2 3 1)) ∧
     is_Some (compact_array (data_index 2 3 1) received (3 - 1))) ∧
  (∀ clock (st : proc) (pk : packet),
     proc_wf 3 2 st → ph st = AtRecv → loop_i st = 1 →
     Z.of_nat (length (payload pk)) ≤ 3 - 1 →
     is_Some (a2a_recv clock 2 3 st pk)).
Proof.
  apply (index_in_bounds 2 3 1).
  - lia.
  - lia.
Defined.

(** Cell by cell: what [compact_array] leaves where. *)
Lemma compact_array_cells (idx size : Z) (arr arr' : list Z) :
  0 ≤ idx < size → size ≤ Z.of_nat (length arr) →
  compact_array idx arr size = Some arr' →
  (∀ k, 0 ≤ k < idx → rd arr' k = rd arr k) ∧
  (∀ k, idx ≤ k < size - 1 → rd arr' k = rd arr (k + 1)) ∧
  (∀ k, size - 1 ≤ k → rd arr' k = rd arr k).
Proof.
  intros Hidx Hsize. rewrite compact_array_shape by done. intros [= <-].
  assert (Hl1 : length (take (Z.to_nat idx) arr) = Z.to_nat idx)
    by (rewrite length_take; lia).
  assert (Hl2 : length (take (Z.to_nat (size - idx - 1))
                          (drop (S (Z.to_nat idx)) arr))
                = Z.to_nat (size - idx - 1))
    by (rewrite length_take, length_drop; lia).
  split_and!; intros k Hk; unfold rd.
  - destruct (Z.leb_spec 0 k); [|lia].
    rewrite lookup_app_l by lia. apply lookup_take_lt. lia.
  - destruct (Z.leb_spec 0 k), (Z.leb_spec 0 (k + 1)); try lia.
    rewrite lookup_app_r by lia. rewrite lookup_app_l by lia.
    rewrite lookup_take_lt by lia. rewrite lookup_drop. f_equal. lia.
  - destruct (Z.leb_spec 0 k); [|lia].
    rewrite lookup_app_r by lia. rewrite lookup_app_r by lia.
    rewrite lookup_drop. f_equal. lia.
Qed.

(** C7. Compaction and the shrink law: [compact_array] removes the
    element at [idx] from the [size] valid cells, moving each later one a
    place to the left and keeping the order, so [size - 1] cells stay
    valid. In round [i] a process sends [N - i] cells; after it has
    received [N - i] cells and compacted them, the [N - i - 1] valid cells
    are the received ones without the extracted element, and they are what
    it sends in round [i + 1]. *)
Theorem compaction_shrink :
  (∀ (idx size : Z) (arr : list Z),
     0 ≤ idx < size → size ≤ Z.of_nat (length arr) →
     ∃ arr', compact_array idx arr size = Some arr' ∧
       length arr' = length arr ∧
       take (Z.to_nat (size - 1)) arr'
         = delete (Z.to_nat idx) (take (Z.to_nat size) arr) ∧
       (∀ k, 0 ≤ k < idx → rd arr' k = rd arr k) ∧
       (∀ k, idx ≤ k < size - 1 → rd arr' k = rd arr (k + 1))) ∧
  (∀ clock (rank N : Z) (st : proc),
     0 ≤ rank < N → proc_wf N rank st → ph st = AtSend → loop_i st < N →
     ∃ dst pk0 st1, a2a_send clock rank N st = Some (dst, pk0, st1) ∧
       Z.of_nat (length (payload pk0)) = N - loop_i st ∧
       ∀ pk, Z.of_nat (length (payload pk)) = N - loop_i st →
         ∃ st2, a2a_recv clock rank N st1 pk = Some st2 ∧
           loop_i st2 = loop_i st + 1 ∧
           take (Z.to_nat (N - loop_i st - 1)) (buf st2)
             = delete (Z.to_nat (data_index rank N (loop_i st))) (payload pk) ∧
           Z.of_nat (length (take (Z.to_nat (N - loop_i st - 1)) (buf st2)))
             = N - loop_i st - 1 ∧
           (loop_i st2 < N →
              ∃ dst' pk' st3,
                a2a_send clock rank N st2 = Some (dst', pk', st3) ∧
                payload pk' = delete (Z.to_nat (data_index rank N (loop_i st)))
                                (payload pk) ∧
                Z.of_nat (length (payload pk')) = N - loop_i st2)).
Proof.
  split.
  - intros idx size arr Hidx Hsize.
    assert (is_Some (compact_array idx arr size)) as [arr' Harr'].
    { rewrite compact_array_shape by done. done. }
    exists arr'. destruct (compact_array_cells _ _ _ _ Hidx Hsize Harr') as (F1 & F2 & _).
    split_and!; [done| | |done..].
    + by apply (compact_array_length idx size).
    + by apply compact_array_delete.
  - intros clock rank N st Hr Hwf Hph Hi.
    pose proof Hwf as [H1 H2 H3 H4 H5].
    pose proof (a2a_send_shape clock rank N st Hph ltac:(lia) H3) as Hsend.
    eexists _, _, _. split; [exact Hsend|]. cbn [payload].
    split; [rewrite length_take; lia|].
    intros pk Hpk.
    pose proof (proc_wf_send _ _ _ _ _ _ _ Hwf Hsend) as Hwf1.
    match type of Hsend with _ = Some (_, _, ?s) => set (st1 := s) in * end.
    pose proof Hwf1 as [G1 G2 G3 G4 G5].
    assert (Hph1 : ph st1 = AtRecv) by done.
    assert (Hi1 : loop_i st1 = loop_i st) by done.
    assert (Hi1' : 1 ≤ loop_i st1 < N) by lia.
    pose proof (data_index_range N rank (loop_i st) Hr ltac:(lia)) as Hdi.
    destruct (a2a_recv_shape clock rank N st1 pk Hph1 Hr Hi1' G3 G4 ltac:(lia))
      as (v & b' & _ & Hb' & Hrecv).
    rewrite Hi1 in Hb', Hrecv.
    pose proof (proc_wf_recv _ _ _ _ _ _ Hr Hwf1 Hrecv) as Hwf2.
    eexists. split; [exact Hrecv|]. cbn [loop_i buf].
    set (b := payload pk ++ _) in Hb'.
    assert (Hblen : length b = length (buf st1)).
    { unfold b. rewrite length_app, length_drop. lia. }
    assert (Hsz : N - loop_i st ≤ Z.of_nat (length b)) by lia.
    pose proof (compact_array_delete _ _ _ _ Hdi Hsz Hb') as Hdel.
    pose proof (compact_array_length _ _ _ _ Hdi Hsz Hb') as Hlen'.
    unfold b in Hdel. rewrite take_app_length' in Hdel by lia.
    split_and!; [done|done| |].
    + rewrite length_take. lia.
    + intros Hnext.
      match type of Hrecv with _ = Some ?s => set (st2 := s) in * end.
      pose proof Hwf2 as [K1 K2 K3 K4 K5].
      pose proof (a2a_send_shape clock rank N st2 eq_refl ltac:(simpl; lia) K3)
        as Hsend2.
      eexists _, _, _. split; [exact Hsend2|]. cbn [payload loop_i buf st2].
      replace (N - (loop_i st + 1)) with (N - loop_i st - 1) by lia.
      split; [done|]. rewrite length_take. lia.
Qed.

Lemma compaction_shrink_witness :
  (∃ arr', compact_array 1 [1; 2; 3; 4; 5] 4 = Some arr' ∧
     length arr' = length [1; 2; 3; 4; 5] ∧
     take (Z.to_nat (4 - 1)) arr'
       = delete (Z.to_nat 1) (take (Z.to_nat 4) [1; 2; 3; 4; 5]) ∧
     (∀ k, 0 ≤ k < 1 → rd arr' k = rd [1; 2; 3; 4; 5] k) ∧
     (∀ k, 1 ≤ k < 4 - 1 → rd arr' k = rd [1; 2; 3; 4; 5] (k + 1))) ∧
  (∃ dst pk0 st1,
     a2a_send (demo_clock 2) 2 3 (procs demo_start 2) = Some (dst, pk0, st1) ∧
     Z.of_nat (length (payload pk0)) = 3 - loop_i (procs demo_start 2) ∧
     ∀ pk, Z.of_nat (length (payload pk)) = 3 - loop_i (procs demo_start 2) →
       ∃ st2, a2a_recv (demo_clock 2) 2 3 st1 pk = Some st2 ∧
         loop_i st2 = loop_i (procs demo_start 2) + 1 ∧
         take (Z.to_nat (3 - loop_i (procs demo_start 2) - 1)) (buf st2)
           = delete (Z.to_nat (data_index 2 3 (loop_i (procs demo_start 2))))
               (payload pk) ∧
         Z.of_nat (length (take (Z.to_nat (3 - loop_i (procs demo_start 2) - 1))
                             (buf st2)))
           = 3 - loop_i (procs demo_start 2) - 1 ∧
         (loop_i st2 < 3 →
            ∃ dst' pk' st3,
              a2a_send (demo_clock 2) 2 3 st2 = Some (dst', pk', st3) ∧
              payload pk' = delete (Z.to_nat (data_index 2 3
                                      (loop_i (procs demo_start 2)))) (payload pk) ∧
              Z.of_nat (length (payload pk')) = 3 - loop_i st2)).
Proof.
  split.
  - apply (proj1 compaction_shrink 1 4 [1; 2; 3; 4; 5]).
    + lia.
    + simpl. lia.
  - apply (proj2 compaction_shrink (demo_clock 2) 2 3 (procs demo_start 2)).
    + lia.
    + split.
      * vm_compute. split; discriminate.
      * intros Hph. vm_compute in Hph. discriminate.
      * reflexivity.
      * reflexivity.
      * reflexivity.
    + reflexivity.
    + reflexivity.
Defined.

(** C9. Self-delivery: when the prologue is over and no round has run,
    [res_arr[rank]] holds [msg_arr[rank]]; the rounds leave that slot
    alone. *)
Theorem self_delivery clock stack (msg_arr res0 : list Z) (rank N : Z) :
  0 ≤ rank < N →
  Z.of_nat (length msg_arr) = N → Z.of_nat (length res0) = N →
  ∃ st0 v, a2a_prologue clock stack msg_arr res0 rank N = Some st0 ∧
    rd msg_arr rank = Some v ∧ rd (res_arr st0) rank = Some v ∧
    loop_i st0 = 1 ∧ ph st0 = AtSend ∧ res_log st0 = [rank] ∧
    ∀ n inbox st out,
      a2a_rounds clock rank N n st0 inbox = Some (st, out) →
      rd (res_arr st) rank = Some v ∧
      ∃ later, (res_log st = later ++ [rank]) ∧ (rank ∉ later) ∧ length later = n.
Proof.
  intros Hr Hmsg Hres.
  destruct (a2a_prologue_shape clock stack msg_arr res0 rank N)
    as (v & Hv & Heq); [done..|].
  destruct (proc_wf_prologue _ _ _ _ _ _ _ Hr Hmsg Hres Heq) as (Hwf & Hi & Hph).
  set (st0 := Proc _ _ _ _ _ _ _ _) in *.
  assert (Hrd0 : rd (res_arr st0) rank = Some v).
  { unfold rd. destruct (Z.leb_spec 0 rank); [|lia].
    apply list_lookup_insert_eq. lia. }
  exists st0, v. split_and!; [done| |done..|].
  - unfold rd. destruct (Z.leb_spec 0 rank); [done|lia].
  - intros n inbox st out Hrounds.
    destruct (a2a_rounds_sound _ _ _ _ _ _ _ _ Hr Hwf Hrounds)
      as (Hwf' & Hi' & _ & Hres').
    split; [by rewrite Hres'|].
    pose proof Hwf' as [K1 _ _ _ K5].
    destruct (log_split N rank (loop_i st) Hr K1) as (later & Hl & Hnotin & Hlen).
    exists later. rewrite K5. split_and!; [done..|]. lia.
Qed.

Lemma self_delivery_witness :
  ∃ st0 v, a2a_prologue (λ _, 0) (λ _, 7) [40; 50; 60] [0; 0; 0] 1 3 = Some st0 ∧
    rd [40; 50; 60] 1 = Some v ∧ rd (res_arr st0) 1 = Some v ∧
    loop_i st0 = 1 ∧ ph st0 = AtSend ∧ res_log st0 = [1] ∧
    ∀ n inbox st out,
      a2a_rounds (λ _, 0) 1 3 n st0 inbox = Some (st, out) →
      rd (res_arr st) 1 = Some v ∧
      ∃ later, (res_log st = later ++ [1]) ∧ (1 ∉ later) ∧ length later = n.
Proof.
  apply (self_delivery (λ _, 0) (λ _, 7) [40; 50; 60] [0; 0; 0] 1 3).
  - lia.
  - reflexivity.
  - reflexivity.
Defined.

(** C10. Frame of [compact_array]: only the cells [idx .. size-2] are
    written. Cells below [idx] and cells from [size - 1] on keep their
    value, so the cell [size - 1] still holds the old last element, which
    now also sits at [size - 2]; with [idx = size - 1] nothing changes. *)
Theorem compact_frame (idx size : Z) (arr : list Z) :
  0 ≤ idx < size → size ≤ Z.of_nat (length arr) →
  ∃ arr', compact_array idx arr size = Some arr' ∧
    (∀ k, 0 ≤ k < idx → rd arr' k = rd arr k) ∧
    (∀ k, size - 1 ≤ k → rd arr' k = rd arr k) ∧
    (∀ k, idx ≤ k < size - 1 → rd arr' k = rd arr (k + 1)) ∧
    (idx < size - 1 → rd arr' (size - 2) = rd arr' (size - 1)) ∧
    (idx = size - 1 → arr' = arr).
Proof.
  intros Hidx Hsize.
  assert (is_Some (compact_array idx arr size)) as [arr' Harr'].
  { rewrite compact_array_shape by done. done. }
  destruct (compact_array_cells _ _ _ _ Hidx Hsize Harr') as (F1 & F2 & F3).
  exists arr'. split_and!; [done..| |].
  - intros Hlt. rewrite F2, F3 by lia. f_equal. lia.
  - intros ->. rewrite compact_array_shape in Harr' by done.
    injection Harr' as <-.
    replace (Z.to_nat (size - (size - 1) - 1)) with 0%nat by lia.
    rewrite take_0. cbn [app]. apply take_drop.
Qed.

Lemma compact_frame_witness :
  ∃ arr', compact_array 1 [1; 2; 3; 4; 5] 4 = Some arr' ∧
    (∀ k, 0 ≤ k < 1 → rd arr' k = rd [1; 2; 3; 4; 5] k) ∧
    (∀ k, 4 - 1 ≤ k → rd arr' k = rd [1; 2; 3; 4; 5] k) ∧
    (∀ k, 1 ≤ k < 4 - 1 → rd arr' k = rd [1; 2; 3; 4; 5] (k + 1)) ∧
    (1 < 4 - 1 → rd arr' (4 - 2) = rd arr' (4 - 1)) ∧
    (1 = 4 - 1 → arr' = [1; 2; 3; 4; 5]).
Proof.
  apply (compact_frame 1 4 [1; 2; 3; 4; 5]).
  - lia.
  - simpl. lia.
Defined.

(** ** The value returned *)

(** The value returned after one round, in clock readings. *)
Lemma returned_one_round clock stack (msg_arr res0 : list Z) (rank : Z)
    (pk : packet) :
  0 ≤ rank < 2 →
  Z.of_nat (length msg_arr) = 2 → Z.of_nat (length res0) = 2 →
  Z.of_nat (length (payload pk)) ≤ 1 →
  (λ r, r.1.2) <$>
    all_to_all_personalized clock stack msg_arr res0 rank 2 [pk]
  = Some (clock 1%nat - clock 0%nat + (clock 3%nat - clock 2%nat)).
Proof.
  intros Hr Hmsg Hres Hpk. unfold all_to_all_personalized.
  destruct (a2a_prologue_shape clock stack msg_arr res0 rank 2)
    as (v & Hv & Heq); [done..|].
  destruct (proc_wf_prologue _ _ _ _ _ _ _ Hr Hmsg Hres Heq) as (Hwf & Hi & Hph).
  rewrite Heq. cbn [mbind option_bind].
  set (st0 := Proc _ _ _ _ _ _ _ _) in *.
  change (Z.to_nat (2 - 1)) with 1%nat. cbn [a2a_rounds].
  pose proof (a2a_send_shape clock rank 2 st0 Hph ltac:(lia) (pw_buf_len _ _ _ Hwf))
    as Hsend.
  rewrite Hsend. cbn [mbind option_bind].
  pose proof (proc_wf_send _ _ _ _ _ _ _ Hwf Hsend) as Hwf1.
  match type of Hsend with _ = Some (_, _, ?s) => set (st1 := s) in * end.
  destruct (a2a_recv_shape clock rank 2 st1 pk eq_refl Hr ltac:(done)
              (pw_buf_len _ _ _ Hwf1) (pw_res_len _ _ _ Hwf1) Hpk)
    as (x & b' & _ & _ & Hrecv).
  rewrite Hrecv. cbn [mbind option_bind]. reflexivity.
Qed.

(** With two ranks there is one round, and the value returned is the
    time spent in its send and its receive. *)
Lemma returned_two_ranks (tl : timeline) stack (msg_arr res0 : list Z)
    (rank : Z) (pk : packet) :
  0 ≤ rank < 2 →
  Z.of_nat (length msg_arr) = 2 → Z.of_nat (length res0) = 2 →
  Z.of_nat (length (payload pk)) ≤ 1 →
  (λ r, r.1.2) <$>
    all_to_all_personalized (clock_of tl) stack msg_arr res0 rank 2 [pk]
  = Some (comm_time tl 1).
Proof.
  intros Hr Hmsg Hres Hpk. rewrite returned_one_round by done.
  f_equal. cbn. lia.
Qed.

(** With one rank there is no round; the value returned is the reading
    of the clock on entry. *)
Lemma returned_one_rank (tl : timeline) stack (a c : Z) :
  (λ r, r.1.2) <$> all_to_all_personalized (clock_of tl) stack [a] [c] 0 1 []
  = Some (t_enter tl).
Proof. reflexivity. Qed.

(** C8. Timing contract, at three ranks: rank 0 enters at tick 100 and
    every send, receive and display takes one tick. Four ticks are spent
    in the two sends and two receives, and seven ticks separate the entry
    from the end of the last receive, yet the value returned is 104. *)
Theorem returned_three_ranks :
  (λ r, r.1.2) <$>
    all_to_all_personalized (clock_of demo_tl) (λ _, 0) [10; 20; 30] [0; 0; 0]
      0 3 [Packet 2 [70; 80]; Packet 2 [40]] = Some 104 ∧
  comm_time demo_tl 2 = 4 ∧
  elapsed demo_tl 2 = 7.
Proof. by vm_compute. Qed.

(** ** Where the functions are defined *)

Lemma rd_outside (a : list Z) (i : Z) :
  i < 0 ∨ Z.of_nat (length a) ≤ i → rd a i = None.
Proof.
  intros Hi. unfold rd. destruct (Z.leb_spec 0 i); [|done].
  apply lookup_ge_None. lia.
Qed.

Lemma wr_outside (a : list Z) (i v : Z) :
  i < 0 ∨ Z.of_nat (length a) ≤ i → wr a i v = None.
Proof.
  intros Hi. unfold wr.
  destruct (Z.leb_spec 0 i), (Z.ltb_spec i (Z.of_nat (length a))); try done. lia.
Qed.

Lemma compact_body_outside (i : Z) (arr : list Z) :
  i ≤ 0 ∨ Z.of_nat (length arr) ≤ i → compact_body i arr = None.
Proof.
  intros Hi. unfold compact_body.
  destruct (rd arr i) as [v|] eqn:Hrd; [|done]. cbn [mbind option_bind].
  apply wr_outside. left.
  assert (¬ (i < 0 ∨ Z.of_nat (length arr) ≤ i)) as Hin.
  { intros Hout. by rewrite rd_outside in Hrd. }
  lia.
Qed.

Lemma compact_array_none (idx size : Z) (arr : list Z) :
  idx + 1 < size → idx < 0 ∨ Z.of_nat (length arr) < size →
  compact_array idx arr size = None.
Proof.
  intros Hrun Hout. unfold compact_array, for_range.
  destruct (decide (idx < 0 ∨ Z.of_nat (length arr) ≤ idx + 1)) as [Hfirst|Hlater].
  - replace (Z.to_nat (size - (idx + 1)))
      with (S (Z.to_nat (size - (idx + 1) - 1))) by lia.
    rewrite iter_from_S, compact_body_outside by lia. done.
  - set (n := Z.to_nat (Z.of_nat (length arr) - (idx + 1))).
    set (m := Z.to_nat (size - Z.of_nat (length arr) - 1)).
    replace (Z.to_nat (size - (idx + 1))) with (n + S m)%nat by lia.
    rewrite iter_from_add.
    replace (idx + 1) with (Z.of_nat (S (Z.to_nat idx))) by lia.
    rewrite compact_loop_shape by lia. cbn [mbind option_bind].
    rewrite iter_from_S, compact_body_outside; [done|].
    right. rewrite !length_app, !length_take, !length_drop. lia.
Qed.

(** X1. For [int] arguments with [idx < INT_MAX], so that [idx + 1] does
    not overflow, [compact_array] stays inside the array exactly when it
    has nothing to move or when [idx] and [size] fit the array; when it
    has nothing to move it returns the array as it is, also for an [idx]
    that is negative or beyond the array. *)
Theorem compact_array_defined (idx size : Z) (arr : list Z) :
  INT_MIN ≤ idx < INT_MAX → INT_MIN ≤ size ≤ INT_MAX →
  (is_Some (compact_array idx arr size) ↔
     size ≤ idx + 1 ∨ (0 ≤ idx ∧ size ≤ Z.of_nat (length arr))) ∧
  (size ≤ idx + 1 → compact_array idx arr size = Some arr).
Proof.
  intros _ _.
  assert (Hnoop : size ≤ idx + 1 → compact_array idx arr size = Some arr).
  { intros Hle. unfold compact_array, for_range.
    by replace (Z.to_nat (size - (idx + 1))) with 0%nat by lia. }
  split; [|done]. split.
  - intros Hsome.
    destruct (decide (size ≤ idx + 1)) as [|Hrun]; [by left|right].
    destruct (decide (0 ≤ idx ∧ size ≤ Z.of_nat (length arr))) as [|Hout]; [done|].
    rewrite compact_array_none in Hsome by lia. by destruct Hsome.
  - intros [Hle|[Hidx Hsize]].
    + by rewrite Hnoop.
    + destruct (decide (size ≤ idx + 1)) as [Hle|Hrun]; [by rewrite Hnoop|].
      rewrite compact_array_shape by lia. done.
Qed.

Lemma compact_array_defined_witness :
  (is_Some (compact_array 1 [1; 2; 3] 4) ↔
     4 ≤ 1 + 1 ∨ (0 ≤ 1 ∧ 4 ≤ Z.of_nat (length [1; 2; 3]))) ∧
  (compact_array 5 [1; 2; 3] 4 = Some [1; 2; 3]) ∧
  (compact_array (-2) [1; 2; 3] (-1) = Some [1; 2; 3]).
Proof.
  split_and!.
  - apply (proj1 (compact_array_defined 1 4 [1; 2; 3]
                    ltac:(by vm_compute) ltac:(by vm_compute))).
  - apply (proj2 (compact_array_defined 5 4 [1; 2; 3]
                    ltac:(by vm_compute) ltac:(by vm_compute))). lia.
  - apply (proj2 (compact_array_defined (-2) (-1) [1; 2; 3]
                    ltac:(by vm_compute) ltac:(by vm_compute))). lia.
Defined.

(** X2. [all_to_all_personalized] has no guard on [rank]: its prologue
    stays inside [msg_arr], [res_arr] and [buf] exactly for the ranks
    [0 .. N-1]. *)
Theorem prologue_defined clock stack (msg_arr res0 : list Z) (rank N : Z) :
  1 ≤ N → Z.of_nat (length msg_arr) = N → Z.of_nat (length res0) = N →
  is_Some (a2a_prologue clock stack msg_arr res0 rank N) ↔ 0 ≤ rank < N.
Proof.
  intros HN Hmsg Hres. split.
  - intros Hsome. destruct (decide (0 ≤ rank < N)) as [|Hout]; [done|].
    unfold a2a_prologue in Hsome.
    destruct (for_range _ _ _ _) as [b|]; [|by destruct Hsome].
    cbn [mbind option_bind] in Hsome.
    rewrite rd_outside in Hsome by lia. by destruct Hsome.
  - intros Hr.
    destruct (a2a_prologue_shape clock stack msg_arr res0 rank N)
      as (v & _ & ->); done.
Qed.

Lemma prologue_defined_witness :
  is_Some (a2a_prologue (λ _, 0) (λ _, 7) [40; 50; 60] [0; 0; 0] 3 3)
  ↔ 0 ≤ 3 < 3.
Proof.
  apply (prologue_defined (λ _, 0) (λ _, 7) [40; 50; 60] [0; 0; 0] 3 3).
  - lia.
  - reflexivity.
  - reflexivity.
Defined.

(** X3. A single process exchanges nothing: it sends no packet, takes
    none from its inbox, copies [msg_arr[0]] to [res_arr[0]] and
    returns the first reading of the clock. *)
Theorem single_process clock stack (msg_arr res0 : list Z) (inbox : list packet) :
  Z.of_nat (length msg_arr) = 1 → Z.of_nat (length res0) = 1 →
  ∃ st, all_to_all_personalized clock stack msg_arr res0 0 1 inbox
          = Some (st, clock 0%nat, []) ∧
    res_arr st = msg_arr ∧ buf st = [] ∧ res_log st = [0].
Proof.
  intros Hmsg Hres.
  destruct msg_arr as [|m [|? ?]]; simpl in Hmsg; try lia.
  destruct res0 as [|r [|? ?]]; simpl in Hres; try lia.
  eexists. split; [reflexivity|]. done.
Qed.

Lemma single_process_witness :
  ∃ st, all_to_all_personalized (λ _, 3) (λ _, 7) [5] [0] 0 1 [Packet 9 [1; 2]]
          = Some (st, 3, []) ∧
    res_arr st = [5] ∧ buf st = [] ∧ res_log st = [0].
Proof.
  apply (single_process (λ _, 3) (λ _, 7) [5] [0] [Packet 9 [1; 2]]).
  - reflexivity.
  - reflexivity.
Defined.

(** X4. A short receive goes unnoticed: when the packet handed to a
    process does not reach [data_index], the receive still succeeds and
    stores in [res_arr[origin]] the cell of its own buffer that the packet
    did not overwrite. *)
Theorem short_receive clock (rank N : Z) (st : proc) (pk : packet) :
  0 ≤ rank < N → proc_wf N rank st → ph st = AtRecv →
  Z.of_nat (length (payload pk)) ≤ data_index rank N (loop_i st) →
  ∃ st' v, a2a_recv clock rank N st pk = Some st' ∧
    rd (buf st) (data_index rank N (loop_i st)) = Some v ∧
    rd (res_arr st') (origin rank N (loop_i st)) = Some v.
Proof.
  intros Hr Hwf Hph Hshort. pose proof Hwf as [H1 H2 H3 H4 H5].
  specialize (H2 Hph). assert (Hi : 1 ≤ loop_i st < N) by lia.
  pose proof (data_index_range N rank (loop_i st) Hr Hi) as Hidx.
  pose proof (origin_range N rank (loop_i st) Hr Hi) as [Ho _].
  destruct (a2a_recv_shape clock rank N st pk) as (v & b' & Hv & _ & Heq);
    [done|done|done|done|done|lia|].
  rewrite lookup_app_r, lookup_drop in Hv by lia.
  replace (length (payload pk) + (Z.to_nat (data_index rank N (loop_i st))
             - length (payload pk)))%nat
    with (Z.to_nat (data_index rank N (loop_i st))) in Hv by lia.
  eexists _, v. split; [exact Heq|]. cbn [res_arr]. unfold rd.
  destruct (Z.leb_spec 0 (data_index rank N (loop_i st))); [|lia].
  destruct (Z.leb_spec 0 (origin rank N (loop_i st))); [|lia].
  split; [done|]. apply list_lookup_insert_eq. lia.
Qed.

Lemma short_receive_witness :
  ∃ st' v, a2a_recv (demo_clock 2) 2 3 (procs demo_sent 2) (Packet 1 [40])
             = Some st' ∧
    rd (buf (procs demo_sent 2)) (data_index 2 3 (loop_i (procs demo_sent 2)))
      = Some v ∧
    rd (res_arr st') (origin 2 3 (loop_i (procs demo_sent 2))) = Some v.
Proof.
  apply (short_receive (demo_clock 2) 2 3 (procs demo_sent 2) (Packet 1 [40])).
  - lia.
  - split.
    + vm_compute. split; discriminate.
    + intros _. reflexivity.
    + reflexivity.
    + reflexivity.
    + reflexivity.
  - reflexivity.
  - vm_compute. discriminate.
Defined.

(** ** What a process sends *)

(** After a receive of a packet of full length, the cells still valid
    are the received ones without the extracted one. *)
Lemma a2a_recv_buf clock (rank N : Z) (st st' : proc) (pk : packet) :
  0 ≤ rank < N → proc_wf N rank st →
  Z.of_nat (length (payload pk)) = N - loop_i st →
  a2a_recv clock rank N st pk = Some st' →
  take (Z.to_nat (N - loop_i st - 1)) (buf st')
    = delete (Z.to_nat (data_index rank N (loop_i st))) (payload pk).
Proof.
  intros Hr Hwf Hlen Hrecv. pose proof Hwf as [H1 H2 H3 H4 H5].
  destruct (a2a_recv_inv _ _ _ _ _ _ Hrecv) as (Hph & _).
  specialize (H2 Hph). assert (Hi : 1 ≤ loop_i st < N) by lia.
  pose proof (data_index_range N rank (loop_i st) Hr Hi) as Hidx.
  destruct (a2a_recv_shape clock rank N st pk) as (v & b' & _ & Hb' & Heq);
    [done|done|done|done|done|lia|].
  rewrite Heq in Hrecv. injection Hrecv as <-. cbn [buf].
  set (b := payload pk ++ _) in Hb'.
  assert (Hsz : N - loop_i st ≤ Z.of_nat (length b)).
  { unfold b. rewrite length_app, length_drop. lia. }
  rewrite (compact_array_delete _ _ _ _ Hidx Hsz Hb').
  unfold b. by rewrite take_app_length' by lia.
Qed.

Lemma a2a_rounds_out clock (rank N : Z) (n : nat) (st st' : proc) inbox out :
  0 ≤ rank < N → proc_wf N rank st →
  a2a_rounds clock rank N n st inbox = Some (st', out) →
  length out = n ∧
  ∀ (k : nat) d pk, out !! k = Some (d, pk) →
    d = send_to rank N ∧ tag pk = rank ∧
    Z.of_nat (length (payload pk)) = N - loop_i st - Z.of_nat k.
Proof.
  intros Hr. revert st inbox out.
  induction n as [|n IH]; intros st inbox out Hwf; cbn [a2a_rounds].
  - intros [= <- <-]. split; [done|]. intros k d pk Hk. done.
  - destruct (a2a_send _ _ _ _) as [[[dst pk0] st1]|] eqn:Hsend; [|done].
    cbn [mbind option_bind]. destruct inbox as [|m inbox]; [done|].
    destruct (a2a_recv _ _ _ _ _) as [st2|] eqn:Hrecv; [|done].
    cbn [mbind option_bind].
    destruct (a2a_rounds _ _ _ _ _ _) as [[st3 out3]|] eqn:Hrounds; [|done].
    cbn [mbind option_bind]. intros [= <- <-].
    pose proof (proc_wf_send _ _ _ _ _ _ _ Hwf Hsend) as Hwf1.
    pose proof (proc_wf_recv _ _ _ _ _ _ Hr Hwf1 Hrecv) as Hwf2.
    destruct (a2a_send_inv _ _ _ _ _ _ _ Hsend)
      as (Hph & Hi & Hph1 & Hi1 & _ & _ & _ & Hdst & Htag).
    destruct (a2a_recv_inv _ _ _ _ _ _ Hrecv) as (_ & Hph2 & Hi2 & _).
    destruct (IH _ _ _ Hwf2 Hrounds) as (Hlen & Hout).
    split; [simpl; lia|]. intros [|k] d pk; cbn [lookup list_lookup].
    + intros [= <- <-]. split_and!; [done..|].
      pose proof Hwf as [H1 _ H3 _ _].
      rewrite a2a_send_shape in Hsend by (done || lia).
      injection Hsend as <- <- <-. cbn [payload]. rewrite length_take. lia.
    + intros Hk. destruct (Hout k d pk Hk) as (-> & -> & Hl).
      split_and!; [done..|]. lia.
Qed.

Lemma a2a_rounds_relay clock (rank N : Z) (n : nat) (st st' : proc) inbox out :
  0 ≤ rank < N → proc_wf N rank st → full N (loop_i st) inbox →
  a2a_rounds clock rank N n st inbox = Some (st', out) →
  ((0 < n)%nat →
     out !! 0%nat = Some (send_to rank N,
       Packet rank (take (Z.to_nat (N - loop_i st)) (buf st)))) ∧
  ∀ (k : nat) m, inbox !! k = Some m → (S k < n)%nat →
    out !! S k = Some (send_to rank N,
      Packet rank (delete (Z.to_nat (data_index rank N (loop_i st + Z.of_nat k)))
                          (payload m))).
Proof.
  intros Hr. revert st inbox out.
  induction n as [|n IH]; intros st inbox out Hwf Hfull; cbn [a2a_rounds].
  - intros [= <- <-]. split; intros; lia.
  - destruct (a2a_send _ _ _ _) as [[[dst pk0] st1]|] eqn:Hsend; [|done].
    cbn [mbind option_bind]. destruct inbox as [|m0 inbox]; [done|].
    destruct (a2a_recv _ _ _ _ _) as [st2|] eqn:Hrecv; [|done].
    cbn [mbind option_bind].
    destruct (a2a_rounds _ _ _ _ _ _) as [[st3 out3]|] eqn:Hrounds; [|done].
    cbn [mbind option_bind]. intros [= <- <-].
    destruct Hfull as [Hm0 Hfull].
    pose proof (proc_wf_send _ _ _ _ _ _ _ Hwf Hsend) as Hwf1.
    pose proof (proc_wf_recv _ _ _ _ _ _ Hr Hwf1 Hrecv) as Hwf2.
    destruct (a2a_send_inv _ _ _ _ _ _ _ Hsend)
      as (Hph & Hi & Hph1 & Hi1 & _).
    destruct (a2a_recv_inv _ _ _ _ _ _ Hrecv) as (_ & Hph2 & Hi2 & _).
    rewrite <- Hi1 in Hm0.
    pose proof (a2a_recv_buf _ _ _ _ _ _ Hr Hwf1 Hm0 Hrecv) as Hbuf.
    rewrite Hi1 in Hbuf.
    assert (Hfull2 : full N (loop_i st2) inbox) by (by rewrite Hi2, Hi1).
    destruct (IH _ _ _ Hwf2 Hfull2 Hrounds) as (Hfirst & Hnext).
    split.
    + intros _. cbn [lookup list_lookup].
      pose proof Hwf as [H1 _ H3 _ _].
      rewrite a2a_send_shape in Hsend by (done || lia).
      by injection Hsend as <- <- <-.
    + intros [|k] m Hm Hn; simpl in Hm.
      * injection Hm as <-.
        change (((dst, pk0) :: out3) !! 1%nat) with (out3 !! 0%nat).
        rewrite Hfirst by lia. do 3 f_equal.
        rewrite Hi2, Hi1, Z.add_0_r.
        replace (N - (loop_i st + 1)) with (N - loop_i st - 1) by lia. done.
      * change (((dst, pk0) :: out3) !! S (S k)) with (out3 !! S k).
        replace (loop_i st + Z.of_nat (S k)) with (loop_i st2 + Z.of_nat k) by lia.
        apply (Hnext k m Hm). lia.
Qed.

(** X5. The sends of a process: a run of [all_to_all_personalized] that
    returns has made [N - 1] sends, all to the successor [(rank + 1) mod N]
    and tagged [rank], of [N - 1], [N - 2], ..., [1] cells. *)
Theorem sends_of_a_process clock stack (msg_arr res0 : list Z) (rank N : Z)
    (inbox : list packet) (st : proc) (t : Z) (out : list (Z * packet)) :
  0 ≤ rank < N →
  Z.of_nat (length msg_arr) = N → Z.of_nat (length res0) = N →
  all_to_all_personalized clock stack msg_arr res0 rank N inbox
    = Some (st, t, out) →
  Z.of_nat (length out) = N - 1 ∧
  ∀ (k : nat) d pk, out !! k = Some (d, pk) →
    d = (rank + 1) `mod` N ∧ tag pk = rank ∧
    Z.of_nat (length (payload pk)) = N - 1 - Z.of_nat k.
Proof.
  intros Hr Hmsg Hres. unfold all_to_all_personalized.
  destruct (a2a_prologue _ _ _ _ _ _) as [st0|] eqn:Hpro; [|done].
  cbn [mbind option_bind].
  destruct (a2a_rounds _ _ _ _ _ _) as [[st1 out1]|] eqn:Hrounds; [|done].
  cbn [mbind option_bind].
  destruct (a2a_return _ _) as [t1|]; [|done]. cbn [mbind option_bind].
  intros [= <- <- <-].
  destruct (proc_wf_prologue _ _ _ _ _ _ _ Hr Hmsg Hres Hpro) as (Hwf & Hi & Hph).
  destruct (a2a_rounds_out _ _ _ _ _ _ _ _ Hr Hwf Hrounds) as (Hlen & Hout).
  split; [lia|]. intros k d pk Hk.
  destruct (Hout k d pk Hk) as (-> & -> & Hl).
  split_and!; [|done|lia].
  rewrite send_to_succ by done. done.
Qed.

Lemma sends_of_a_process_witness :
  ∃ st t out,
    all_to_all_personalized (λ _, 0) (λ _, 7) [10; 20; 30] [0; 0; 0] 0 3
      [Packet 2 [70; 80]; Packet 2 [40]] = Some (st, t, out) ∧
    Z.of_nat (length out) = 3 - 1 ∧
    ∀ (k : nat) d pk, out !! k = Some (d, pk) →
      d = (0 + 1) `mod` 3 ∧ tag pk = 0 ∧
      Z.of_nat (length (payload pk)) = 3 - 1 - Z.of_nat k.
Proof.
  eexists _, _, _. split; [reflexivity|].
  eapply (sends_of_a_process (λ _, 0) (λ _, 7) [10; 20; 30] [0; 0; 0] 0 3
            [Packet 2 [70; 80]; Packet 2 [40]]).
  - lia.
  - reflexivity.
  - reflexivity.
  - reflexivity.
Defined.

(** X6. A process is a relay: the first packet it sends is [msg_arr]
    without the entry for itself, and the packet it sends in round [k + 2]
    is the packet it received in round [k + 1] without the element it
    kept, provided the packets received have their full length. *)
Theorem relay_law clock stack (msg_arr res0 : list Z) (rank N : Z)
    (inbox : list packet) (st : proc) (t : Z) (out : list (Z * packet)) :
  0 ≤ rank < N →
  Z.of_nat (length msg_arr) = N → Z.of_nat (length res0) = N →
  full N 1 inbox →
  all_to_all_personalized clock stack msg_arr res0 rank N inbox
    = Some (st, t, out) →
  (2 ≤ N → payload ∘ snd <$> out !! 0%nat
             = Some (delete (Z.to_nat rank) msg_arr)) ∧
  ∀ (k : nat) m, inbox !! k = Some m → Z.of_nat k + 2 < N →
    payload ∘ snd <$> out !! S k
      = Some (delete (Z.to_nat (data_index rank N (1 + Z.of_nat k))) (payload m)).
Proof.
  intros Hr Hmsg Hres Hfull. unfold all_to_all_personalized.
  destruct (a2a_prologue _ _ _ _ _ _) as [st0|] eqn:Hpro; [|done].
  cbn [mbind option_bind].
  destruct (a2a_rounds _ _ _ _ _ _) as [[st1 out1]|] eqn:Hrounds; [|done].
  cbn [mbind option_bind].
  destruct (a2a_return _ _) as [t1|]; [|done]. cbn [mbind option_bind].
  intros [= <- <- <-].
  destruct (proc_wf_prologue _ _ _ _ _ _ _ Hr Hmsg Hres Hpro) as (Hwf & Hi & Hph).
  rewrite <- Hi in Hfull.
  destruct (a2a_rounds_relay _ _ _ _ _ _ _ _ Hr Hwf Hfull Hrounds)
    as (Hfirst & Hnext).
  rewrite Hi in Hfirst, Hnext. split.
  - intros HN. rewrite Hfirst by lia. cbn.
    destruct (a2a_prologue_shape clock stack msg_arr res0 rank N)
      as (v & Hv & Heq); [done..|].
    rewrite Heq in Hpro. injection Hpro as <-. cbn [buf]. f_equal.
    apply take_ge. rewrite length_delete by (by rewrite Hv). lia.
  - intros k m Hm Hk. rewrite (Hnext k m Hm) by lia. done.
Qed.

Lemma relay_law_witness :
  ∃ st t out,
    all_to_all_personalized (λ _, 0) (λ _, 7) [10; 20; 30] [0; 0; 0] 0 3
      [Packet 2 [70; 80]; Packet 2 [40]] = Some (st, t, out) ∧
    (2 ≤ 3 → payload ∘ snd <$> out !! 0%nat
               = Some (delete (Z.to_nat 0) [10; 20; 30])) ∧
    ∀ (k : nat) m, [Packet 2 [70; 80]; Packet 2 [40]] !! k = Some m →
      Z.of_nat k + 2 < 3 →
      payload ∘ snd <$> out !! S k
        = Some (delete (Z.to_nat (data_index 0 3 (1 + Z.of_nat k))) (payload m)).
Proof.
  eexists _, _, _. split; [reflexivity|].
  eapply (relay_law (λ _, 0) (λ _, 7) [10; 20; 30] [0; 0; 0] 0 3
            [Packet 2 [70; 80]; Packet 2 [40]]).
  - lia.
  - reflexivity.
  - reflexivity.
  - simpl. lia.
  - reflexivity.
Defined.

(** ** What the channels carry *)

Lemma ring_only_step clock N w w' :
  ring_only N w → net_step clock N w w' → ring_only N w'.
Proof.
  intros Hring [p dst pk st' Hp Hsend|p pk q st' Hp Hph Hpick Hrecv];
    intros s d Hsd; cbn [chans].
  - destruct (a2a_send_inv _ _ _ _ _ _ _ Hsend) as (_ & _ & _ & _ & _ & _ & _ & -> & _).
    rewrite send_to_succ by done.
    rewrite chan_set_ne; [by apply Hring|].
    destruct (decide (s = p)) as [->|]; [right|by left].
    intros ->. apply Hsd. done.
  - destruct (recv_from_succ N p Hp) as [Hsucc Hh].
    rewrite chan_set_ne; [by apply Hring|].
    destruct (decide (s = recv_from p N)) as [->|]; [right|by left].
    intros ->. apply Hsd. done.
Qed.

Lemma ring_only_steps clock N w w' :
  ring_only N w → net_steps clock N w w' → ring_only N w'.
Proof.
  intros Hring Hsteps. induction Hsteps as [|w1 w2 w3 _ IH Hstep]; [done|].
  eapply ring_only_step; [apply IH, Hring|exact Hstep].
Qed.

(** X7. The transport is used along the ring only and is left empty:
    in every state the ring can reach, a queued packet sits on the edge
    from some rank [s] to its successor and is tagged [s]; when every
    process has returned, no packet is queued anywhere. *)
Theorem channels_quiesce clock stack (M R0 : Z → list Z) (N : Z) (w : net) :
  (∀ p, 0 ≤ p < N → Z.of_nat (length (M p)) = N) →
  (∀ p, 0 ≤ p < N → Z.of_nat (length (R0 p)) = N) →
  net_reachable clock stack M R0 N w →
  (∀ s d pk, pk ∈ chans w s d →
     0 ≤ s < N ∧ d = (s + 1) `mod` N ∧ tag pk = s) ∧
  (all_finished N w → ∀ s d, chans w s d = []).
Proof.
  intros HM HR Hreach.
  pose proof (net_inv_reachable clock stack M R0 N HM HR w Hreach) as Hinv.
  destruct Hreach as (w0 & [_ Hempty] & Hsteps).
  assert (Hring : ring_only N w).
  { apply (ring_only_steps clock N w0); [|done]. intros s d _. apply Hempty. }
  split.
  - intros s d pk Hin.
    destruct (decide (0 ≤ s < N ∧ d = succ_rank N s)) as [[Hs ->]|Hno].
    + split_and!; [lia..|done|].
      rewrite (ni_chan _ _ _ Hinv s Hs) in Hin.
      apply list_elem_of_fmap in Hin as (j & -> & _). done.
    + rewrite Hring in Hin by done. by apply elem_of_nil in Hin.
  - intros Hfin s d.
    destruct (decide (0 ≤ s < N ∧ d = succ_rank N s)) as [[Hs ->]|Hno];
      [|by apply Hring].
    rewrite (ni_chan _ _ _ Hinv s Hs).
    pose proof (succ_rank_range N s Hs) as Hs'.
    pose proof (finished_round M N _ _ (ni_proc _ _ _ Hinv _ Hs') (Hfin _ Hs')) as Hi'.
    pose proof (finished_round M N _ _ (ni_proc _ _ _ Hinv _ Hs) (Hfin _ Hs)) as Hi.
    destruct (Hfin s Hs) as [Hph _].
    unfold sent_upto. rewrite Hph, Hi, Hi'. by rewrite seqZ_nil by lia.
Qed.

Lemma channels_quiesce_witness :
  (∀ s d pk, pk ∈ chans demo_sent s d →
     0 ≤ s < 3 ∧ d = (s + 1) `mod` 3 ∧ tag pk = s) ∧
  (all_finished 3 demo_sent → ∀ s d, chans demo_sent s d = []).
Proof.
  apply (channels_quiesce demo_clock demo_stack demo_M demo_R0 3 demo_sent).
  - intros p Hp. assert (p = 0 ∨ p = 1 ∨ p = 2) as [-> | [-> | ->] ] by lia; reflexivity.
  - intros p Hp. reflexivity.
  - exists demo_start. split.
    + apply net_init_ring_start.
      * intros p Hp. assert (p = 0 ∨ p = 1 ∨ p = 2) as [-> | [-> | ->] ] by lia; reflexivity.
      * intros p Hp. reflexivity.
    + apply (run_schedule_steps _ _ all_send). reflexivity.
Defined.

(** ** The number of messages *)

Lemma net_run_steps clock N s r w w' :
  net_run clock N s r w w' → net_steps clock N w w'.
Proof.
  induction 1 as [w|s r w1 w2 p dst pk st' _ IH Hp Hsend
                    |s r w1 w2 p pk q st' _ IH Hp Hph Hpick Hrecv].
  - apply steps_refl.
  - eapply steps_snoc; [exact IH|]. by apply (step_send clock N w2 p dst pk st').
  - eapply steps_snoc; [exact IH|]. by apply (step_recv clock N w2 p pk q st').
Qed.

Lemma sum_const (g : Z → Z) (c : Z) (l : list Z) :
  (∀ x, x ∈ l → g x = c) →
  foldr Z.add 0 (g <$> l) = Z.of_nat (length l) * c.
Proof.
  intros Hg. induction l as [|x l IH]; [done|]. cbn [fmap list_fmap foldr length].
  rewrite IH by (intros y Hy; apply Hg; by right).
  rewrite (Hg x) by left. lia.
Qed.

Lemma sum_le (g g' : Z → Z) (l : list Z) :
  (∀ x, x ∈ l → g x ≤ g' x) →
  foldr Z.add 0 (g <$> l) ≤ foldr Z.add 0 (g' <$> l).
Proof.
  intros Hg. induction l as [|x l IH]; [done|]. cbn [fmap list_fmap foldr].
  assert (g x ≤ g' x) by (apply Hg; left).
  assert (foldr Z.add 0 (g <$> l) ≤ foldr Z.add 0 (g' <$> l)); [|lia].
  apply IH. intros y Hy. apply Hg. by right.
Qed.

Lemma net_sum_insert (g : proc → Z) (N : Z) (w : net) (p : Z) (st' : proc) ch :
  0 ≤ p < N →
  net_sum g N (Net (<[p := st']> (procs w)) ch)
    = net_sum g N w - g (procs w p) + g st'.
Proof.
  intros Hp. unfold net_sum. cbn [procs].
  rewrite (sum_update (λ q, g (procs w q))
                      (λ q, g ((<[p := st']> (procs w)) q)) (seqZ 0 N) p).
  - cbn beta. by rewrite fn_lookup_insert.
  - apply NoDup_seqZ.
  - apply elem_of_seqZ. lia.
  - intros x Hx. cbn beta. by rewrite fn_lookup_insert_ne.
Qed.

Lemma net_run_counts clock N s r w w' :
  net_run clock N s r w w' →
  net_sum (sends_left N) N w' = net_sum (sends_left N) N w - Z.of_nat s ∧
  net_sum (recvs_left N) N w' = net_sum (recvs_left N) N w - Z.of_nat r.
Proof.
  induction 1 as [w|s r w1 w2 p dst pk st' _ [IHs IHr] Hp Hsend
                    |s r w1 w2 p pk q st' _ [IHs IHr] Hp Hph Hpick Hrecv].
  - lia.
  - rewrite !net_sum_insert by done.
    destruct (a2a_send_inv _ _ _ _ _ _ _ Hsend) as (Hph & _ & Hph' & Hi' & _).
    assert (sends_left N st' = sends_left N (procs w2 p) - 1)
      by (unfold sends_left, sent_upto; rewrite Hph, Hph', Hi'; lia).
    assert (recvs_left N st' = recvs_left N (procs w2 p))
      by (unfold recvs_left; rewrite Hi'; lia).
    lia.
  - rewrite !net_sum_insert by done.
    destruct (a2a_recv_inv _ _ _ _ _ _ Hrecv) as (_ & Hph' & Hi' & _).
    assert (sends_left N st' = sends_left N (procs w2 p))
      by (unfold sends_left, sent_upto; rewrite Hph, Hph', Hi'; lia).
    assert (recvs_left N st' = recvs_left N (procs w2 p) - 1)
      by (unfold recvs_left; rewrite Hi'; lia).
    lia.
Qed.

(** X8. The cost of the exchange: however the steps of the processes
    interleave, a run of the ring never has more than [N * (N - 1)] sends,
    never more receives than sends, and a run in which every process
    returns has exactly [N * (N - 1)] sends and as many receives. *)
Theorem message_count clock stack (M R0 : Z → list Z) (N : Z) (w0 w : net)
    (s r : nat) :
  1 ≤ N →
  (∀ p, 0 ≤ p < N → Z.of_nat (length (M p)) = N) →
  (∀ p, 0 ≤ p < N → Z.of_nat (length (R0 p)) = N) →
  net_init clock stack M R0 N w0 →
  net_run clock N s r w0 w →
  (r ≤ s)%nat ∧ Z.of_nat s ≤ N * (N - 1) ∧
  (all_finished N w →
     Z.of_nat s = N * (N - 1) ∧ Z.of_nat r = N * (N - 1)).
Proof.
  intros HN HM HR Hinit Hrun.
  pose proof (net_inv_init clock stack M R0 N HM HR w0 Hinit) as Hinv0.
  pose proof (net_inv_steps clock M N w0 w Hinv0 (net_run_steps _ _ _ _ _ _ Hrun))
    as Hinv.
  destruct (net_run_counts _ _ _ _ _ _ Hrun) as [Hs Hr].
  assert (Hstart : ∀ g, (∀ st, loop_i st = 1 → ph st = AtSend → g st = N - 1) →
            net_sum g N w0 = N * (N - 1)).
  { intros g Hg. unfold net_sum.
    rewrite (sum_const _ (N - 1)), length_seqZ by
      (intros p Hp%elem_of_seqZ;
       destruct (proc_inv_prologue M N HM (clock p) (stack p) (R0 p) p
                   (procs w0 p)) as (_ & Hi & Hph);
       [lia|apply HR; lia|apply Hinit; lia|by apply Hg]).
    lia. }
  rewrite (Hstart (sends_left N)) in Hs
    by (intros st Hi Hph; unfold sends_left, sent_upto; rewrite Hph, Hi; lia).
  rewrite (Hstart (recvs_left N)) in Hr
    by (intros st Hi Hph; unfold recvs_left; rewrite Hi; lia).
  assert (Hwf : ∀ p, p ∈ seqZ 0 N → proc_wf N p (procs w p)).
  { intros p Hp%elem_of_seqZ. apply pi_wf with M, (ni_proc _ _ _ Hinv). lia. }
  assert (Hle : net_sum (sends_left N) N w ≤ net_sum (recvs_left N) N w).
  { apply (sum_le (λ p, sends_left N (procs w p)) (λ p, recvs_left N (procs w p))).
    intros p Hp. unfold sends_left, recvs_left, sent_upto.
    destruct (ph (procs w p)); lia. }
  assert (Hnn : 0 ≤ net_sum (sends_left N) N w).
  { apply (sum_nonneg (λ p, sends_left N (procs w p))).
    intros p Hp. destruct (Hwf p Hp) as [H1 H2 _ _ _].
    unfold sends_left, sent_upto.
    destruct (ph (procs w p)); [lia|]. specialize (H2 eq_refl). lia. }
  split_and!; [lia..|].
  intros Hfin.
  assert (Hend : net_sum (recvs_left N) N w = 0).
  { unfold net_sum. rewrite (sum_const _ 0); [lia|].
    intros p Hp. destruct (Hwf p Hp) as [H1 _ _ _ _].
    apply elem_of_seqZ in Hp. destruct (Hfin p ltac:(lia)) as [_ Hge].
    unfold recvs_left. lia. }
  lia.
Qed.

Lemma net_run_trans clock N s1 r1 s2 r2 w1 w2 w3 :
  net_run clock N s1 r1 w1 w2 → net_run clock N s2 r2 w2 w3 →
  net_run clock N (s1 + s2) (r1 + r2) w1 w3.
Proof.
  intros H12 H23.
  induction H23 as [w|s r w2 w3 p dst pk st' _ IH Hp Hsend
                      |s r w2 w3 p pk q st' _ IH Hp Hph Hpick Hrecv].
  - by rewrite !Nat.add_0_r.
  - rewrite Nat.add_succ_r.
    by apply (run_send clock N _ _ w1 w3 p dst pk st'); [apply IH|..].
  - rewrite Nat.add_succ_r.
    by apply (run_recv clock N _ _ w1 w3 p pk q st'); [apply IH|..].
Qed.

Lemma net_act_run clock N a w w' :
  net_act clock N a w = Some w' →
  net_run clock N (sends_in [a]) (recvs_in [a]) w w'.
Proof.
  unfold net_act. destruct a as [p|p].
  - destruct (Z.leb_spec 0 p), (Z.ltb_spec p N); try done. simpl.
    destruct (a2a_send _ _ _ _) as [[[dst pk] st']|] eqn:Hsend; [|done].
    simpl. intros [= <-].
    by apply (run_send clock N 0 0 w w p dst pk st'); [apply run_refl|..].
  - destruct (Z.leb_spec 0 p), (Z.ltb_spec p N); try done. simpl.
    destruct (ph (procs w p)) eqn:Hph; [done|].
    destruct (pick _ _) as [[pk q]|] eqn:Hpick; [|done]. simpl.
    destruct (a2a_recv _ _ _ _ _) as [st'|] eqn:Hrecv; [|done].
    simpl. intros [= <-].
    by apply (run_recv clock N 0 0 w w p pk q st'); [apply run_refl|..].
Qed.

Lemma run_schedule_run clock N sch w w' :
  run_schedule clock N sch w = Some w' →
  net_run clock N (sends_in sch) (recvs_in sch) w w'.
Proof.
  revert w. induction sch as [|a sch IH]; intros w; cbn [run_schedule].
  - intros [= <-]. apply run_refl.
  - destruct (net_act clock N a w) as [w1|] eqn:Hact; [|done].
    cbn [mbind option_bind]. intros Hrun.
    pose proof (net_run_trans _ _ _ _ _ _ _ _ _ (net_act_run _ _ _ _ _ Hact)
                  (IH _ Hrun)) as Hall.
    destruct a; exact Hall.
Qed.

Lemma message_count_witness :
  (6 ≤ 6)%nat ∧ Z.of_nat 6 ≤ 3 * (3 - 1) ∧
  (all_finished 3 demo_final →
   Z.of_nat 6 = 3 * (3 - 1) ∧ Z.of_nat 6 = 3 * (3 - 1)).
Proof.
  apply (message_count demo_clock demo_stack demo_M demo_R0 3 demo_start).
  - lia.
  - intros p Hp. assert (p = 0 ∨ p = 1 ∨ p = 2) as [-> | [-> | ->] ] by lia; reflexivity.
  - intros p Hp. reflexivity.
  - apply net_init_ring_start.
    + intros p Hp. assert (p = 0 ∨ p = 1 ∨ p = 2) as [-> | [-> | ->] ] by lia; reflexivity.
    + intros p Hp. reflexivity.
  - apply (run_schedule_run demo_clock 3
             (all_send ++ all_recv ++ all_send ++ all_recv)).
    reflexivity.
Defined.

(** ** What is displayed *)

Lemma append_assoc (a b c : string) : (a +:+ b) +:+ c = a +:+ b +:+ c.
Proof.
  induction a as [|x a IH]; [done|].
  change (String x ((a +:+ b) +:+ c) = String x (a +:+ b +:+ c)). by f_equal.
Qed.

Lemma append_nil_r (a : string) : a +:+ "" = a.
Proof.
  induction a as [|x a IH]; [done|].
  change (String x (a +:+ "") = String x a). by f_equal.
Qed.

Lemma foldr_closing (l : list Z) :
  foldr (λ v s, pretty v +:+ ", " +:+ s) "" l +:+ "]"
  = foldr (λ v s, pretty v +:+ ", " +:+ s) "]" l.
Proof.
  induction l as [|v l IH]; [done|]. cbn [foldr].
  by rewrite !append_assoc, IH.
Qed.

Lemma print_array_body_nat (arr : list Z) (k : nat) (v : Z) (out : string) :
  arr !! k = Some v →
  print_array_body arr (Z.of_nat k) out = Some (out +:+ pretty v +:+ ", ").
Proof. intros Hv. unfold print_array_body. by rewrite rd_nat, Hv. Qed.

Lemma print_array_body_outside (arr : list Z) (i : Z) (out : string) :
  Z.of_nat (length arr) ≤ i → print_array_body arr i out = None.
Proof.
  intros Hi. unfold print_array_body. by rewrite rd_outside by lia.
Qed.

Lemma print_loop (n k : nat) (arr : list Z) (out : string) :
  (k + n ≤ length arr)%nat →
  iter_from n (Z.of_nat k) (print_array_body arr) out =
  Some (out +:+ foldr (λ v s, pretty v +:+ ", " +:+ s) "" (take n (drop k arr))).
Proof.
  revert k out. induction n as [|n IH]; intros k out Hlen.
  - cbn [iter_from take foldr]. by rewrite append_nil_r.
  - rewrite iter_from_S.
    destruct (lookup_lt_is_Some_2 arr k) as [v Hv]; [lia|].
    rewrite (print_array_body_nat arr k v out Hv). cbn [mbind option_bind].
    replace (Z.of_nat k + 1) with (Z.of_nat (S k)) by lia.
    rewrite IH by lia. f_equal.
    rewrite (drop_S arr v k Hv). cbn [take foldr].
    by rewrite !append_assoc.
Qed.

Lemma print_array_inside (arr : list Z) (arr_size : Z) :
  arr_size ≤ Z.of_nat (length arr) →
  print_array arr arr_size = Some (shown (take (Z.to_nat arr_size) arr)).
Proof.
  intros Hsize. unfold print_array, for_range.
  change 0 with (Z.of_nat 0). rewrite print_loop by lia.
  cbn [mbind option_bind]. rewrite drop_0, Z.sub_0_r. f_equal.
  unfold shown. by rewrite append_assoc, foldr_closing.
Qed.

Lemma print_array_outside (arr : list Z) (arr_size : Z) :
  Z.of_nat (length arr) < arr_size → print_array arr arr_size = None.
Proof.
  intros Hsize. unfold print_array, for_range.
  replace (Z.to_nat (arr_size - 0))
    with (length arr + S (Z.to_nat (arr_size - Z.of_nat (length arr) - 1)))%nat
    by lia.
  rewrite iter_from_add. change 0 with (Z.of_nat 0).
  rewrite print_loop by lia. cbn [mbind option_bind].
  rewrite iter_from_S, print_array_body_outside by lia. done.
Qed.

(** X9. [print_array] writes the first [arr_size] cells between ["[ "]
    and ["]"], each followed by [", "], the last one too; a size that is
    zero or negative gives ["[ ]"]; the cells beyond [arr_size] play no
    part; and it reads outside the array exactly when [arr_size] exceeds
    its length. *)
Theorem print_array_text (arr : list Z) (arr_size : Z) :
  (is_Some (print_array arr arr_size) ↔ arr_size ≤ Z.of_nat (length arr)) ∧
  (arr_size ≤ Z.of_nat (length arr) →
     print_array arr arr_size = Some (shown (take (Z.to_nat arr_size) arr))) ∧
  (arr_size ≤ 0 → print_array arr arr_size = Some "[ ]") ∧
  (∀ arr', take (Z.to_nat arr_size) arr' = take (Z.to_nat arr_size) arr →
     length arr' = length arr →
     print_array arr' arr_size = print_array arr arr_size).
Proof.
  split_and!.
  - split.
    + intros Hsome.
      destruct (decide (arr_size ≤ Z.of_nat (length arr))) as [|Hout]; [done|].
      rewrite print_array_outside in Hsome by lia. by destruct Hsome.
    + intros Hin. by rewrite print_array_inside.
  - apply print_array_inside.
  - intros Hle. rewrite print_array_inside by lia.
    by replace (Z.to_nat arr_size) with 0%nat by lia.
  - intros arr' Htake Hlen.
    destruct (decide (arr_size ≤ Z.of_nat (length arr))) as [Hin|Hout].
    + rewrite !print_array_inside by lia. by rewrite Htake.
    + rewrite !print_array_outside by lia. done.
Qed.

Lemma print_array_text_witness :
  (is_Some (print_array [1; -2; 30] 2) ↔ 2 ≤ Z.of_nat (length [1; -2; 30])) ∧
  (2 ≤ Z.of_nat (length [1; -2; 30]) →
     print_array [1; -2; 30] 2 = Some (shown (take (Z.to_nat 2) [1; -2; 30]))) ∧
  (2 ≤ 0 → print_array [1; -2; 30] 2 = Some "[ ]") ∧
  (∀ arr', take (Z.to_nat 2) arr' = take (Z.to_nat 2) [1; -2; 30] →
     length arr' = length [1; -2; 30] →
     print_array arr' 2 = print_array [1; -2; 30] 2).
Proof. apply (print_array_text [1; -2; 30] 2). Defined.

Example print_array_example :
  print_array [1; -2; 30] 3 = Some "[ 1, -2, 30, ]".
Proof. reflexivity. Qed.




Example received_display_example :
  a2a_send_shows 0 3 (procs demo_start 0)
    = Some ("Process 0 sent [ 20, 30, ] to process 1" +:+ newline) ∧
  a2a_recv_shows (demo_clock 0) 0 3 (procs demo_sent 0) (Packet 2 [70; 80])
    = Some ("Process 0 received [ 80, 80, ] from process 2" +:+ newline).
Proof. split; reflexivity. Qed.

(** ** The test data of [main] *)

Lemma fresh_array_length (stack : nat → Z) (n : Z) :
  length (fresh_array stack n) = Z.to_nat n.
Proof. unfold fresh_array. by rewrite length_fmap, length_seq. Qed.

Lemma populate_body_nat (rand : nat → Z) (limit : Z) (k c : nat) (arr : list Z) :
  (k < length arr)%nat →
  populate_body rand limit (Z.of_nat k) (arr, c)
    = Some (<[k := Z.rem (rand c) limit + 1]> arr, S c).
Proof.
  intros Hk. unfold populate_body. cbn [fst snd]. by rewrite wr_nat by done.
Qed.

Lemma populate_loop (rand : nat → Z) (limit : Z) (n k c : nat) (arr : list Z) :
  (k + n ≤ length arr)%nat →
  iter_from n (Z.of_nat k) (populate_body rand limit) (arr, c) =
  Some (take k arr ++ ((λ j, Z.rem (rand j) limit + 1) <$> seq c n)
          ++ drop (k + n) arr, (c + n)%nat).
Proof.
  revert k c arr. induction n as [|n IH]; intros k c arr Hlen.
  - cbn [iter_from seq fmap list_fmap app].
    by rewrite !Nat.add_0_r, take_drop.
  - rewrite iter_from_S, populate_body_nat by lia. cbn [mbind option_bind].
    replace (Z.of_nat k + 1) with (Z.of_nat (S k)) by lia.
    rewrite IH by (rewrite length_insert; lia).
    replace (S c + n)%nat with (c + S n)%nat by lia. do 2 f_equal.
    rewrite (take_S_r (<[k := _]> arr) k (Z.rem (rand c) limit + 1))
      by (apply list_lookup_insert_eq; lia).
    rewrite take_insert_ge, drop_insert_lt by lia.
    cbn [seq fmap list_fmap]. rewrite <- app_assoc. cbn [app].
    by replace (S k + n)%nat with (k + S n)%nat by lia.
Qed.

Lemma main_populate_shape (rand stack : nat → Z) (N : Z) :
  N * N ≤ INT_MAX →
  main_populate rand stack N
    = Some ((λ j, Z.rem (rand j) (N * N) + 1) <$> seq 0 (Z.to_nat N)).
Proof.
  intros Hfit. unfold main_populate, for_range.
  destruct (Z.leb_spec (N * N) INT_MAX); [|lia].
  change 0 with (Z.of_nat 0).
  rewrite populate_loop by (rewrite fresh_array_length; lia).
  cbn [fmap option_fmap option_map fst take app]. f_equal.
  rewrite drop_ge by (rewrite fresh_array_length; lia).
  by rewrite app_nil_r, Z.sub_0_r.
Qed.

Lemma draw_range (r N : Z) :
  0 ≤ r → 1 ≤ N → 1 ≤ Z.rem r (N * N) + 1 ≤ N * N.
Proof.
  intros Hr HN. rewrite Z.rem_mod_nonneg by nia.
  pose proof (Z.mod_pos_bound r (N * N) ltac:(nia)). lia.
Qed.

(** X11. The test data: as long as [num_proc * num_proc] fits an [int]
    (up to 46340 processes), [main] fills [arr] with [num_proc] values,
    the [k]-th being the [k]-th result of [rand()] reduced modulo
    [num_proc * num_proc] plus one, so every value lies between [1] and
    [num_proc * num_proc] and is an [int]; what the stack held is of no
    consequence. *)
Theorem test_data (rand stack : nat → Z) (N : Z) :
  1 ≤ N → N * N ≤ INT_MAX → (∀ n, 0 ≤ rand n ≤ INT_MAX) →
  ∃ arr, main_populate rand stack N = Some arr ∧
    length arr = Z.to_nat N ∧
    ∀ k, 0 ≤ k < N →
      rd arr k = Some (Z.rem (rand (Z.to_nat k)) (N * N) + 1) ∧
      1 ≤ Z.rem (rand (Z.to_nat k)) (N * N) + 1 ≤ N * N ∧
      Z.rem (rand (Z.to_nat k)) (N * N) + 1 ≤ INT_MAX.
Proof.
  intros HN Hfit Hrand. eexists. split; [by apply main_populate_shape|].
  split; [by rewrite length_fmap, length_seq|].
  intros k Hk.
  pose proof (draw_range (rand (Z.to_nat k)) N ltac:(apply Hrand) HN) as Hdraw.
  split; [|split; [done|lia]].
  unfold rd. destruct (Z.leb_spec 0 k); [|lia].
  rewrite list_lookup_fmap, lookup_seq_lt by lia. done.
Qed.

Lemma demo_rand_range (seed : Z) (n : nat) : 0 ≤ demo_rand seed n ≤ INT_MAX.
Proof.
  unfold demo_rand, INT_MAX.
  pose proof (Z.mod_pos_bound (1103515245 * (seed + Z.of_nat n) + 12345)
                2147483648 ltac:(lia)).
  lia.
Qed.

Lemma test_data_witness :
  ∃ arr, main_populate (demo_rand 1) (λ _, 0) 3 = Some arr ∧
    length arr = Z.to_nat 3 ∧
    ∀ k, 0 ≤ k < 3 →
      rd arr k = Some (Z.rem (demo_rand 1 (Z.to_nat k)) (3 * 3) + 1) ∧
      1 ≤ Z.rem (demo_rand 1 (Z.to_nat k)) (3 * 3) + 1 ≤ 3 * 3 ∧
      Z.rem (demo_rand 1 (Z.to_nat k)) (3 * 3) + 1 ≤ INT_MAX.
Proof.
  apply (test_data (demo_rand 1) (λ _, 0) 3).
  - lia.
  - by vm_compute.
  - apply demo_rand_range.
Defined.

(** The largest ring whose test data [main] can build, and the draws of
    the witness. *)
Example populate_example :
  main_populate (demo_rand 1) (λ _, 0) 3 = Some [7; 5; 5] ∧
  is_Some (main_populate (λ _, 0) (λ _, 0) 2) ∧
  46340 * 46340 ≤ INT_MAX < 46341 * 46341 ∧
  main_populate (λ _, 0) (λ _, 0) 46341 = None.
Proof. split_and!; try by vm_compute. by eexists. Qed.




(** ** The display can be read back *)

Lemma pretty_N_char_numeric (x : N) : numeric (pretty_N_char x) = true.
Proof. unfold pretty_N_char. by repeat case_match. Qed.

Lemma pretty_N_go_numeric (x : N) (s : string) :
  all_numeric s → all_numeric (pretty_N_go x s).
Proof.
  revert s. induction (N.lt_wf_0 x) as [x _ IH]; intros s Hs.
  assert (x = 0 ∨ 0 < x)%N as [->|Hx] by lia.
  - by rewrite pretty_N_go_0.
  - rewrite pretty_N_go_step by done. apply IH.
    + by apply N.div_lt.
    + split; [apply pretty_N_char_numeric|done].
Qed.

Lemma pretty_N_go_nonempty (x : N) (s : string) :
  s ≠ "" → pretty_N_go x s ≠ "".
Proof.
  revert s. induction (N.lt_wf_0 x) as [x _ IH]; intros s Hs.
  assert (x = 0 ∨ 0 < x)%N as [->|Hx] by lia.
  - by rewrite pretty_N_go_0.
  - rewrite pretty_N_go_step by done. apply IH; [by apply N.div_lt|done].
Qed.

Lemma pretty_N_numeric (x : N) : all_numeric (pretty x) ∧ pretty x ≠ "".
Proof.
  unfold pretty, pretty_N. destruct (decide (x = 0)%N) as [->|Hx].
  - split; [by split|done].
  - split; [by apply pretty_N_go_numeric|].
    rewrite pretty_N_go_step by lia. by apply pretty_N_go_nonempty.
Qed.

Lemma pretty_Z_numeric (z : Z) : all_numeric (pretty z) ∧ pretty z ≠ "".
Proof.
  destruct z as [|p|p]; unfold pretty, pretty_Z.
  - split; [by split|done].
  - apply pretty_N_numeric.
  - destruct (pretty_N_numeric (N.pos p)) as [Hnum _].
    split; [by split|done].
Qed.

(** Two runs of numeric characters, each closed by the same character
    that is not numeric, followed by anything: equal texts have equal
    runs and equal remainders. *)
Lemma numeric_prefix (a a' r r' : string) (sep : ascii) :
  numeric sep = false → all_numeric a → all_numeric a' →
  a +:+ String sep r = a' +:+ String sep r' → a = a' ∧ r = r'.
Proof.
  intros Hsep. revert a'. induction a as [|c a IH]; intros [|c' a'] Ha Ha' Heq.
  - by injection Heq as ->.
  - injection Heq as -> _. destruct Ha' as [Hc _]. congruence.
  - injection Heq as -> _. destruct Ha as [Hc _]. congruence.
  - injection Heq as -> Heq. destruct Ha as [_ Ha], Ha' as [_ Ha'].
    destruct (IH a' Ha Ha' Heq) as [-> ->]. done.
Qed.

Lemma cells_text_inj (l l' : list Z) :
  foldr (λ v s, pretty v +:+ ", " +:+ s) "]" l
  = foldr (λ v s, pretty v +:+ ", " +:+ s) "]" l' → l = l'.
Proof.
  revert l'. induction l as [|v l IH]; intros [|v' l']; cbn [foldr]; intros Heq.
  - done.
  - destruct (pretty_Z_numeric v') as [Hnum Hne].
    destruct (pretty v') as [|c s]; [done|].
    injection Heq as <- _. destruct Hnum as [Hc _].
    vm_compute in Hc. discriminate Hc.
  - destruct (pretty_Z_numeric v) as [Hnum Hne].
    destruct (pretty v) as [|c s]; [done|].
    injection Heq as -> _. destruct Hnum as [Hc _].
    vm_compute in Hc. discriminate Hc.
  - destruct (pretty_Z_numeric v) as [Hnum _].
    destruct (pretty_Z_numeric v') as [Hnum' _].
    apply (numeric_prefix _ _ _ _ ","%char eq_refl Hnum Hnum') in Heq
      as [Hv Hrest].
    apply (inj pretty) in Hv as ->. injection Hrest as Hrest.
    by rewrite (IH l' Hrest).
Qed.

(** X13. The display of an array can be read back: two calls of
    [print_array] with the same size that stay inside their arrays write
    the same text exactly when the cells displayed are the same. *)
Theorem print_array_reads_back (arr arr' : list Z) (arr_size : Z) :
  arr_size ≤ Z.of_nat (length arr) → arr_size ≤ Z.of_nat (length arr') →
  print_array arr arr_size = print_array arr' arr_size ↔
  take (Z.to_nat arr_size) arr = take (Z.to_nat arr_size) arr'.
Proof.
  intros Hin Hin'. rewrite !print_array_inside by done. split.
  - intros [= Heq]. by apply cells_text_inj.
  - by intros ->.
Qed.

Lemma print_array_reads_back_witness :
  print_array [1; -2; 30] 2 = print_array [1; -2; 7; 9] 2 ↔
  take (Z.to_nat 2) [1; -2; 30] = take (Z.to_nat 2) [1; -2; 7; 9].
Proof.
  apply (print_array_reads_back [1; -2; 30] [1; -2; 7; 9] 2).
  - simpl. lia.
  - simpl. lia.
Defined.

(** ** The ring runs the function *)

Lemma a2a_rounds_snoc clock (rank N : Z) (n : nat) (st st1 st2 st3 : proc)
    inbox out d pk m :
  a2a_rounds clock rank N n st inbox = Some (st1, out) → length inbox = n →
  a2a_send clock rank N st1 = Some (d, pk, st2) →
  a2a_recv clock rank N st2 m = Some st3 →
  a2a_rounds clock rank N (S n) st (inbox ++ [m]) = Some (st3, out ++ [(d, pk)]).
Proof.
  revert st inbox out. induction n as [|n IH]; intros st inbox out Hrounds Hlen Hsend Hrecv.
  - destruct inbox; [|done]. cbn [a2a_rounds] in Hrounds.
    injection Hrounds as <- <-. cbn [a2a_rounds app].
    rewrite Hsend. cbn [mbind option_bind]. rewrite Hrecv. done.
  - destruct inbox as [|m0 inbox]; [done|].
    cbn [a2a_rounds] in Hrounds.
    change ((m0 :: inbox) ++ [m]) with (m0 :: (inbox ++ [m])).
    remember (S n) as n' eqn:Hn'. cbn [a2a_rounds].
    destruct (a2a_send clock rank N st) as [[[d0 pk0] s1]|]; [|done].
    cbn [mbind option_bind] in *.
    destruct (a2a_recv clock rank N s1 m0) as [s2|]; [|done].
    cbn [mbind option_bind] in *.
    destruct (a2a_rounds clock rank N n s2 inbox) as [[s3 out3]|] eqn:Hr; [|done].
    cbn [mbind option_bind] in Hrounds. injection Hrounds as <- <-.
    subst n'. rewrite (IH s2 inbox out3 Hr ltac:(simpl in Hlen; lia) Hsend Hrecv).
    done.
Qed.

Lemma seqZ_snoc (n : Z) : 0 ≤ n → seqZ 1 (n + 1) = seqZ 1 n ++ [n + 1].
Proof.
  intros Hn. rewrite seqZ_app by lia. f_equal.
  rewrite (seqZ_cons _ 1), seqZ_nil by lia. f_equal. lia.
Qed.

Section adequacy.
Variable clock : Z → nat → Z.
Variable M : Z → list Z.
Variable N : Z.
Variable w0 : net.

Lemma follows_start :
  (∀ p, 0 ≤ p < N → loop_i (procs w0 p) = 1 ∧ ph (procs w0 p) = AtSend) →
  follows_function clock M N w0 w0.
Proof.
  intros Hstart p Hp. destruct (Hstart p Hp) as [Hi Hph].
  exists (procs w0 p). rewrite Hi, Hph. done.
Qed.

Lemma follows_step w w' :
  net_inv M N w → follows_function clock M N w0 w →
  net_step clock N w w' → follows_function clock M N w0 w'.
Proof.
  intros Hinv Hfol [p dst pk st' Hp Hsend|p pk q st' Hp Hph Hpick Hrecv];
    intros x Hx; cbn [procs].
  - destruct (decide (x = p)) as [->|Hne];
      [|rewrite fn_lookup_insert_ne by done; by apply Hfol].
    rewrite fn_lookup_insert.
    destruct (a2a_send_inv _ _ _ _ _ _ _ Hsend) as (Hph & _ & Hph' & Hi' & _).
    destruct (Hfol p Hp) as (s & Hrounds & Hs). rewrite Hph in Hs. subst s.
    exists (procs w p). rewrite Hi', Hph'. split; [done|]. eauto.
  - destruct (decide (x = p)) as [->|Hne];
      [|rewrite fn_lookup_insert_ne by done; by apply Hfol].
    rewrite fn_lookup_insert.
    destruct (recv_head M N w p pk q Hinv Hp Hph Hpick) as (-> & _ & _).
    destruct (a2a_recv_inv _ _ _ _ _ _ Hrecv) as (_ & Hph' & Hi' & _).
    destruct (Hfol p Hp) as (s & Hrounds & Hs). rewrite Hph in Hs.
    destruct Hs as (d & pk0 & Hsend).
    pose proof (ni_proc _ _ _ Hinv p Hp) as [Hwf Hbuf _].
    pose proof Hwf as [H1 H2 H3 _ _]. specialize (H2 Hph).
    destruct (a2a_send_inv _ _ _ _ _ _ _ Hsend)
      as (Hphs & _ & _ & His & Hbs & _ & _ & -> & _).
    assert (Hpk0 : pk0 = Packet p (in_transit M N p (loop_i (procs w p)))).
    { rewrite a2a_send_shape in Hsend by (rewrite <- ?His, <- ?Hbs; done || lia).
      injection Hsend as <- _. by rewrite <- His, <- Hbs, Hbuf. }
    exists st'. rewrite Hph', Hi'. split; [|done].
    set (i := loop_i (procs w p)) in *.
    replace (i + 1 - 1) with (i - 1 + 1) by lia.
    replace (Z.to_nat (i - 1 + 1)) with (S (Z.to_nat (i - 1))) by lia.
    unfold ring_inbox, ring_outbox. rewrite seqZ_snoc, !fmap_snoc by lia.
    replace (i - 1 + 1) with i by lia.
    apply (a2a_rounds_snoc _ _ _ _ _ s (procs w p)); [exact Hrounds| |..].
    + unfold ring_inbox. rewrite length_fmap, length_seqZ. done.
    + rewrite Hsend, Hpk0. by rewrite send_to_succ.
    + exact Hrecv.
Qed.

Lemma follows_steps w w' :
  net_inv M N w → follows_function clock M N w0 w →
  net_steps clock N w w' → follows_function clock M N w0 w'.
Proof.
  intros Hinv Hfol Hsteps.
  induction Hsteps as [|w1 w2 w3 Hsteps IH Hstep]; [done|].
  apply (follows_step w2); [|by apply IH|done].
  by apply (net_inv_steps clock M N w1).
Qed.
End adequacy.

(** X14. The ring runs the function: in a run of the ring in which
    every process returns, what rank [p] has done is the run of
    [all_to_all_personalized] on the packets its predecessor sent it,
    one buffer of values in transit per round; it ends in the state the
    ring left [p] in, returns the [time_taken] of that state, and has sent
    the buffers of [p] to its successor. *)
Theorem ring_runs_the_function clock stack (M R0 : Z → list Z) (N : Z)
    (w0 wf : net) (p : Z) :
  (∀ p, 0 ≤ p < N → Z.of_nat (length (M p)) = N) →
  (∀ p, 0 ≤ p < N → Z.of_nat (length (R0 p)) = N) →
  net_init clock stack M R0 N w0 →
  net_steps clock N w0 wf → all_finished N wf → 0 ≤ p < N →
  all_to_all_personalized (clock p) (stack p) (M p) (R0 p) p N
    (ring_inbox M N p (N - 1))
  = Some (procs wf p, time_taken (procs wf p), ring_outbox M N p (N - 1)).
Proof.
  intros HM HR Hinit Hsteps Hfin Hp.
  pose proof (net_inv_init clock stack M R0 N HM HR w0 Hinit) as Hinv0.
  pose proof (net_inv_steps clock M N w0 wf Hinv0 Hsteps) as Hinv.
  assert (Hstart : ∀ p, 0 ≤ p < N →
            loop_i (procs w0 p) = 1 ∧ ph (procs w0 p) = AtSend).
  { intros x Hx.
    destruct (proc_inv_prologue M N HM (clock x) (stack x) (R0 x) x (procs w0 x))
      as (_ & Hi & Hph); [done|by apply HR|by apply Hinit|done]. }
  pose proof (follows_steps clock M N w0 w0 wf Hinv0
                (follows_start clock M N w0 Hstart) Hsteps) as Hfol.
  destruct (Hfol p Hp) as (s & Hrounds & Hs).
  pose proof (finished_round M N p _ (ni_proc _ _ _ Hinv p Hp) (Hfin p Hp)) as Hi.
  destruct (Hfin p Hp) as [Hph _]. rewrite Hph in Hs. subst s.
  rewrite Hi in Hrounds.
  unfold all_to_all_personalized.
  destruct Hinit as [Hpro _]. rewrite (Hpro p Hp). cbn [mbind option_bind].
  rewrite Hrounds. cbn [mbind option_bind].
  unfold a2a_return. rewrite Hph, Hi, Z.ltb_irrefl. done.
Qed.

Lemma demo_final_finished : all_finished 3 demo_final.
Proof.
  intros p Hp.
  assert (p = 0 ∨ p = 1 ∨ p = 2) as [-> | [-> | ->] ] by lia;
    (split; [reflexivity|vm_compute; discriminate]).
Defined.

Lemma ring_runs_the_function_witness :
  all_to_all_personalized (demo_clock 0) (demo_stack 0) (demo_M 0) (demo_R0 0)
    0 3 (ring_inbox demo_M 3 0 (3 - 1))
  = Some (procs demo_final 0, time_taken (procs demo_final 0),
          ring_outbox demo_M 3 0 (3 - 1)).
Proof.
  apply (ring_runs_the_function demo_clock demo_stack demo_M demo_R0 3
           demo_start demo_final 0).
  - intros p Hp. assert (p = 0 ∨ p = 1 ∨ p = 2) as [-> | [-> | ->] ] by lia; reflexivity.
  - intros p Hp. reflexivity.
  - apply net_init_ring_start.
    + intros p Hp. assert (p = 0 ∨ p = 1 ∨ p = 2) as [-> | [-> | ->] ] by lia; reflexivity.
    + intros p Hp. reflexivity.
  - apply (run_schedule_steps _ _ (all_send ++ all_recv ++ all_send ++ all_recv)).
    reflexivity.
  - apply demo_final_finished.
  - lia.
Defined.

(** ** The volume sent *)

Lemma cells_sent_decreasing (out : list (Z * packet)) (a : Z) :
  (∀ (k : nat) x, out !! k = Some x →
     Z.of_nat (length (payload x.2)) = a - Z.of_nat k) →
  2 * cells_sent out
    = Z.of_nat (length out) * (2 * a - Z.of_nat (length out) + 1).
Proof.
  revert a. induction out as [|x out IH]; intros a Hsizes.
  - cbn [cells_sent foldr length]. lia.
  - cbn [cells_sent foldr]. fold (cells_sent out).
    pose proof (Hsizes 0%nat x eq_refl) as H0.
    specialize (IH (a - 1)).
    rewrite Z.mul_add_distr_l, IH.
    + cbn [length]. nia.
    + intros k y Hy. rewrite (Hsizes (S k) y Hy). lia.
Qed.

(** X15. The volume a process sends: over its [N - 1] rounds a process
    hands [N * (N - 1) / 2] cells to the transport. *)
Theorem volume_sent clock stack (msg_arr res0 : list Z) (rank N : Z)
    (inbox : list packet) (st : proc) (t : Z) (out : list (Z * packet)) :
  0 ≤ rank < N →
  Z.of_nat (length msg_arr) = N → Z.of_nat (length res0) = N →
  all_to_all_personalized clock stack msg_arr res0 rank N inbox
    = Some (st, t, out) →
  2 * cells_sent out = N * (N - 1).
Proof.
  intros Hr Hmsg Hres. unfold all_to_all_personalized.
  destruct (a2a_prologue _ _ _ _ _ _) as [st0|] eqn:Hpro; [|done].
  cbn [mbind option_bind].
  destruct (a2a_rounds _ _ _ _ _ _) as [[st1 out1]|] eqn:Hrounds; [|done].
  cbn [mbind option_bind].
  destruct (a2a_return _ _) as [t1|]; [|done]. cbn [mbind option_bind].
  intros [= <- <- <-].
  destruct (proc_wf_prologue _ _ _ _ _ _ _ Hr Hmsg Hres Hpro) as (Hwf & Hi & Hph).
  destruct (a2a_rounds_out _ _ _ _ _ _ _ _ Hr Hwf Hrounds) as (Hlen & Hout).
  rewrite (cells_sent_decreasing out1 (N - 1)).
  - rewrite Hlen. nia.
  - intros k [d pk] Hk. destruct (Hout k d pk Hk) as (_ & _ & Hl).
    cbn [snd]. lia.
Qed.

Lemma volume_sent_witness :
  ∃ st t out,
    all_to_all_personalized (λ _, 0) (λ _, 7) [10; 20; 30] [0; 0; 0] 0 3
      [Packet 2 [70; 80]; Packet 2 [40]] = Some (st, t, out) ∧
    2 * cells_sent out = 3 * (3 - 1).
Proof.
  eexists _, _, _. split; [reflexivity|].
  eapply (volume_sent (λ _, 0) (λ _, 7) [10; 20; 30] [0; 0; 0] 0 3
            [Packet 2 [70; 80]; Packet 2 [40]]).
  - lia.
  - reflexivity.
  - reflexivity.
  - reflexivity.
Defined.
